(** * fireway: the migration engine of [src/index.js]

    A shallow embedding of [migrate], of the write interceptor
    ([proxyWritableMethods], [mitm], the patched [WriteBatch.prototype._commit])
    and of [trackAsync], with the properties of the engine proved over it.

    Conventions of the embedding.
    - JavaScript strings are [string]s (ASCII file names and versions).
    - JavaScript numbers that the engine counts with (the counters of the
      stats object, [installed_rank]) are integers of [Z].
    - Code that throws returns [Throw]; [async] code is sequential state
      passing over the [World]; a run that waits for ever is [Blocked].
    - What the file does not contain (the [semver] and [path] packages, the
      Firestore client, the file system, the module loader) is modelled at
      its interface: [Semver] and [Path] below follow the packages'
      behaviour, the other collaborators are fields of [Env].
    - A migration module is a [Script]: the calls that its entry point makes
      on the client, each continued by the answer of the client, up to the
      way the entry point ends.
    - The records of the [fireway] collection are kept apart from the
      documents of the migrations: a migration writes documents, the engine
      writes records.
    - The events of a [World] (an entry point was called, the backend
      committed writes) are ghost state: the code has no such variable. *)

From Stdlib Require Import String Ascii List ZArith NArith Lia Bool.
From Stdlib Require Import DecimalString.
From Stdlib Require DecimalN DecimalFacts DecimalPos.
From Stdlib Require Import Permutation Sorted.
From stdpp Require Import gmap strings.

Import ListNotations.
Local Open Scope string_scope.
Local Open Scope Z_scope.

(** ** Results of code that may throw *)

Inductive Result (A : Type) : Type :=
| Ok (a : A)
| Throw (e : string).
Arguments Ok {A} a.
Arguments Throw {A} e.

Definition rbind {A B} (r : Result A) (k : A -> Result B) : Result B :=
  match r with
  | Ok a => k a
  | Throw e => Throw e
  end.

(** ** Strings as JavaScript uses them *)

Definition dquote : string := String (ascii_of_nat 34) EmptyString.

Definition is_digit (c : ascii) : bool :=
  let n := nat_of_ascii c in (Nat.leb 48 n && Nat.leb n 57)%bool.

Definition is_letter (c : ascii) : bool :=
  let n := nat_of_ascii c in
  ((Nat.leb 65 n && Nat.leb n 90) || (Nat.leb 97 n && Nat.leb n 122))%bool.

Definition is_whitespace (c : ascii) : bool :=
  let n := nat_of_ascii c in
  ((Nat.leb 9 n && Nat.leb n 13) || Nat.eqb n 32)%bool.

Fixpoint string_forall (p : ascii -> bool) (s : string) : bool :=
  match s with
  | EmptyString => true
  | String c t => (p c && string_forall p t)%bool
  end.

Fixpoint trim_start (s : string) : string :=
  match s with
  | String c t => if is_whitespace c then trim_start t else s
  | EmptyString => EmptyString
  end.

Fixpoint trim_end (s : string) : string :=
  match s with
  | EmptyString => EmptyString
  | String c t =>
      match trim_end t with
      | EmptyString => if is_whitespace c then EmptyString else String c EmptyString
      | t' => String c t'
      end
  end.

(** [String.prototype.trim] on ASCII white space. *)
Definition trim (s : string) : string := trim_end (trim_start s).

(** [s.split(c)] for a one-character separator. *)
Fixpoint split_char (sep : ascii) (s : string) : list string :=
  match s with
  | EmptyString => [EmptyString]
  | String c t =>
      if Ascii.eqb c sep then EmptyString :: split_char sep t
      else
        match split_char sep t with
        | x :: r => String c x :: r
        | [] => [String c EmptyString]
        end
  end.

(** [s.split('__')]: the separator is matched from the left, pieces do not
    overlap. *)
Fixpoint split_dunder (s : string) : list string :=
  match s with
  | EmptyString => [EmptyString]
  | String c t =>
      match t with
      | String c' t' =>
          if (Ascii.eqb c "_" && Ascii.eqb c' "_")%bool
          then EmptyString :: split_dunder t'
          else
            match split_dunder t with
            | x :: r => String c x :: r
            | [] => [String c EmptyString]
            end
      | EmptyString => [String c EmptyString]
      end
  end.

(** [s.slice(a, b)] for [0 <= a]; an empty string when [b <= a]. *)
Definition slice (s : string) (a b : Z) : string :=
  substring (Z.to_nat a) (Z.to_nat (b - a)) s.

(** [String(n)] for an integer. *)
Definition string_of_N (n : N) : string := NilZero.string_of_uint (N.to_uint n).

Definition string_of_Z (z : Z) : string := NilZero.string_of_int (Z.to_int z).

(** [s] up to the first [sep], and what follows that [sep] when there is
    one. *)
Fixpoint break_at (sep : ascii) (s : string) : string * option string :=
  match s with
  | EmptyString => (EmptyString, None)
  | String c t =>
      if Ascii.eqb c sep then (EmptyString, Some t)
      else let '(a, b) := break_at sep t in (String c a, b)
  end.

(** The longest prefix of digits, and the rest. *)
Fixpoint span_digits (s : string) : string * string :=
  match s with
  | EmptyString => (EmptyString, EmptyString)
  | String c t =>
      if is_digit c then let '(d, r) := span_digits t in (String c d, r)
      else (EmptyString, s)
  end.

Fixpoint join (sep : string) (l : list string) : string :=
  match l with
  | [] => EmptyString
  | [x] => x
  | x :: t => x +:+ sep +:+ join sep t
  end.

(** ** The [semver] package (7.x), as the engine uses it

    [coerce], [compare] and [gt], with the [SemVer] class behind them. The
    regular expressions of the package are written out as the matchers
    [full_match] (its [FULL], strict) and [coerce_match] (its [COERCE]).
    Numeric pre-release identifiers are compared exactly. *)
Module Semver.

Definition MAX_LENGTH : nat := 256.
Definition MAX_SAFE_INTEGER : N := 9007199254740991.
Definition MAX_SAFE_COMPONENT_LENGTH : nat := 16.

(** A pre-release identifier of a parsed version: a number when it is
    numeric and below [MAX_SAFE_INTEGER], the string otherwise. *)
Inductive PreId : Type :=
| IdNum (n : N)
| IdStr (s : string).

Record SemVer : Type := {
  major : N;
  minor : N;
  patch : N;
  prerelease : list PreId;
  build : list string
}.

(** The value of a string of digits. *)
Definition digits_value (s : string) : N :=
  match NilEmpty.uint_of_string s with
  | Some d => N.of_uint d
  | None => 0%N
  end.

Definition all_digits (s : string) : bool :=
  (negb (String.eqb s "") && string_forall is_digit s)%bool.

(** [NUMERICIDENTIFIER]: [0], or digits that do not start with [0]. *)
Definition numeric_identifier (s : string) : bool :=
  match s with
  | EmptyString => false
  | String c t =>
      (string_forall is_digit s && (negb (Ascii.eqb c "0") || String.eqb t ""))%bool
  end.

Definition identifier_char (c : ascii) : bool :=
  (is_digit c || is_letter c || Ascii.eqb c "-")%bool.

(** [PRERELEASEIDENTIFIER]: a numeric identifier, or letters, digits and
    [-] with at least one that is not a digit. *)
Definition prerelease_identifier (s : string) : bool :=
  (negb (String.eqb s "") && string_forall identifier_char s
   && (negb (string_forall is_digit s) || numeric_identifier s))%bool.

(** [BUILDIDENTIFIER]: one or more letters, digits and [-]. *)
Definition build_identifier (s : string) : bool :=
  (negb (String.eqb s "") && string_forall identifier_char s)%bool.

(** The groups of a match of [FULL]: an optional [v], three numeric
    identifiers between dots, then optionally [-] and pre-release identifiers
    between dots, then optionally [+] and build identifiers between dots. *)
Record Groups : Type := {
  m1 : string;
  m2 : string;
  m3 : string;
  m4 : option string;
  m5 : option string
}.

Definition full_match (s : string) : option Groups :=
  let s1 := match s with
            | String c t => if Ascii.eqb c "v" then t else s
            | EmptyString => s
            end in
  let '(mp, bld) := break_at "+" s1 in
  let '(main, pre) := break_at "-" mp in
  match split_char "." main with
  | [a; b; c] =>
      if (numeric_identifier a && numeric_identifier b && numeric_identifier c
          && match pre with
             | Some p => forallb prerelease_identifier (split_char "." p)
             | None => true
             end
          && match bld with
             | Some p => forallb build_identifier (split_char "." p)
             | None => true
             end)%bool
      then Some {| m1 := a; m2 := b; m3 := c; m4 := pre; m5 := bld |}
      else None
  | _ => None
  end.

Definition prerelease_id (id : string) : PreId :=
  if (all_digits id && (digits_value id <? MAX_SAFE_INTEGER)%N)%bool
  then IdNum (digits_value id)
  else IdStr id.

(** [new SemVer(version)], strict. *)
Definition SemVer_new (version : string) : Result SemVer :=
  if Nat.ltb MAX_LENGTH (String.length version)
  then Throw "version is longer than 256 characters"
  else
    match full_match (trim version) with
    | None => Throw ("Invalid Version: " +:+ version)
    | Some m =>
        let major := digits_value (m1 m) in
        let minor := digits_value (m2 m) in
        let patch := digits_value (m3 m) in
        if (MAX_SAFE_INTEGER <? major)%N then Throw "Invalid major version"
        else if (MAX_SAFE_INTEGER <? minor)%N then Throw "Invalid minor version"
        else if (MAX_SAFE_INTEGER <? patch)%N then Throw "Invalid patch version"
        else
          Ok {| major := major;
                minor := minor;
                patch := patch;
                prerelease := match m4 m with
                              | Some p =>
                                  if String.eqb p "" then []
                                  else map prerelease_id (split_char "." p)
                              | None => []
                              end;
                build := match m5 m with
                         | Some p =>
                             if String.eqb p "" then [] else split_char "." p
                         | None => []
                         end |}
    end.

Definition PreId_to_string (a : PreId) : string :=
  match a with
  | IdNum n => string_of_N n
  | IdStr s => s
  end.

(** [format()], the [version] property of a [SemVer]. *)
Definition version (v : SemVer) : string :=
  string_of_N (major v) +:+ "." +:+ string_of_N (minor v) +:+ "."
  +:+ string_of_N (patch v)
  +:+ match prerelease v with
      | [] => ""
      | ids => "-" +:+ join "." (map PreId_to_string ids)
      end.

Definition sign (c : comparison) : Z :=
  match c with
  | Lt => -1
  | Eq => 0
  | Gt => 1
  end.

(** [compareIdentifiers(a, b)]. *)
Definition compareIdentifiers (a b : PreId) : Z :=
  let anum := all_digits (PreId_to_string a) in
  let bnum := all_digits (PreId_to_string b) in
  if (anum && bnum)%bool
  then sign (N.compare (digits_value (PreId_to_string a))
                       (digits_value (PreId_to_string b)))
  else if String.eqb (PreId_to_string a) (PreId_to_string b) then 0
  else if (anum && negb bnum)%bool then -1
  else if (bnum && negb anum)%bool then 1
  else if String.ltb (PreId_to_string a) (PreId_to_string b) then -1
  else 1.

Definition compareNumbers (a b : N) : Z := sign (N.compare a b).

(** [compareMain(other)]: the first of the three comparisons that is not 0. *)
Definition compareMain (a b : SemVer) : Z :=
  if negb (compareNumbers (major a) (major b) =? 0)
  then compareNumbers (major a) (major b)
  else if negb (compareNumbers (minor a) (minor b) =? 0)
  then compareNumbers (minor a) (minor b)
  else compareNumbers (patch a) (patch b).

Definition PreId_eqb (a b : PreId) : bool :=
  match a, b with
  | IdNum n, IdNum m => N.eqb n m
  | IdStr s, IdStr t => String.eqb s t
  | _, _ => false
  end.

(** The loop of [comparePre(other)], on what is left of both lists. *)
Fixpoint comparePre_loop (a b : list PreId) : Z :=
  match a, b with
  | [], [] => 0
  | _ :: _, [] => 1
  | [], _ :: _ => -1
  | x :: a', y :: b' =>
      if PreId_eqb x y then comparePre_loop a' b' else compareIdentifiers x y
  end.

Definition comparePre (a b : SemVer) : Z :=
  match prerelease a, prerelease b with
  | _ :: _, [] => -1
  | [], _ :: _ => 1
  | [], [] => 0
  | pa, pb => comparePre_loop pa pb
  end.

(** [a.compare(b)] of two [SemVer]s. *)
Definition compare_SemVer (a b : SemVer) : Z :=
  if String.eqb (version a) (version b) then 0
  else if negb (compareMain a b =? 0) then compareMain a b
  else comparePre a b.

(** [semver.compare(a, b)]. *)
Definition compare (a b : string) : Result Z :=
  rbind (SemVer_new a) (fun x =>
  rbind (SemVer_new b) (fun y => Ok (compare_SemVer x y))).

(** [semver.gt(a, b)]. *)
Definition gt (a b : string) : Result bool :=
  rbind (compare a b) (fun c => Ok (0 <? c)).

(** [semver.parse(version)]. *)
Definition parse (v : string) : option SemVer :=
  if Nat.ltb MAX_LENGTH (String.length v) then None
  else
    match full_match v with
    | None => None
    | Some _ =>
        match SemVer_new v with
        | Ok x => Some x
        | Throw _ => None
        end
    end.

Definition component_length_ok (d : string) : bool :=
  (Nat.leb 1 (String.length d)
   && Nat.leb (String.length d) MAX_SAFE_COMPONENT_LENGTH)%bool.

(** The leftmost match of the first two groups of [COERCE] (the start or a
    character that is not a digit, then 1 to 16 digits): the first run of digits, at most 16 long, that
    no digit precedes and none follows. [boundary] says that the previous
    character is not a digit. The result is the run and what follows it. *)
Fixpoint coerce_major (s : string) (boundary : bool) : option (string * string) :=
  match s with
  | EmptyString => None
  | String c t =>
      if is_digit c then
        if boundary then
          let '(d, r) := span_digits s in
          if component_length_ok d then Some (d, r) else coerce_major t false
        else coerce_major t false
      else coerce_major t true
  end.

(** One optional group of [COERCE] at [r], a dot and 1 to 16 digits; the
    match must end before a character that is not a digit. *)
Definition coerce_component (r : string) : option string * string :=
  match r with
  | String c t =>
      if Ascii.eqb c "." then
        let '(d, r') := span_digits t in
        if component_length_ok d then (Some d, r') else (None, r)
      else (None, r)
  | EmptyString => (None, r)
  end.

(** The groups 2, 3 and 4 of the match of [COERCE] in [s]. *)
Definition coerce_match (s : string) : option (string * option string * option string) :=
  match coerce_major s true with
  | None => None
  | Some (g2, r1) =>
      match coerce_component r1 with
      | (Some g3, r2) => Some (g2, Some g3, fst (coerce_component r2))
      | (None, _) => Some (g2, None, None)
      end
  end.

Definition or_zero (g : option string) : string :=
  match g with
  | Some d => d
  | None => "0"
  end.

(** [semver.coerce(version)] of a string, left to right. *)
Definition coerce (v : string) : option SemVer :=
  match coerce_match v with
  | None => None
  | Some (g2, g3, g4) => parse (g2 +:+ "." +:+ or_zero g3 +:+ "." +:+ or_zero g4)
  end.

End Semver.

(** ** The [path] module of Node (POSIX), as the engine uses it

    [extname] and [basename] are the loops of Node's implementation, from the
    last character down; indices are as in the code, [-1] for none. *)
Module Path.

Record ExtState : Type := {
  startDot : Z;
  startPart : Z;
  end_ : Z;
  matchedSlash : bool;
  preDotState : Z
}.

(** The loop of [extname] over the characters from [i] down ([rchars] is the
    path reversed, from index [i]). *)
Fixpoint extname_loop (rchars : list ascii) (i : Z) (st : ExtState) : ExtState :=
  match rchars with
  | [] => st
  | code :: rest =>
      if Ascii.eqb code "/" then
        if negb (matchedSlash st)
        then {| startDot := startDot st; startPart := i + 1; end_ := end_ st;
                matchedSlash := matchedSlash st; preDotState := preDotState st |}
        else extname_loop rest (i - 1) st
      else
        let st1 :=
          if end_ st =? -1
          then {| startDot := startDot st; startPart := startPart st; end_ := i + 1;
                  matchedSlash := false; preDotState := preDotState st |}
          else st in
        let st2 :=
          if Ascii.eqb code "."
          then
            if startDot st1 =? -1
            then {| startDot := i; startPart := startPart st1; end_ := end_ st1;
                    matchedSlash := matchedSlash st1; preDotState := preDotState st1 |}
            else if negb (preDotState st1 =? 1)
            then {| startDot := startDot st1; startPart := startPart st1;
                    end_ := end_ st1; matchedSlash := matchedSlash st1;
                    preDotState := 1 |}
            else st1
          else if negb (startDot st1 =? -1)
          then {| startDot := startDot st1; startPart := startPart st1;
                  end_ := end_ st1; matchedSlash := matchedSlash st1;
                  preDotState := -1 |}
          else st1 in
        extname_loop rest (i - 1) st2
  end.

(** [path.extname(path)]. *)
Definition extname (path : string) : string :=
  let st := extname_loop (rev (list_ascii_of_string path))
              (Z.of_nat (String.length path) - 1)
              {| startDot := -1; startPart := 0; end_ := -1;
                 matchedSlash := true; preDotState := 0 |} in
  if ((startDot st =? -1) || (end_ st =? -1) || (preDotState st =? 0)
      || ((preDotState st =? 1) && (startDot st =? end_ st - 1)
          && (startDot st =? startPart st + 1)))%bool
  then ""
  else slice path (startDot st) (end_ st).

Record BaseState : Type := {
  start : Z;
  bend : Z;
  bmatchedSlash : bool;
  extIdx : Z;
  firstNonSlashEnd : Z
}.

Definition charCodeAt (s : string) (i : Z) : option ascii :=
  if i <? 0 then None else String.get (Z.to_nat i) s.

(** The loop of [basename] when a suffix is given. *)
Fixpoint basename_ext_loop (ext : string) (rchars : list ascii) (i : Z)
    (st : BaseState) : BaseState :=
  match rchars with
  | [] => st
  | code :: rest =>
      if Ascii.eqb code "/" then
        if negb (bmatchedSlash st)
        then {| start := i + 1; bend := bend st; bmatchedSlash := bmatchedSlash st;
                extIdx := extIdx st; firstNonSlashEnd := firstNonSlashEnd st |}
        else basename_ext_loop ext rest (i - 1) st
      else
        let st1 :=
          if firstNonSlashEnd st =? -1
          then {| start := start st; bend := bend st; bmatchedSlash := false;
                  extIdx := extIdx st; firstNonSlashEnd := i + 1 |}
          else st in
        let st2 :=
          if 0 <=? extIdx st1 then
            if match charCodeAt ext (extIdx st1) with
               | Some c => Ascii.eqb code c
               | None => false
               end
            then
              if extIdx st1 - 1 =? -1
              then {| start := start st1; bend := i; bmatchedSlash := bmatchedSlash st1;
                      extIdx := extIdx st1 - 1;
                      firstNonSlashEnd := firstNonSlashEnd st1 |}
              else {| start := start st1; bend := bend st1;
                      bmatchedSlash := bmatchedSlash st1; extIdx := extIdx st1 - 1;
                      firstNonSlashEnd := firstNonSlashEnd st1 |}
            else {| start := start st1; bend := firstNonSlashEnd st1;
                    bmatchedSlash := bmatchedSlash st1; extIdx := -1;
                    firstNonSlashEnd := firstNonSlashEnd st1 |}
          else st1 in
        basename_ext_loop ext rest (i - 1) st2
  end.

(** The loop of [basename] without a suffix. *)
Fixpoint basename_loop (rchars : list ascii) (i : Z) (st : BaseState) : BaseState :=
  match rchars with
  | [] => st
  | code :: rest =>
      if Ascii.eqb code "/" then
        if negb (bmatchedSlash st)
        then {| start := i + 1; bend := bend st; bmatchedSlash := bmatchedSlash st;
                extIdx := extIdx st; firstNonSlashEnd := firstNonSlashEnd st |}
        else basename_loop rest (i - 1) st
      else if bend st =? -1
      then basename_loop rest (i - 1)
             {| start := start st; bend := i + 1; bmatchedSlash := false;
                extIdx := extIdx st; firstNonSlashEnd := firstNonSlashEnd st |}
      else basename_loop rest (i - 1) st
  end.

(** [path.basename(path, ext)]. *)
Definition basename (path ext : string) : string :=
  let len := Z.of_nat (String.length path) in
  let elen := Z.of_nat (String.length ext) in
  let rchars := rev (list_ascii_of_string path) in
  if ((0 <? elen) && (elen <=? len))%bool then
    if String.eqb ext path then ""
    else
      let st := basename_ext_loop ext rchars (len - 1)
                  {| start := 0; bend := -1; bmatchedSlash := true;
                     extIdx := elen - 1; firstNonSlashEnd := -1 |} in
      let e := if start st =? bend st then firstNonSlashEnd st
               else if bend st =? -1 then len
               else bend st in
      slice path (start st) e
  else
    let st := basename_loop rchars (len - 1)
                {| start := 0; bend := -1; bmatchedSlash := true;
                   extIdx := -1; firstNonSlashEnd := -1 |} in
    if bend st =? -1 then "" else slice path (start st) (bend st).

End Path.

(** ** Data of the engine *)

(** One element of [files]: what the callback of [filenames.map] returns. *)
Record MigrationFile : Type := {
  filename : string;
  path : string;
  version : string;
  description : string
}.

(** A document of the [fireway] collection, as [migrate] writes it.
    [installed_on] is a time in milliseconds. *)
Record HistoryRecord : Type := {
  installed_rank : Z;
  hr_description : string;
  hr_version : string;
  script : string;
  type : string;
  checksum : string;
  installed_by : string;
  installed_on : Z;
  execution_time : Z;
  success : bool
}.

(** The [stats] object of one call of [migrate]; [frozen] is the property
    that [migrate] sets and deletes around its own write. *)
Record Stats : Type := {
  scannedFiles : Z;
  executedFiles : Z;
  created : Z;
  set : Z;
  updated : Z;
  deleted : Z;
  added : Z;
  frozen : bool
}.

(** Values that a script may throw or reject with. *)
Inductive JsValue : Type :=
| JsUndefined
| JsNull
| JsBoolean (b : bool)
| JsNumber (z : Z)
| JsString (s : string)
| JsError (message : string).

(** [if (v)]. *)
Definition truthy (v : JsValue) : bool :=
  match v with
  | JsUndefined | JsNull => false
  | JsBoolean b => b
  | JsNumber z => negb (z =? 0)
  | JsString s => negb (String.eqb s "")
  | JsError _ => true
  end.

(** How [console.log] prints a value. *)
Definition show (v : JsValue) : string :=
  match v with
  | JsUndefined => "undefined"
  | JsNull => "null"
  | JsBoolean true => "true"
  | JsBoolean false => "false"
  | JsNumber z => string_of_Z z
  | JsString s => s
  | JsError m => "Error: " +:+ m
  end.

(** A user document: its JSON text, and whether it carries the
    [skipWriteBatch] symbol. *)
Record Doc : Type := {
  doc_json : string;
  skipWriteBatch : bool
}.

(** The data of a write: a document of a migration, or the record that the
    engine writes to the [fireway] collection. *)
Inductive Payload : Type :=
| UserDoc (d : Doc)
| RecordDoc (r : HistoryRecord).

(** One write of a [WriteBatch], as the client sends it. *)
Inductive WriteOp : Type :=
| OpCreate (ref : string) (d : Payload)
| OpSet (ref : string) (d : Payload) (merge : bool)
| OpUpdate (ref : string) (d : Payload)
| OpDelete (ref : string).

(** The methods that [mitm] wraps. *)
Inductive Method : Type :=
| MCreate
| MSet
| MUpdate
| MDelete
| MAdd.

(** The [arguments] of a wrapped call: [ref] (the path of the reference, or
    of the collection for [add]), the document when there is one, and
    [opts.merge]. *)
Record Args : Type := {
  a_ref : string;
  a_doc : option Payload;
  a_merge : bool
}.

(** An entry of [statsMap]: [{dryrun, log}]; [log] prints when [debug]. *)
Record RunConfig : Type := {
  dryrun : bool;
  log_debug : bool
}.

(** A closure of [_fireway_queue]: the wrapped method, its arguments, and
    the [stats] and [log] it captured. *)
Record Pending : Type := {
  p_method : Method;
  p_args : Args;
  p_stats : nat;
  p_log : bool
}.

(** A [WriteBatch]: the [_fireway_stats] of its [_firestore], its writes,
    and its [_fireway_queue]. *)
Record WriteBatch : Type := {
  wb_fireway_stats : option nat;
  wb_ops : list WriteOp;
  fireway_queue : list Pending
}.

Inductive Channel : Type :=
| ConsoleLog
| ConsoleWarn
| ConsoleError.

(** What the run did, in order (ghost state): an entry point was called, the
    backend committed writes. *)
Inductive Event : Type :=
| EvRun (file : string)
| EvCommit (ops : list WriteOp).

(** The process and the database.
    - [proxied], [statsMap]: the variables of the module; the keys of
      [statsMap] are the addresses of stats objects;
    - [heap]: the [stats] objects, by address;
    - [history]: the documents of the [fireway] collection, by path;
    - [docs]: the JSON text of the other documents, by path;
    - [console]: the lines printed; [clock]: the time. *)
Record World : Type := {
  proxied : bool;
  statsMap : gmap nat RunConfig;
  heap : list Stats;
  history : list (string * HistoryRecord);
  docs : gmap string string;
  console : list (Channel * list string);
  clock : Z;
  events : list Event
}.

(** ** The state and exception monad of the engine *)

Inductive Outcome (A : Type) : Type :=
| Done (a : A)
| Thrown (e : string)
| Blocked.
Arguments Done {A} a.
Arguments Thrown {A} e.
Arguments Blocked {A}.

Definition M (A : Type) : Type := World -> Outcome A * World.

Definition ret {A} (a : A) : M A := fun w => (Done a, w).

Definition bind {A B} (m : M A) (k : A -> M B) : M B :=
  fun w =>
    match m w with
    | (Done a, w') => k a w'
    | (Thrown e, w') => (Thrown e, w')
    | (Blocked, w') => (Blocked, w')
    end.

Definition throw {A} (e : string) : M A := fun w => (Thrown e, w).

Definition block {A} : M A := fun w => (Blocked, w).

Definition get : M World := fun w => (Done w, w).

Definition modify (f : World -> World) : M unit := fun w => (Done tt, f w).

Definition lift {A} (r : Result A) : M A :=
  match r with
  | Ok a => ret a
  | Throw e => throw e
  end.

Notation "'let*' x ':=' m 'in' k" := (bind m (fun x => k))
  (at level 10, x pattern, m at level 200, k at level 200).
Notation "m '>>' k" := (bind m (fun _ => k))
  (at level 100, k at level 200, right associativity).

Definition set_console (c : list (Channel * list string)) (w : World) : World :=
  {| proxied := proxied w; statsMap := statsMap w; heap := heap w;
     history := history w; docs := docs w; console := c; clock := clock w;
     events := events w |}.

Definition set_heap (h : list Stats) (w : World) : World :=
  {| proxied := proxied w; statsMap := statsMap w; heap := h;
     history := history w; docs := docs w; console := console w; clock := clock w;
     events := events w |}.

Definition set_statsMap (m : gmap nat RunConfig) (w : World) : World :=
  {| proxied := proxied w; statsMap := m; heap := heap w;
     history := history w; docs := docs w; console := console w; clock := clock w;
     events := events w |}.

Definition set_proxied (b : bool) (w : World) : World :=
  {| proxied := b; statsMap := statsMap w; heap := heap w;
     history := history w; docs := docs w; console := console w; clock := clock w;
     events := events w |}.

Definition set_store (h : list (string * HistoryRecord)) (d : gmap string string)
    (w : World) : World :=
  {| proxied := proxied w; statsMap := statsMap w; heap := heap w;
     history := h; docs := d; console := console w; clock := clock w;
     events := events w |}.

Definition set_clock (t : Z) (w : World) : World :=
  {| proxied := proxied w; statsMap := statsMap w; heap := heap w;
     history := history w; docs := docs w; console := console w; clock := t;
     events := events w |}.

Definition add_event (e : Event) (w : World) : World :=
  {| proxied := proxied w; statsMap := statsMap w; heap := heap w;
     history := history w; docs := docs w; console := console w; clock := clock w;
     events := events w ++ [e] |}.

Definition print (ch : Channel) (line : list string) : M unit :=
  modify (fun w => set_console (console w ++ [(ch, line)]) w).

(** [log]: [debug && console.log.apply(console, arguments)]. *)
Definition log (debug : bool) (line : list string) : M unit :=
  if debug then print ConsoleLog line else ret tt.

(** ** What the engine is given *)

Record DirEntry : Type := {
  d_name : string;
  isDirectory : bool
}.

(** How the entry point of a migration ends: it resolves, rejects (or throws)
    with a value, or never settles. *)
Inductive Settled : Type :=
| Resolved
| Rejected (e : JsValue)
| NeverSettles.

(** The end of one call of an entry point, as [trackAsync] sees it:
    [open_handles] are the source locations in [activeHandles] when the
    entry point has settled, [handles_settle] says whether they all settle
    in the end, [rejection] is the reason that the listeners of
    [unhandledRejection] and [uncaughtException] caught in the window, and
    [duration] is the time that passed. *)
Record Ending : Type := {
  settled : Settled;
  open_handles : list string;
  handles_settle : bool;
  rejection : option JsValue;
  duration : Z
}.

(** The Firestore instance a call goes to: the [firestore] that [migrate]
    hands to the entry point, or one of the script's own, which carries no
    [_fireway_stats]. *)
Inductive Instance : Type :=
| Own
| Foreign.

(** The calls of a migration on the client. A [WriteBatch] is named by its
    rank among the batches the script created. [autoId] is the identifier
    that [add] draws for its new document. *)
Inductive Action : Type :=
| DocCreate (i : Instance) (ref : string) (d : Doc)
| DocSet (i : Instance) (ref : string) (d : Doc) (merge : bool)
| DocUpdate (i : Instance) (ref : string) (d : Doc)
| DocDelete (i : Instance) (ref : string)
| CollectionAdd (i : Instance) (collection autoId : string) (d : Doc)
| NewBatch (i : Instance)
| BatchCreate (b : nat) (ref : string) (d : Doc)
| BatchSet (b : nat) (ref : string) (d : Doc) (merge : bool)
| BatchUpdate (b : nat) (ref : string) (d : Doc)
| BatchDelete (b : nat) (ref : string)
| BatchCommit (b : nat)
| DocGet (ref : string).

(** What a call answers: nothing, the new batch, whether the commit was
    accepted, or the JSON text of a document. *)
Inductive Reply : Type :=
| RUnit
| RBatch (b : nat)
| RCommit (ok : bool)
| RDoc (d : option string).

(** The entry point [migrate] of a migration module: calls on the client,
    each continued by its answer, up to the end. *)
Inductive Script : Type :=
| Finish (e : Ending)
| Do (a : Action) (k : Reply -> Script).

(** The collaborators of the engine.
    - [cwd], [path_isAbsolute], [path_join]: [process.cwd] and [path];
    - [exists_], [readdir], [readFile]: the file system; [readFile] is
      called on a file that [require] has just loaded, and answers;
    - [require]: the module loader, by path;
    - [collaborators]: the credentials and the clients built between the scan
      and the read of the history ([auth.getClient], the impersonation,
      [initializeApp], the secret manager, the search client);
    - [username], [md5], [JSON_stringify], [merge_json]: [os.userInfo], the
      checksum, the JSON text of a record, and how the backend merges the
      text of a document into another;
    - [node_major]: the major version of Node. *)
Record Env : Type := {
  cwd : string;
  path_join : string -> string -> string;
  exists_ : string -> bool;
  readdir : string -> list DirEntry;
  readFile : string -> string;
  require : string -> Result Script;
  collaborators : Result unit;
  username : string;
  md5 : string -> string;
  JSON_stringify : HistoryRecord -> string;
  merge_json : string -> string -> string;
  node_major : Z
}.

(** The arguments of [migrate]. [app_provided] says that [app] was given:
    [app.delete()] at the end of a run changes nothing of the [World]. *)
Record Options : Type := {
  app_provided : bool;
  dir : string;
  projectId : string;
  opt_dryrun : bool;
  debug : bool;
  req : option string;
  forceWait : bool
}.

(** [path.isAbsolute(p)] on POSIX. *)
Definition path_isAbsolute (p : string) : bool :=
  match p with
  | String c _ => Ascii.eqb c "/"
  | EmptyString => false
  end.

Section Engine.

Variable env : Env.

(** ** The scan of the directory: the callback of [filenames.map] *)

(** [if (description)]: the second piece exists and is not empty. *)
Definition present (description : option string) : bool :=
  match description with
  | Some d => negb (String.eqb d "")
  | None => false
  end.

Definition first_is_dot (filename : string) : bool :=
  match filename with
  | String c _ => Ascii.eqb c "."
  | EmptyString => false
  end.

(** One call of the callback: [None] for a file that is skipped ([filter]
    drops it), with [versionToFile] as the call leaves it. *)
Definition parse_filename (dbg : bool) (directory : string)
    (versionToFile : gmap string string) (filename : string)
  : M (option MigrationFile * gmap string string) :=
  if first_is_dot filename then ret (None, versionToFile)
  else
    let pieces := split_dunder filename in
    let filenameVersion := nth 0 pieces "" in
    let description := nth_error pieces 1 in
    match Semver.coerce filenameVersion with
    | None =>
        (if present description
         then log dbg ["WARNING: " +:+ filename +:+ " doesn't have a valid semver version"]
         else ret tt) >>
        ret (None, versionToFile)
    | Some coerced =>
        if negb (present description)
        then throw ("This filename doesn't match the required format: " +:+ filename)
        else
          let version := Semver.version coerced in
          match versionToFile !! version with
          | Some existingFile =>
              if negb (String.eqb existingFile "")
              then throw ("Both " +:+ filename +:+ " and " +:+ existingFile
                          +:+ " have the same version")
              else
                ret (Some {| filename := filename;
                             path := path_join env directory filename;
                             version := version;
                             description :=
                               Path.basename (default "" description)
                                 (Path.extname (default "" description)) |},
                     <[version := filename]> versionToFile)
          | None =>
              ret (Some {| filename := filename;
                           path := path_join env directory filename;
                           version := version;
                           description :=
                             Path.basename (default "" description)
                               (Path.extname (default "" description)) |},
                   <[version := filename]> versionToFile)
          end
    end.

(** [filenames.map(...).filter(Boolean)]. *)
Fixpoint parse_filenames (dbg : bool) (directory : string)
    (versionToFile : gmap string string) (filenames : list string)
  : M (list MigrationFile) :=
  match filenames with
  | [] => ret []
  | filename :: rest =>
      let* (file, versionToFile') :=
        parse_filename dbg directory versionToFile filename in
      let* files := parse_filenames dbg directory versionToFile' rest in
      ret (match file with
           | Some f => f :: files
           | None => files
           end)
  end.

(** ** The stats objects and [statsMap] *)

Definition with_counters (st : Stats) (c s u d a : Z) : Stats :=
  {| scannedFiles := scannedFiles st; executedFiles := executedFiles st;
     created := c; set := s; updated := u; deleted := d; added := a;
     frozen := frozen st |}.

Definition with_frozen (b : bool) (st : Stats) : Stats :=
  {| scannedFiles := scannedFiles st; executedFiles := executedFiles st;
     created := created st; set := set st; updated := updated st;
     deleted := deleted st; added := added st; frozen := b |}.

Definition with_scannedFiles (n : Z) (st : Stats) : Stats :=
  {| scannedFiles := n; executedFiles := executedFiles st;
     created := created st; set := set st; updated := updated st;
     deleted := deleted st; added := added st; frozen := frozen st |}.

Definition with_executedFiles (n : Z) (st : Stats) : Stats :=
  {| scannedFiles := scannedFiles st; executedFiles := n;
     created := created st; set := set st; updated := updated st;
     deleted := deleted st; added := added st; frozen := frozen st |}.

(** [stats.<counter> += 1] of the callback given to [mitm] for [m]. *)
Definition bump (m : Method) (st : Stats) : Stats :=
  match m with
  | MCreate =>
      with_counters st (created st + 1) (set st) (updated st) (deleted st) (added st)
  | MSet =>
      with_counters st (created st) (set st + 1) (updated st) (deleted st) (added st)
  | MUpdate =>
      with_counters st (created st) (set st) (updated st + 1) (deleted st) (added st)
  | MDelete =>
      with_counters st (created st) (set st) (updated st) (deleted st + 1) (added st)
  | MAdd =>
      with_counters st (created st) (set st) (updated st) (deleted st) (added st + 1)
  end.

(** An assignment to a property of the stats object at [stats]. *)
Definition update_stats (stats : nat) (f : Stats -> Stats) : M unit :=
  modify (fun w =>
    match heap w !! stats with
    | Some st => set_heap (<[stats := f st]> (heap w)) w
    | None => w
    end).

(** The entry of [statsMap] whose key is the [_fireway_stats] of a Firestore
    instance: the one entry, if any, for which the loops over
    [statsMap.entries()] find [this._firestore._fireway_stats === stats]
    (the keys of a [Map] are unique). *)
Definition owner (m : gmap nat RunConfig) (tag : option nat) : option (nat * RunConfig) :=
  match tag with
  | Some stats =>
      match m !! stats with
      | Some cfg => Some (stats, cfg)
      | None => None
      end
  | None => None
  end.

(** ** The write interceptor *)

(** [JSON.stringify(doc)]; the symbol of a document is not printed. *)
Definition stringify (doc : option Payload) : string :=
  match doc with
  | Some (UserDoc d) => doc_json d
  | Some (RecordDoc r) => JSON_stringify env r
  | None => "undefined"
  end.

(** The arguments of [log] in the callback given to [mitm] for [m]. *)
Definition log_line (m : Method) (args : Args) : list string :=
  match m with
  | MCreate => ["Creating"; stringify (a_doc args)]
  | MSet =>
      [if a_merge args then "Merging" else "Setting"; a_ref args;
       stringify (a_doc args)]
  | MUpdate => ["Updating"; a_ref args; stringify (a_doc args)]
  | MDelete => ["Deleting"; a_ref args]
  | MAdd => ["Adding"; stringify (a_doc args)]
  end.

(** [fn.call(this, args, (stats.frozen ? {} : stats), log)]: when the stats
    are frozen the counter of a fresh object is incremented; [log] is called
    in both cases. *)
Definition call_fn (m : Method) (args : Args) (stats : nat) (lg : bool) : M unit :=
  let* w := get in
  (match heap w !! stats with
   | Some st => if frozen st then ret tt else update_stats stats (bump m)
   | None => ret tt
   end) >>
  log lg (log_line m args).

Definition marked (doc : option Payload) : bool :=
  match doc with
  | Some (UserDoc d) => skipWriteBatch d
  | _ => false
  end.

Definition with_mark (b : bool) (args : Args) : Args :=
  {| a_ref := a_ref args;
     a_doc := match a_doc args with
              | Some (UserDoc d) =>
                  Some (UserDoc {| doc_json := doc_json d; skipWriteBatch := b |})
              | o => o
              end;
     a_merge := a_merge args |}.

Definition push_queue (p : Pending) (b : WriteBatch) : WriteBatch :=
  {| wb_fireway_stats := wb_fireway_stats b; wb_ops := wb_ops b;
     fireway_queue := fireway_queue b ++ [p] |}.

(** The loop over [statsMap.entries()] in the function that [mitm] installs,
    when [this] is a [WriteBatch]: a document that carries the symbol loses
    it, any other call is queued. *)
Definition mitm_batch (m : Method) (entries : gmap nat RunConfig)
    (this : WriteBatch) (args : Args) : WriteBatch * Args :=
  match owner entries (wb_fireway_stats this) with
  | Some (stats, cfg) =>
      if marked (a_doc args) then (this, with_mark false args)
      else (push_queue {| p_method := m; p_args := args; p_stats := stats;
                          p_log := log_debug cfg |} this,
            args)
  | None => (this, args)
  end.

(** The method of the client under the wrapper: the write joins the batch.
    The client refuses a write without data, and [add] is no method of a
    batch. *)
Definition original (m : Method) (this : WriteBatch) (args : Args)
  : Result WriteBatch :=
  let queue_op op :=
    Ok {| wb_fireway_stats := wb_fireway_stats this; wb_ops := wb_ops this ++ [op];
          fireway_queue := fireway_queue this |} in
  match m, a_doc args with
  | MCreate, Some d => queue_op (OpCreate (a_ref args) d)
  | MSet, Some d => queue_op (OpSet (a_ref args) d (a_merge args))
  | MUpdate, Some d => queue_op (OpUpdate (a_ref args) d)
  | MDelete, _ => queue_op (OpDelete (a_ref args))
  | _, _ => Throw "Value for argument data is not a valid Firestore document"
  end.

(** [WriteBatch.prototype.create], [set], [update] and [delete]: the
    function of [mitm] once [proxyWritableMethods] has run, the method of
    the client before. *)
Definition WriteBatch_call (m : Method) (this : WriteBatch) (args : Args)
  : M WriteBatch :=
  let* w := get in
  let '(this', args') :=
    if proxied w then mitm_batch m (statsMap w) this args else (this, args) in
  lift (original m this' args').

(** The queue of a batch, emptied from the front. *)
Fixpoint drain (queue : list Pending) : M unit :=
  match queue with
  | [] => ret tt
  | p :: rest =>
      call_fn (p_method p) (p_args p) (p_stats p) (p_log p) >> drain rest
  end.

(** The loop over [statsMap.entries()] in the patched [_commit]: [true] when
    it returns the empty array. *)
Definition commit_suppressed (entries : gmap nat RunConfig) (this : WriteBatch)
  : bool :=
  match owner entries (wb_fireway_stats this) with
  | Some (_, cfg) => dryrun cfg
  | None => false
  end.

(** ** The backend *)

Fixpoint history_set (ref : string) (r : HistoryRecord)
    (h : list (string * HistoryRecord)) : list (string * HistoryRecord) :=
  match h with
  | [] => [(ref, r)]
  | (k, v) :: t =>
      if String.eqb k ref then (k, r) :: t else (k, v) :: history_set ref r t
  end.

Definition history_has (ref : string) (h : list (string * HistoryRecord)) : bool :=
  existsb (fun e => String.eqb (fst e) ref) h.

Definition Store : Type := list (string * HistoryRecord) * gmap string string.

(** One write on the backend: [create] needs a new path, [update] an
    existing one. Records go to the [fireway] collection, the documents of
    the migrations to the others. *)
Definition apply_op (st : Store) (op : WriteOp) : Result Store :=
  let '(h, d) := st in
  match op with
  | OpCreate ref (UserDoc x) =>
      match d !! ref with
      | Some _ => Throw "ALREADY_EXISTS"
      | None => Ok (h, <[ref := doc_json x]> d)
      end
  | OpCreate ref (RecordDoc r) =>
      if history_has ref h then Throw "ALREADY_EXISTS" else Ok (history_set ref r h, d)
  | OpSet ref (UserDoc x) merge =>
      match d !! ref, merge with
      | Some old, true => Ok (h, <[ref := merge_json env old (doc_json x)]> d)
      | _, _ => Ok (h, <[ref := doc_json x]> d)
      end
  | OpSet ref (RecordDoc r) _ => Ok (history_set ref r h, d)
  | OpUpdate ref (UserDoc x) =>
      match d !! ref with
      | Some old => Ok (h, <[ref := merge_json env old (doc_json x)]> d)
      | None => Throw "NOT_FOUND"
      end
  | OpUpdate ref (RecordDoc r) =>
      if history_has ref h then Ok (history_set ref r h, d) else Throw "NOT_FOUND"
  | OpDelete ref => Ok (h, delete ref d)
  end.

Fixpoint apply_ops (st : Store) (ops : list WriteOp) : Result Store :=
  match ops with
  | [] => Ok st
  | op :: rest => rbind (apply_op st op) (fun st' => apply_ops st' rest)
  end.

(** The [_commit] of the client: the writes of the batch are applied
    together or not at all; the answer has one write result per write. *)
Definition ogCommit (this : WriteBatch) : M (list unit) :=
  let* w := get in
  match apply_ops (history w, docs w) (wb_ops this) with
  | Ok (h, d) =>
      modify (fun w => add_event (EvCommit (wb_ops this)) (set_store h d w)) >>
      ret (map (fun _ => tt) (wb_ops this))
  | Throw e => throw e
  end.

(** [WriteBatch.prototype._commit] as [proxyWritableMethods] patches it. *)
Definition _commit (this : WriteBatch) : M (list unit) :=
  let* w := get in
  if proxied w then
    drain (fireway_queue this) >>
    let* w' := get in
    if commit_suppressed (statsMap w') this then ret []
    else ogCommit this
  else ogCommit this.

Definition new_WriteBatch (tag : option nat) : WriteBatch :=
  {| wb_fireway_stats := tag; wb_ops := []; fireway_queue := [] |}.

(** [DocumentReference.prototype.create], [set], [update] and [delete] of
    the client: a batch of one write, committed. *)
Definition DocumentReference_call (m : Method) (tag : option nat) (args : Args)
  : M (list unit) :=
  let* b := WriteBatch_call m (new_WriteBatch tag) args in
  _commit b.

(** The loop over [statsMap.entries()] in the function that [mitm] installs
    on [CollectionReference.prototype.add]: the callback marks the document
    and counts. *)
Definition mitm_add (entries : gmap nat RunConfig) (tag : option nat) (args : Args)
  : M Args :=
  match owner entries tag with
  | Some (stats, cfg) =>
      call_fn MAdd (with_mark true args) stats (log_debug cfg) >>
      ret (with_mark true args)
  | None => ret args
  end.

(** [CollectionReference.prototype.add]: under the wrapper, the client
    creates the document at a new identifier. *)
Definition CollectionReference_add (tag : option nat) (collection autoId : string)
    (d : Doc) : M (list unit) :=
  let* w := get in
  let args := {| a_ref := collection; a_doc := Some (UserDoc d); a_merge := false |} in
  let* args' := (if proxied w then mitm_add (statsMap w) tag args else ret args) in
  DocumentReference_call MCreate tag
    {| a_ref := collection +:+ "/" +:+ autoId; a_doc := a_doc args';
       a_merge := false |}.

(** [proxyWritableMethods()]. *)
Definition proxyWritableMethods : M unit :=
  let* w := get in
  if proxied w then ret tt else modify (set_proxied true).

(** ** A migration at work *)

(** [try { m } catch (e) { h(e) }]. *)
Definition catch {A} (m : M A) (h : string -> M A) : M A :=
  fun w =>
    match m w with
    | (Thrown e, w') => h e w'
    | r => r
    end.

Definition tag_of (own : nat) (i : Instance) : option nat :=
  match i with
  | Own => Some own
  | Foreign => None
  end.

(** A call on a document reference, awaited: the script learns whether the
    commit was accepted. *)
Definition awaited (m : M (list unit)) : M Reply :=
  catch (m >> ret (RCommit true)) (fun _ => ret (RCommit false)).

Definition doc_args (ref : string) (d : option Doc) (merge : bool) : Args :=
  {| a_ref := ref; a_doc := option_map UserDoc d; a_merge := merge |}.

Definition clear_queue (b : WriteBatch) : WriteBatch :=
  {| wb_fireway_stats := wb_fireway_stats b; wb_ops := wb_ops b;
     fireway_queue := [] |}.

(** A call on a batch of the script; a name that is no batch of the script
    makes no call. A call that the client refuses leaves the batch as the
    wrapper left it: the wrapper runs first. *)
Definition batch_call (m : Method) (batches : list WriteBatch) (b : nat) (args : Args)
  : M (Reply * list WriteBatch) :=
  match batches !! b with
  | Some this =>
      let* w := get in
      let '(this', args') :=
        if proxied w then mitm_batch m (statsMap w) this args else (this, args) in
      match original m this' args' with
      | Ok this'' => ret (RUnit, <[b := this'']> batches)
      | Throw _ => ret (RUnit, <[b := this']> batches)
      end
  | None => ret (RUnit, batches)
  end.

(** One call of the script, with the batches it has created so far. *)
Definition perform (own : nat) (a : Action) (batches : list WriteBatch)
  : M (Reply * list WriteBatch) :=
  match a with
  | DocCreate i ref d =>
      let* r := awaited (DocumentReference_call MCreate (tag_of own i)
                           (doc_args ref (Some d) false)) in
      ret (r, batches)
  | DocSet i ref d merge =>
      let* r := awaited (DocumentReference_call MSet (tag_of own i)
                           (doc_args ref (Some d) merge)) in
      ret (r, batches)
  | DocUpdate i ref d =>
      let* r := awaited (DocumentReference_call MUpdate (tag_of own i)
                           (doc_args ref (Some d) false)) in
      ret (r, batches)
  | DocDelete i ref =>
      let* r := awaited (DocumentReference_call MDelete (tag_of own i)
                           (doc_args ref None false)) in
      ret (r, batches)
  | CollectionAdd i collection autoId d =>
      let* r := awaited (CollectionReference_add (tag_of own i) collection autoId d) in
      ret (r, batches)
  | NewBatch i =>
      ret (RBatch (List.length batches), (batches ++ [new_WriteBatch (tag_of own i)])%list)
  | BatchCreate b ref d => batch_call MCreate batches b (doc_args ref (Some d) false)
  | BatchSet b ref d merge => batch_call MSet batches b (doc_args ref (Some d) merge)
  | BatchUpdate b ref d => batch_call MUpdate batches b (doc_args ref (Some d) false)
  | BatchDelete b ref => batch_call MDelete batches b (doc_args ref None false)
  | BatchCommit b =>
      match batches !! b with
      | Some this =>
          let* r := awaited (_commit this) in
          let* w := get in
          ret (r, <[b := if proxied w then clear_queue this else this]> batches)
      | None => ret (RUnit, batches)
      end
  | DocGet ref =>
      let* w := get in
      ret (RDoc (docs w !! ref), batches)
  end.

(** [migration.migrate({firestore, ...})], to its end. *)
Fixpoint run_script (own : nat) (s : Script) (batches : list WriteBatch) : M Ending :=
  match s with
  | Finish e => ret e
  | Do a k =>
      let* (r, batches') := perform own a batches in
      run_script own (k r) batches'
  end.

(** ** [trackAsync] *)

(** [handleCheck()]: with handles open, [forceWait] logs once and waits for
    all of them; without it, Node 12 and later warn. *)
Definition handleCheck (lg : bool) (fw : bool) (e : Ending) : M unit :=
  match open_handles e with
  | [] => ret tt
  | handles =>
      if fw then
        log lg ["Waiting for async calls to resolve"] >>
        (if handles_settle e then ret tt else block)
      else if 12 <=? node_major env then
        print ConsoleWarn
          ("WARNING: fireway detected open async calls. Use --forceWait if you want to wait:"
           :: handles)
      else ret tt
  end.

(** [trackAsync({log, file, forceWait}, fn)]; [fn] answers with its result
    and with what the hooks and the listeners saw. *)
Definition trackAsync (lg : bool) (file : MigrationFile) (fw : bool)
    (fn : M (bool * Ending)) : M bool :=
  catch
    (let* (res, e) := fn in
     handleCheck lg fw e >>
     match rejection e with
     | Some reason =>
         if truthy reason
         then log lg ["Error in " +:+ filename file; show reason] >> ret false
         else ret res
     | None => ret res
     end)
    (fun e => log lg [e] >> ret false).

(** ** [migrate] *)

(** The latest document of the query [orderBy('installed_rank',
    'desc').limit(1)]: the greatest rank, and the greatest path among equal
    ranks. *)
Definition later (x y : string * HistoryRecord) : bool :=
  ((installed_rank (snd y) <? installed_rank (snd x))
   || ((installed_rank (snd x) =? installed_rank (snd y))
       && String.ltb (fst y) (fst x)))%bool.

Fixpoint latest_from (best : option (string * HistoryRecord))
    (h : list (string * HistoryRecord)) : option (string * HistoryRecord) :=
  match h with
  | [] => best
  | x :: t =>
      latest_from (match best with
                   | Some y => if later x y then Some x else Some y
                   | None => Some x
                   end) t
  end.

Definition get_latest (h : list (string * HistoryRecord)) : option HistoryRecord :=
  option_map snd (latest_from None h).

(** [files.filter(file => semver.gt(file.version, latest.version))]. *)
Fixpoint filter_gt (latest_version : string) (files : list MigrationFile)
  : Result (list MigrationFile) :=
  match files with
  | [] => Ok []
  | f :: t =>
      rbind (Semver.gt (version f) latest_version) (fun keep =>
      rbind (filter_gt latest_version t) (fun r =>
      Ok (if keep then f :: r else r)))
  end.

(** [files.sort((f1, f2) => semver.compare(f1.version, f2.version))]: the
    sort of the engine is stable, so the result is what insertion from the
    right gives: [f] goes before the first file that it does not follow. *)
Fixpoint insert_file (f : MigrationFile) (sorted : list MigrationFile)
  : Result (list MigrationFile) :=
  match sorted with
  | [] => Ok [f]
  | g :: t =>
      rbind (Semver.compare (version f) (version g)) (fun c =>
      if c <=? 0 then Ok (f :: g :: t)
      else rbind (insert_file f t) (fun r => Ok (g :: r)))
  end.

Fixpoint sort_files (files : list MigrationFile) : Result (list MigrationFile) :=
  match files with
  | [] => Ok []
  | f :: t => rbind (sort_files t) (insert_file f)
  end.

Definition new_stats : Stats :=
  {| scannedFiles := 0; executedFiles := 0; created := 0; set := 0; updated := 0;
     deleted := 0; added := 0; frozen := false |}.

(** The function given to [trackAsync] in the loop: the entry point is
    called and awaited; the time passes while it runs. *)
Definition call_migration (opts : Options) (stats : nat) (file : MigrationFile)
    (migration : Script) : M (bool * Ending) :=
  modify (add_event (EvRun (filename file))) >>
  let* e := run_script stats migration [] in
  modify (fun w => set_clock (clock w + duration e) w) >>
  match settled e with
  | Resolved => ret (true, e)
  | Rejected err =>
      log (debug opts) ["Error in " +:+ filename file; show err] >>
      ret (false, e)
  | NeverSettles => block
  end.

(** The document that [migrate] writes for [file], and its path:
    [fireway/${installed_rank}-${file.version}-${file.description}]. *)
Definition record_of (file : MigrationFile) (installed_rank start finish : Z)
    (success : bool) : HistoryRecord :=
  {| installed_rank := installed_rank;
     hr_description := description file;
     hr_version := version file;
     script := filename file;
     type := slice (Path.extname (filename file)) 1
               (Z.of_nat (String.length (Path.extname (filename file))));
     checksum := md5 env (readFile env (path file));
     installed_by := username env;
     installed_on := start;
     execution_time := finish - start;
     success := success |}.

Definition record_ref (file : MigrationFile) (installed_rank : Z) : string :=
  "fireway/" +:+ string_of_Z installed_rank +:+ "-" +:+ version file +:+ "-"
  +:+ description file.

(** The write of the record: [collection.doc(id).set({...})] between
    [stats.frozen = true] and [delete stats.frozen]. *)
Definition record_result (stats : nat) (file : MigrationFile) (installed_rank : Z)
    (start finish : Z) (success : bool) : M unit :=
  update_stats stats (with_frozen true) >>
  DocumentReference_call MSet (Some stats)
    {| a_ref := record_ref file installed_rank;
       a_doc := Some (RecordDoc (record_of file installed_rank start finish success));
       a_merge := false |} >>
  update_stats stats (with_frozen false).

(** The body of the loop [for (const file of files)], up to [delete
    stats.frozen]: it answers [success] and the new [installed_rank].
    [start] and [finish] are the times at which the entry point is called
    and settles: the clock moves in between only. *)
Definition run_file (opts : Options) (stats : nat) (file : MigrationFile)
    (installed_rank : Z) : M (bool * Z) :=
  update_stats stats (fun st => with_executedFiles (executedFiles st + 1) st) >>
  log (debug opts) ["Running"; filename file] >>
  let* migration :=
    match require env (path file) with
    | Ok m => ret m
    | Throw e => log (debug opts) [e] >> throw e
    end in
  let* w := get in
  let start := clock w in
  let* success :=
    trackAsync (debug opts) file (forceWait opts)
      (call_migration opts stats file migration) in
  let* w' := get in
  let finish := clock w' in
  log (debug opts) ["Uploading the results for " +:+ filename file] >>
  let installed_rank := installed_rank + 1 in
  record_result stats file installed_rank start finish success >>
  ret (success, installed_rank).

(** The loop [for (const file of files)]: it stops at the first file whose
    [success] is false. *)
Fixpoint run_files (opts : Options) (stats : nat) (files : list MigrationFile)
    (installed_rank : Z) : M unit :=
  match files with
  | [] => ret tt
  | file :: rest =>
      let* (success, installed_rank') := run_file opts stats file installed_rank in
      if negb success then throw "Stopped at first failure"
      else run_files opts stats rest installed_rank'
  end.

(** [dir], made absolute. *)
Definition directory_of (opts : Options) : string :=
  if path_isAbsolute (dir opts) then dir opts else path_join env (cwd env) (dir opts).

(** [filenames]: the entries of the directory that are no directories. *)
Definition filenames_in (directory : string) : list string :=
  map d_name (List.filter (fun e => negb (isDirectory e)) (readdir env directory)).

(** [if (latest) { files = files.filter(...); installed_rank =
    latest.installed_rank } else { installed_rank = -1 }], then
    [files.sort(...)]: the files to run, in order, and [installed_rank]. *)
Definition pending_files (latest : option HistoryRecord) (files : list MigrationFile)
  : Result (list MigrationFile * Z) :=
  rbind (match latest with
         | Some l =>
             rbind (filter_gt (hr_version l) files) (fun kept =>
             Ok (kept, installed_rank l))
         | None => Ok (files, -1)
         end) (fun '(kept, installed_rank) =>
  rbind (sort_files kept) (fun sorted => Ok (sorted, installed_rank))).

(** [migrate] up to its loop: [require(req)], the stats, the scan, the
    entry of [statsMap], the proxy, the collaborators, the latest record and
    the files to run. It answers the address of the stats, the files in
    order, and [installed_rank]. *)
Definition prepare (opts : Options) : M (nat * list MigrationFile * Z) :=
  let lg := debug opts in
  (match req opts with
   | Some r =>
       match require env r with
       | Ok _ => ret tt
       | Throw e =>
           print ConsoleError [e] >>
           throw ("Trouble executing require('" +:+ r +:+ "');")
       end
   | None => ret tt
   end) >>
  let* w := get in
  let stats := List.length (heap w) in
  modify (fun w => set_heap (heap w ++ [new_stats]) w) >>
  let directory := directory_of opts in
  (if negb (exists_ env directory) then throw ("No directory at " +:+ directory)
   else ret tt) >>
  let filenames := filenames_in directory in
  let* files := parse_filenames lg directory ∅ filenames in
  update_stats stats (with_scannedFiles (Z.of_nat (List.length files))) >>
  log lg ["Found " +:+ string_of_Z (Z.of_nat (List.length files)) +:+ " migration files"] >>
  modify (fun w =>
    set_statsMap (<[stats := {| dryrun := opt_dryrun opts; log_debug := lg |}]>
                    (statsMap w)) w) >>
  (if opt_dryrun opts then log lg ["Making firestore read-only"] else ret tt) >>
  proxyWritableMethods >>
  lift (collaborators env) >>
  let* w := get in
  let latest := get_latest (history w) in
  (match latest with
   | Some l =>
       if negb (success l)
       then throw ("Migration to version " +:+ hr_version l +:+ " using " +:+ script l
                   +:+ " failed! Please restore backups and roll back database and code!")
       else ret tt
   | None => ret tt
   end) >>
  let* (files, installed_rank) := lift (pending_files latest files) in
  log lg ["Executing " +:+ string_of_Z (Z.of_nat (List.length files)) +:+ " migration files"] >>
  ret (stats, files, installed_rank).

(** The end of [migrate], after the loop: the summary, [statsMap.delete(stats)]
    and [return stats]. *)
Definition finish (opts : Options) (stats : nat) : M Stats :=
  let lg := debug opts in
  let* w := get in
  let st := default new_stats (heap w !! stats) in
  log lg ["Finished all firestore migrations"] >>
  log lg ["Files scanned:" +:+ string_of_Z (scannedFiles st) +:+ " executed:"
          +:+ string_of_Z (executedFiles st)] >>
  log lg ["Docs added:" +:+ string_of_Z (added st) +:+ " created:"
          +:+ string_of_Z (created st) +:+ " updated:" +:+ string_of_Z (updated st)
          +:+ " set:" +:+ string_of_Z (set st) +:+ " deleted:"
          +:+ string_of_Z (deleted st)] >>
  modify (fun w => set_statsMap (delete stats (statsMap w)) w) >>
  ret st.

(** [migrate({app, path: dir, projectId, dryrun, debug, require: req,
    forceWait})]. *)
Definition migrate (opts : Options) : M Stats :=
  let* (p, installed_rank) := prepare opts in
  run_files opts (fst p) (snd p) installed_rank >>
  finish opts (fst p).

End Engine.

(** * The hook of [trackAsync] *)

(** The callbacks that [trackAsync] gives to [asyncHooks.createHook], and
    the map [activeHandles] that they keep; what [handleCheck] finds in the
    map when the entry point has settled are the [open_handles] of an
    [Ending]. *)

(** A frame of [callsites()], as the hook reads it: whether
    [call.getFunction()] is a function that carries [dontTrack], and what
    [getFileName], [getLineNumber] and [getColumnNumber] answer ([None] for
    [null] and [undefined]). *)
Record CallSite : Type := {
  cs_dontTrack : bool;
  cs_fileName : option string;
  cs_lineNumber : option Z;
  cs_columnNumber : option Z
}.

(** A number in a template literal. *)
Definition show_number (n : option Z) : string :=
  match n with
  | Some z => string_of_Z z
  | None => "null"
  end.

(** [!name || name == __filename || name.startsWith('internal/') ||
    name.startsWith('timers.js')]. *)
Definition passed_over (self : string) (name : option string) : bool :=
  match name with
  | None => true
  | Some n =>
      (String.eqb n "" || String.eqb n self || String.prefix "internal/" n
       || String.prefix "timers.js" n)%bool
  end.

(** The loop of [init] over [callsites()], for the file at [path]; [self] is
    [__filename]. It answers the value that [activeHandles] gets, if any. *)
Fixpoint init_scan (self path : string) (calls : list CallSite) : option string :=
  match calls with
  | [] => None
  | call :: rest =>
      if cs_dontTrack call then None
      else if passed_over self (cs_fileName call) then init_scan self path rest
      else if String.eqb (default "" (cs_fileName call)) path
      then Some (default "" (cs_fileName call) +:+ ":"
                 +:+ show_number (cs_lineNumber call) +:+ ":"
                 +:+ show_number (cs_columnNumber call))
      else init_scan self path rest
  end.

(** The callbacks of the hook. *)
Inductive HookEvent : Type :=
| HookInit (asyncId : nat) (calls : list CallSite)
| HookBefore (asyncId : nat)
| HookAfter (asyncId : nat)
| HookPromiseResolve (asyncId : nat).

(** [activeHandles], and the identifiers that the emitter has sent with
    ['deleted']. *)
Record Tracker : Type := {
  activeHandles : gmap nat string;
  emitted : list nat
}.

Definition deleteHandle (id : nat) (t : Tracker) : Tracker :=
  match activeHandles t !! id with
  | Some _ =>
      {| activeHandles := delete id (activeHandles t); emitted := emitted t ++ [id] |}
  | None => t
  end.

Definition hook_call (self path : string) (t : Tracker) (ev : HookEvent) : Tracker :=
  match ev with
  | HookInit id calls =>
      match init_scan self path calls with
      | Some where_ =>
          {| activeHandles := <[id := where_]> (activeHandles t); emitted := emitted t |}
      | None => t
      end
  | HookBefore id | HookAfter id | HookPromiseResolve id => deleteHandle id t
  end.

Definition new_Tracker : Tracker := {| activeHandles := ∅; emitted := [] |}.

(** The tracker after the callbacks [evs], from the start of [trackAsync]. *)
Definition tracked (self path : string) (evs : list HookEvent) : Tracker :=
  fold_left (hook_call self path) evs new_Tracker.

(** * Sample directories, migrations and runs *)

Module Sample.

(** A process that has not run [migrate] yet, on an empty database. *)
Definition fresh : World :=
  {| proxied := false; statsMap := ∅; heap := []; history := []; docs := ∅;
     console := []; clock := 0; events := [] |}.

Definition calm : Ending :=
  {| settled := Resolved; open_handles := []; handles_settle := true;
     rejection := None; duration := 5 |}.

Definition boom : Ending :=
  {| settled := Rejected (JsError "boom"); open_handles := [];
     handles_settle := true; rejection := None; duration := 5 |}.

Definition user : Doc := {| doc_json := "{}"; skipWriteBatch := false |}.

(** One create, two sets (one of them merging), one update, one delete and
    one add, on the [firestore] of the run. *)
Definition six_writes : Script :=
  Do (DocCreate Own "a/1" user) (fun _ =>
  Do (DocSet Own "a/2" user false) (fun _ =>
  Do (DocSet Own "a/2" user true) (fun _ =>
  Do (DocUpdate Own "a/1" user) (fun _ =>
  Do (DocDelete Own "a/1") (fun _ =>
  Do (CollectionAdd Own "a" "xyz" user) (fun _ => Finish calm)))))).

(** An entry point that throws. *)
Definition failing : Script := Finish boom.

(** A batch of one [set], committed. *)
Definition one_batch : Script :=
  Do (NewBatch Own) (fun r =>
    match r with
    | RBatch b =>
        Do (BatchSet b "a/1" user false) (fun _ =>
        Do (BatchCommit b) (fun _ => Finish calm))
    | _ => Finish calm
    end).

(** A batch of one [set] that is never committed. *)
Definition idle_batch : Script :=
  Do (NewBatch Own) (fun r =>
    match r with
    | RBatch b => Do (BatchSet b "a/1" user false) (fun _ => Finish calm)
    | _ => Finish calm
    end).

(** A machine whose directories all list the files [names], and whose
    loader answers [load]. *)
Definition machine (names : list string) (load : string -> Result Script) : Env :=
  {| cwd := "/";
     path_join := fun a b => a +:+ "/" +:+ b;
     exists_ := fun _ => true;
     readdir := fun _ => map (fun n => {| d_name := n; isDirectory := false |}) names;
     readFile := fun _ => "content";
     require := load;
     collaborators := Ok tt;
     username := "me";
     md5 := fun s => s;
     JSON_stringify := fun r => "{}";
     merge_json := fun old new => new;
     node_major := 18 |}.

Definition options (dry dbg : bool) : Options :=
  {| app_provided := false; dir := "/m"; projectId := "p"; opt_dryrun := dry;
     debug := dbg; req := None; forceWait := false |}.

(** The first migration fails, the second one would pass. *)
Definition first_fails : Env :=
  machine ["2__b.js"; "1__a.js"]
    (fun p => if String.eqb p "/m/1__a.js" then Ok failing else Ok six_writes).

(** Two migrations that pass. *)
Definition two_pass : Env :=
  machine ["1.1__b.js"; "v1__a.js"] (fun _ => Ok six_writes).

(** One migration, of six writes; of one batch; of one batch never
    committed. *)
Definition one_file (s : Script) : Env := machine ["1__a.js"] (fun _ => Ok s).



(** A record of a migration that failed. *)
Definition failed_record : HistoryRecord :=
  {| installed_rank := 0; hr_description := "a"; hr_version := "1.0.0";
     script := "1__a.js"; type := "js"; checksum := "content"; installed_by := "me";
     installed_on := 0; execution_time := 5; success := false |}.

Definition after_failure : World :=
  {| proxied := false; statsMap := ∅; heap := [];
     history := [("fireway/0-1.0.0-a", failed_record)]; docs := ∅;
     console := []; clock := 0; events := [] |}.

End Sample.

(** * Properties *)

(** ** Characters and strings *)

Lemma is_digit_cases (c : ascii) :
  is_digit c = true ->
  In c ["0"; "1"; "2"; "3"; "4"; "5"; "6"; "7"; "8"; "9"]%char.
Proof.
  destruct c as [[] [] [] [] [] [] [] []]; intros H; cbv in H;
    try discriminate H; simpl; tauto.
Qed.

Lemma string_forall_app (p : ascii -> bool) (a b : string) :
  string_forall p (a +:+ b) = (string_forall p a && string_forall p b)%bool.
Proof.
  induction a as [|c a IH]; simpl; [reflexivity|].
  rewrite IH. now rewrite andb_assoc.
Qed.

Lemma string_forall_impl (p q : ascii -> bool) (s : string) :
  (forall c, p c = true -> q c = true) ->
  string_forall p s = true -> string_forall q s = true.
Proof.
  intros Hpq. induction s as [|c s IH]; simpl; [reflexivity|].
  intros H. apply andb_true_iff in H as [Hc Hs].
  apply andb_true_iff. split; auto.
Qed.

Definition no_char (sep : ascii) (s : string) : bool :=
  string_forall (fun c => negb (Ascii.eqb c sep)) s.

Lemma digits_no_char (sep : ascii) (s : string) :
  is_digit sep = false -> string_forall is_digit s = true -> no_char sep s = true.
Proof.
  intros Hsep. apply string_forall_impl. intros c Hc.
  destruct (Ascii.eqb_spec c sep) as [->|]; [congruence | reflexivity].
Qed.

Lemma break_at_absent (sep : ascii) (s : string) :
  no_char sep s = true -> break_at sep s = (s, None).
Proof.
  unfold no_char. induction s as [|c s IH]; simpl; [reflexivity|].
  intros H. apply andb_true_iff in H as [Hc Hs].
  apply negb_true_iff in Hc. rewrite Hc, (IH Hs). reflexivity.
Qed.

Lemma split_char_absent (sep : ascii) (s : string) :
  no_char sep s = true -> split_char sep s = [s].
Proof.
  unfold no_char. induction s as [|c s IH]; simpl; [reflexivity|].
  intros H. apply andb_true_iff in H as [Hc Hs].
  apply negb_true_iff in Hc. rewrite Hc, (IH Hs). reflexivity.
Qed.

Lemma split_char_app (sep : ascii) (a rest : string) :
  no_char sep a = true ->
  split_char sep (a +:+ String sep rest) = a :: split_char sep rest.
Proof.
  unfold no_char. induction a as [|c a IH]; simpl.
  - intros _. now rewrite Ascii.eqb_refl.
  - intros H. apply andb_true_iff in H as [Hc Hs].
    apply negb_true_iff in Hc. rewrite Hc, (IH Hs). reflexivity.
Qed.

Lemma trim_end_plain (s : string) :
  string_forall (fun c => negb (is_whitespace c)) s = true -> trim_end s = s.
Proof.
  induction s as [|c s IH]; simpl; [reflexivity|].
  intros H. apply andb_true_iff in H as [Hc Hs].
  apply negb_true_iff in Hc. rewrite (IH Hs), Hc. now destruct s.
Qed.

Lemma trim_plain (s : string) :
  string_forall (fun c => negb (is_whitespace c)) s = true -> trim s = s.
Proof.
  intros H. unfold trim.
  assert (Hs : trim_start s = s).
  { destruct s as [|c s]; simpl in *; [reflexivity|].
    apply andb_true_iff in H as [Hc _]. apply negb_true_iff in Hc.
    now rewrite Hc. }
  rewrite Hs. now apply trim_end_plain.
Qed.

Lemma span_digits_digits (s d r : string) :
  span_digits s = (d, r) -> string_forall is_digit d = true.
Proof.
  revert d r. induction s as [|c s IH]; simpl; intros d r H.
  - now inversion H.
  - destruct (is_digit c) eqn:Hc.
    + destruct (span_digits s) as [d' r'] eqn:E. inversion H; subst.
      simpl. rewrite Hc. simpl. eapply IH. reflexivity.
    + now inversion H.
Qed.

(** ** Decimal numerals *)

Lemma string_of_uint_digits (d : Decimal.uint) :
  string_forall is_digit (NilEmpty.string_of_uint d) = true.
Proof. induction d; simpl; auto. Qed.

Lemma to_uint_nonnil (n : N) : N.to_uint n <> Decimal.Nil.
Proof.
  destruct n as [|p]; simpl; [discriminate|].
  apply DecimalPos.Unsigned.to_uint_nonnil.
Qed.

Lemma string_of_N_eq (n : N) :
  string_of_N n = NilEmpty.string_of_uint (N.to_uint n).
Proof.
  unfold string_of_N, NilZero.string_of_uint.
  pose proof (to_uint_nonnil n). now destruct (N.to_uint n).
Qed.

Lemma string_of_N_digits (n : N) : string_forall is_digit (string_of_N n) = true.
Proof. rewrite string_of_N_eq. apply string_of_uint_digits. Qed.

Lemma string_of_uint_nonempty (d : Decimal.uint) :
  d <> Decimal.Nil -> NilEmpty.string_of_uint d <> "".
Proof. destruct d; simpl; congruence. Qed.

Lemma string_of_N_nonempty (n : N) : string_of_N n <> "".
Proof.
  rewrite string_of_N_eq. apply string_of_uint_nonempty, to_uint_nonnil.
Qed.

Lemma digits_value_string_of_N (n : N) : Semver.digits_value (string_of_N n) = n.
Proof.
  unfold Semver.digits_value. rewrite string_of_N_eq, NilEmpty.usu.
  apply DecimalN.Unsigned.of_to.
Qed.

Lemma to_uint_unorm (n : N) : Decimal.unorm (N.to_uint n) = N.to_uint n.
Proof.
  rewrite <- (DecimalN.Unsigned.of_to n) at 2.
  now rewrite DecimalN.Unsigned.to_of.
Qed.

Lemma unorm_fixed_head (d : Decimal.uint) :
  Decimal.unorm d = d ->
  d = Decimal.D0 Decimal.Nil \/ (forall d', d <> Decimal.D0 d').
Proof.
  intros H. destruct d; try (right; intros d'; discriminate).
  unfold Decimal.unorm in H. simpl in H.
  destruct (Decimal.nzhead d) eqn:E; try discriminate H.
  - left. exact (eq_sym H).
  - exfalso. inversion H; subst. now apply (DecimalFacts.nzhead_nonzero d d).
Qed.

Lemma string_of_N_numeric (n : N) : Semver.numeric_identifier (string_of_N n) = true.
Proof.
  pose proof (string_of_N_digits n) as Hd.
  rewrite string_of_N_eq in *.
  destruct (unorm_fixed_head _ (to_uint_unorm n)) as [H|H].
  - rewrite H. reflexivity.
  - pose proof (to_uint_nonnil n) as Hn.
    destruct (N.to_uint n) as [|d|d|d|d|d|d|d|d|d|d]; try congruence;
      try (exfalso; now apply (H d));
      unfold Semver.numeric_identifier; rewrite Hd; reflexivity.
Qed.

Lemma uint_of_string_digits (s : string) :
  string_forall is_digit s = true ->
  exists d, NilEmpty.uint_of_string s = Some d.
Proof.
  induction s as [|c s IH]; simpl; [eauto|].
  intros H. apply andb_true_iff in H as [Hc Hs].
  destruct (IH Hs) as [d Hd]. rewrite Hd.
  apply is_digit_cases in Hc. simpl in Hc.
  repeat (destruct Hc as [<-|Hc]; [simpl; eauto|]). contradiction.
Qed.

Lemma numeric_roundtrip (x : string) :
  Semver.numeric_identifier x = true -> string_of_N (Semver.digits_value x) = x.
Proof.
  unfold Semver.numeric_identifier. destruct x as [|c t]; [discriminate|].
  intros H. apply andb_true_iff in H as [Hd Hz].
  destruct (uint_of_string_digits _ Hd) as [d Hu].
  pose proof (NilEmpty.sus _ _ Hu) as Hs.
  unfold Semver.digits_value. rewrite Hu.
  rewrite string_of_N_eq. unfold N.of_uint.
  rewrite DecimalPos.Unsigned.to_of.
  assert (Hn : Decimal.unorm d = d).
  { apply orb_true_iff in Hz as [Hz|Hz].
    - apply negb_true_iff in Hz.
      destruct d; simpl in Hs; try discriminate Hs; try reflexivity.
      inversion Hs; subst. discriminate Hz.
    - apply String.eqb_eq in Hz. subst t.
      destruct d; simpl in Hs; try discriminate Hs;
        inversion Hs as [[Hc Ht]]; destruct d; try discriminate Ht; reflexivity. }
  now rewrite Hn.
Qed.

(** ** Versions that [coerce] produces *)

Definition digit_string (x : string) : Prop :=
  string_forall is_digit x = true /\ x <> "".

Definition dotted (x y z : string) : string := x +:+ "." +:+ y +:+ "." +:+ z.

Definition plain_char (c : ascii) : bool := (is_digit c || Ascii.eqb c ".")%bool.

Lemma dotted_plain (x y z : string) :
  digit_string x -> digit_string y -> digit_string z ->
  string_forall plain_char (dotted x y z) = true.
Proof.
  intros [Hx _] [Hy _] [Hz _]. unfold dotted.
  assert (Hd : forall s, string_forall is_digit s = true ->
                         string_forall plain_char s = true).
  { intros s. apply string_forall_impl. intros c Hc. unfold plain_char.
    now rewrite Hc. }
  rewrite !string_forall_app. simpl.
  rewrite (Hd _ Hx), (Hd _ Hy), (Hd _ Hz). reflexivity.
Qed.

Lemma plain_no_char (sep : ascii) (s : string) :
  plain_char sep = false -> string_forall plain_char s = true -> no_char sep s = true.
Proof.
  intros Hsep. apply string_forall_impl. intros c Hc.
  destruct (Ascii.eqb_spec c sep) as [->|]; [congruence | reflexivity].
Qed.

Lemma plain_no_whitespace (s : string) :
  string_forall plain_char s = true ->
  string_forall (fun c => negb (is_whitespace c)) s = true.
Proof.
  apply string_forall_impl. intros c Hc. unfold plain_char in Hc.
  apply orb_true_iff in Hc as [Hc|Hc].
  - apply is_digit_cases in Hc. simpl in Hc.
    repeat (destruct Hc as [<-|Hc]; [reflexivity|]). contradiction.
  - apply Ascii.eqb_eq in Hc. now subst c.
Qed.

Lemma split_char_dotted (x y z : string) :
  digit_string x -> digit_string y -> digit_string z ->
  split_char "." (dotted x y z) = [x; y; z].
Proof.
  intros [Hx _] [Hy _] [Hz _]. unfold dotted.
  change ("." +:+ y +:+ "." +:+ z) with (String "."%char (y +:+ String "."%char z)).
  rewrite split_char_app by (now apply digits_no_char).
  rewrite split_char_app by (now apply digits_no_char).
  rewrite split_char_absent by (now apply digits_no_char).
  reflexivity.
Qed.

Lemma full_match_dotted (x y z : string) :
  digit_string x -> digit_string y -> digit_string z ->
  Semver.full_match (dotted x y z) =
  if (Semver.numeric_identifier x && Semver.numeric_identifier y
      && Semver.numeric_identifier z)%bool
  then Some {| Semver.m1 := x; Semver.m2 := y; Semver.m3 := z;
               Semver.m4 := None; Semver.m5 := None |}
  else None.
Proof.
  intros Hx Hy Hz. unfold Semver.full_match.
  pose proof (dotted_plain x y z Hx Hy Hz) as Hp.
  assert (Hv : match dotted x y z with
               | String c t => if Ascii.eqb c "v" then t else dotted x y z
               | EmptyString => dotted x y z
               end = dotted x y z).
  { destruct Hx as [Hx Hne]. unfold dotted.
    destruct x as [|c x]; [congruence|]. simpl in *.
    apply andb_true_iff in Hx as [Hc _].
    destruct (Ascii.eqb_spec c "v") as [->|]; [discriminate Hc | reflexivity]. }
  rewrite Hv.
  rewrite (break_at_absent "+") by (now apply plain_no_char).
  rewrite (break_at_absent "-") by (now apply plain_no_char).
  rewrite split_char_dotted by assumption.
  now rewrite !andb_true_r.
Qed.

Lemma SemVer_new_dotted (x y z : string) :
  digit_string x -> digit_string y -> digit_string z ->
  Semver.SemVer_new (dotted x y z) =
  if Nat.ltb Semver.MAX_LENGTH (String.length (dotted x y z))
  then Throw "version is longer than 256 characters"
  else if (Semver.numeric_identifier x && Semver.numeric_identifier y
           && Semver.numeric_identifier z)%bool
  then
    if (Semver.MAX_SAFE_INTEGER <? Semver.digits_value x)%N
    then Throw "Invalid major version"
    else if (Semver.MAX_SAFE_INTEGER <? Semver.digits_value y)%N
    then Throw "Invalid minor version"
    else if (Semver.MAX_SAFE_INTEGER <? Semver.digits_value z)%N
    then Throw "Invalid patch version"
    else Ok {| Semver.major := Semver.digits_value x;
               Semver.minor := Semver.digits_value y;
               Semver.patch := Semver.digits_value z;
               Semver.prerelease := [];
               Semver.build := [] |}
  else Throw ("Invalid Version: " +:+ dotted x y z).
Proof.
  intros Hx Hy Hz. unfold Semver.SemVer_new.
  rewrite trim_plain by (apply plain_no_whitespace; now apply dotted_plain).
  rewrite full_match_dotted by assumption.
  destruct (Nat.ltb _ _); [reflexivity|].
  destruct (_ && _ && _)%bool; reflexivity.
Qed.

(** A version without pre-release or build identifiers, within the safe
    integers. *)
Definition plain_version (c : Semver.SemVer) : Prop :=
  Semver.prerelease c = [] /\ Semver.build c = []
  /\ (Semver.major c <= Semver.MAX_SAFE_INTEGER)%N
  /\ (Semver.minor c <= Semver.MAX_SAFE_INTEGER)%N
  /\ (Semver.patch c <= Semver.MAX_SAFE_INTEGER)%N.

(** [v] is the text of the plain version [c], and reads back as [c]. *)
Definition canonical (v : string) (c : Semver.SemVer) : Prop :=
  plain_version c /\ v = Semver.version c /\ Semver.SemVer_new v = Ok c.

Lemma append_empty_r (s : string) : s +:+ "" = s.
Proof.
  induction s as [|c s IH]; [reflexivity|].
  change (String c (s +:+ "") = String c s). now f_equal.
Qed.

Lemma coerce_major_digits (s : string) (boundary : bool) (d r : string) :
  Semver.coerce_major s boundary = Some (d, r) -> digit_string d.
Proof.
  revert boundary. induction s as [|c s IH]; intros boundary; [discriminate|].
  cbn [Semver.coerce_major].
  destruct (is_digit c) eqn:Hc; [|apply IH].
  destruct boundary; [|apply IH].
  destruct (span_digits (String c s)) as [d' r'] eqn:E.
  destruct (Semver.component_length_ok d') eqn:Hl; [|apply IH].
  intros H. inversion H; subst. split.
  - eapply span_digits_digits; eassumption.
  - intros ->. discriminate Hl.
Qed.

Lemma coerce_component_digits (r : string) (d r' : string) :
  Semver.coerce_component r = (Some d, r') -> digit_string d.
Proof.
  unfold Semver.coerce_component. destruct r as [|c t]; [discriminate|].
  destruct (Ascii.eqb c "."); [|discriminate].
  destruct (span_digits t) as [d' r''] eqn:E.
  destruct (Semver.component_length_ok d') eqn:Hl; [|discriminate].
  intros H. inversion H; subst. split.
  - eapply span_digits_digits; eassumption.
  - intros ->. discriminate Hl.
Qed.

Lemma or_zero_digits (g : option string) :
  (forall d, g = Some d -> digit_string d) -> digit_string (Semver.or_zero g).
Proof.
  destruct g as [d|]; simpl; intros H; [now apply H|].
  split; [reflexivity | discriminate].
Qed.

Lemma coerce_match_digits (s g2 : string) (g3 g4 : option string) :
  Semver.coerce_match s = Some (g2, g3, g4) ->
  digit_string g2 /\ digit_string (Semver.or_zero g3)
  /\ digit_string (Semver.or_zero g4).
Proof.
  unfold Semver.coerce_match.
  destruct (Semver.coerce_major s true) as [[d1 r1]|] eqn:E1; [|discriminate].
  apply coerce_major_digits in E1.
  destruct (Semver.coerce_component r1) as [[d2|] r2] eqn:E2.
  - apply coerce_component_digits in E2.
    destruct (Semver.coerce_component r2) as [o3 r3] eqn:E3.
    intros H. simpl in H. inversion H; subst. split; [exact E1|]. split.
    + exact E2.
    + apply or_zero_digits. intros d ->.
      eapply coerce_component_digits; eassumption.
  - intros H. inversion H; subst. split; [exact E1|].
    split; (split; [reflexivity | discriminate]).
Qed.

Lemma version_plain (c : Semver.SemVer) :
  plain_version c ->
  Semver.version c =
  dotted (string_of_N (Semver.major c)) (string_of_N (Semver.minor c))
    (string_of_N (Semver.patch c)).
Proof.
  intros [Hp _]. unfold Semver.version, dotted. rewrite Hp. cbv iota.
  now rewrite append_empty_r.
Qed.

(** What [coerce] answers is canonical: the engine can compare it again. *)
Lemma coerce_canonical (s : string) (c : Semver.SemVer) :
  Semver.coerce s = Some c -> canonical (Semver.version c) c.
Proof.
  unfold Semver.coerce.
  destruct (Semver.coerce_match s) as [[[g2 g3] g4]|] eqn:E; [|discriminate].
  apply coerce_match_digits in E as (H2 & H3 & H4).
  fold (dotted g2 (Semver.or_zero g3) (Semver.or_zero g4)).
  unfold Semver.parse.
  destruct (Nat.ltb _ _) eqn:Hlen; [discriminate|].
  destruct (Semver.full_match _); [|discriminate].
  destruct (Semver.SemVer_new _) as [x|] eqn:Hnew; [|discriminate].
  intros H. inversion H; subst x. clear H.
  pose proof Hnew as Hnew'.
  rewrite SemVer_new_dotted in Hnew by assumption.
  rewrite Hlen in Hnew.
  destruct (_ && _ && _)%bool eqn:Hnum; [|discriminate].
  apply andb_true_iff in Hnum as [Hnum Hn4].
  apply andb_true_iff in Hnum as [Hn2 Hn3].
  destruct (_ <? _)%N eqn:B2 in Hnew; [discriminate|].
  destruct (_ <? _)%N eqn:B3 in Hnew; [discriminate|].
  destruct (_ <? _)%N eqn:B4 in Hnew; [discriminate|].
  inversion Hnew; subst c. clear Hnew.
  apply N.ltb_ge in B2, B3, B4.
  assert (Hplain : plain_version
                     {| Semver.major := Semver.digits_value g2;
                        Semver.minor := Semver.digits_value (Semver.or_zero g3);
                        Semver.patch := Semver.digits_value (Semver.or_zero g4);
                        Semver.prerelease := []; Semver.build := [] |}).
  { repeat split; assumption. }
  assert (Hv : Semver.version
                 {| Semver.major := Semver.digits_value g2;
                    Semver.minor := Semver.digits_value (Semver.or_zero g3);
                    Semver.patch := Semver.digits_value (Semver.or_zero g4);
                    Semver.prerelease := []; Semver.build := [] |}
               = dotted g2 (Semver.or_zero g3) (Semver.or_zero g4)).
  { rewrite version_plain by assumption. simpl.
    now rewrite !numeric_roundtrip by assumption. }
  split; [assumption|]. split; [reflexivity|].
  rewrite Hv. exact Hnew'.
Qed.

(** ** The order of canonical versions *)

Definition key_base : Z := 9007199254740992.

(** The rank of a plain version in the order of [semver]. *)
Definition key (c : Semver.SemVer) : Z :=
  Z.of_N (Semver.major c) * key_base * key_base
  + Z.of_N (Semver.minor c) * key_base + Z.of_N (Semver.patch c).





(** ** The scan *)

(** The pieces of a file name: [filenameVersion] and [description]. *)
Definition version_token (filename : string) : string :=
  nth 0 (split_dunder filename) "".

Definition description_token (filename : string) : option string :=
  nth_error (split_dunder filename) 1.

(** The version under which the callback accepts a file name: the name does
    not start with a dot, its version token coerces, and it has a
    description. *)
Definition candidate_version (filename : string) : option string :=
  if first_is_dot filename then None
  else
    match Semver.coerce (version_token filename) with
    | Some c =>
        if present (description_token filename) then Some (Semver.version c) else None
    | None => None
    end.

(** A name whose version token coerces and that has no description. *)
Definition malformed (filename : string) : bool :=
  (negb (first_is_dot filename)
   && match Semver.coerce (version_token filename) with
      | Some _ => negb (present (description_token filename))
      | None => false
      end)%bool.

(** The element of [files] for an accepted name. *)
Definition file_of (env : Env) (directory filename v : string) : MigrationFile :=
  {| filename := filename;
     path := path_join env directory filename;
     version := v;
     description :=
       Path.basename (default "" (description_token filename))
         (Path.extname (default "" (description_token filename))) |}.

(** [w'] is [w] with more lines on the console. *)
Definition printed (w w' : World) : Prop := w' = set_console (console w') w.

Lemma printed_refl (w : World) : printed w w.
Proof. now destruct w. Qed.

Lemma printed_trans (w1 w2 w3 : World) : printed w1 w2 -> printed w2 w3 -> printed w1 w3.
Proof. unfold printed. intros H1 H2. rewrite H2, H1. reflexivity. Qed.

Lemma log_printed (dbg : bool) (line : list string) (w : World) :
  exists w', log dbg line w = (Done tt, w') /\ printed w w'.
Proof.
  destruct dbg; simpl.
  - eexists. split; [reflexivity|]. reflexivity.
  - eexists. split; [reflexivity|]. apply printed_refl.
Qed.

Lemma candidate_nonempty (f v : string) : candidate_version f = Some v -> f <> "".
Proof. intros H ->. discriminate H. Qed.

(** The callback, case by case. *)
Lemma parse_filename_cases (env : Env) (dbg : bool) (directory : string)
    (versionToFile : gmap string string) (f : string) (w : World) :
  (forall k x, versionToFile !! k = Some x -> x <> "") ->
  match candidate_version f with
  | Some v =>
      match versionToFile !! v with
      | Some existing =>
          parse_filename env dbg directory versionToFile f w
          = (Thrown ("Both " +:+ f +:+ " and " +:+ existing
                     +:+ " have the same version"), w)
      | None =>
          parse_filename env dbg directory versionToFile f w
          = (Done (Some (file_of env directory f v), <[v := f]> versionToFile), w)
      end
  | None =>
      if malformed f
      then parse_filename env dbg directory versionToFile f w
           = (Thrown ("This filename doesn't match the required format: " +:+ f), w)
      else exists w', parse_filename env dbg directory versionToFile f w
                      = (Done (None, versionToFile), w') /\ printed w w'
  end.
Proof.
  intros Hne. unfold candidate_version, malformed, parse_filename.
  fold (version_token f). fold (description_token f).
  destruct (first_is_dot f); simpl.
  { eexists. split; [reflexivity | apply printed_refl]. }
  destruct (Semver.coerce (version_token f)) as [c|].
  - destruct (present (description_token f)) eqn:Hp; simpl; [|reflexivity].
    destruct (versionToFile !! Semver.version c) as [existing|] eqn:Hl.
    + destruct (String.eqb_spec existing "") as [->|]; [|reflexivity].
      exfalso. now apply (Hne _ _ Hl).
    + reflexivity.
  - destruct (present (description_token f)); simpl.
    + destruct dbg; simpl; eexists; (split; [reflexivity|]);
        [reflexivity | apply printed_refl].
    + eexists. split; [reflexivity | apply printed_refl].
Qed.

(** What the scan answers, without its lines on the console. *)
Fixpoint scan_pure (env : Env) (directory : string)
    (versionToFile : gmap string string) (filenames : list string)
  : Result (list MigrationFile) :=
  match filenames with
  | [] => Ok []
  | f :: rest =>
      match candidate_version f with
      | Some v =>
          match versionToFile !! v with
          | Some existing =>
              Throw ("Both " +:+ f +:+ " and " +:+ existing
                     +:+ " have the same version")
          | None =>
              rbind (scan_pure env directory (<[v := f]> versionToFile) rest)
                (fun files => Ok (file_of env directory f v :: files))
          end
      | None =>
          if malformed f
          then Throw ("This filename doesn't match the required format: " +:+ f)
          else scan_pure env directory versionToFile rest
      end
  end.

Definition outcome_of {A} (r : Result A) : Outcome A :=
  match r with
  | Ok a => Done a
  | Throw e => Thrown e
  end.

Lemma parse_filenames_pure (env : Env) (dbg : bool) (directory : string)
    (filenames : list string) :
  forall (versionToFile : gmap string string) (w : World),
    (forall k x, versionToFile !! k = Some x -> x <> "") ->
    exists w',
      parse_filenames env dbg directory versionToFile filenames w
      = (outcome_of (scan_pure env directory versionToFile filenames), w')
      /\ printed w w'.
Proof.
  induction filenames as [|f rest IH]; intros vtf w Hne.
  - exists w. split; [reflexivity | apply printed_refl].
  - pose proof (parse_filename_cases env dbg directory vtf f w Hne) as Hc.
    cbn [parse_filenames scan_pure]. unfold bind at 1.
    destruct (candidate_version f) as [v|] eqn:Ec.
    + destruct (vtf !! v) as [existing|] eqn:El.
      * rewrite Hc. exists w. split; [reflexivity | apply printed_refl].
      * rewrite Hc.
        assert (Hne' : forall k x, <[v := f]> vtf !! k = Some x -> x <> "").
        { intros k x. destruct (decide (v = k)) as [->|Hk].
          - rewrite lookup_insert_eq. intros [= <-].
            eapply candidate_nonempty; eassumption.
          - rewrite lookup_insert_ne by assumption. apply Hne. }
        destruct (IH (<[v := f]> vtf) w Hne') as (w' & Hr & Hp).
        exists w'. split; [|assumption].
        unfold bind. rewrite Hr.
        destruct (scan_pure env directory (<[v := f]> vtf) rest); reflexivity.
    + destruct (malformed f).
      * rewrite Hc. exists w. split; [reflexivity | apply printed_refl].
      * destruct Hc as (w1 & -> & Hp1).
        destruct (IH vtf w1 Hne) as (w' & Hr & Hp).
        exists w'. split; [|eapply printed_trans; eassumption].
        unfold bind. rewrite Hr.
        destruct (scan_pure env directory vtf rest); reflexivity.
Qed.

(** The accepted names of a listing, with their versions, in order. *)
Definition candidates (filenames : list string) : list (string * string) :=
  omap (fun f => option_map (fun v => (f, v)) (candidate_version f)) filenames.

Lemma candidate_not_malformed (f v : string) :
  candidate_version f = Some v -> malformed f = false.
Proof.
  unfold candidate_version, malformed.
  destruct (first_is_dot f); [discriminate|].
  destruct (Semver.coerce (version_token f)); [|discriminate].
  destruct (present (description_token f)); [reflexivity | discriminate].
Qed.

(** A scan that succeeds accepted every candidate of the listing: none was
    malformed, and the versions differ from each other and from the keys of
    [versionToFile]. *)
Lemma scan_pure_ok (env : Env) (directory : string) (filenames : list string) :
  forall (versionToFile : gmap string string) (files : list MigrationFile),
    scan_pure env directory versionToFile filenames = Ok files ->
    files = map (fun fv => file_of env directory (fst fv) (snd fv)) (candidates filenames)
    /\ NoDup (map version files)
    /\ (forall f, In f files -> versionToFile !! version f = None)
    /\ Forall (fun f => malformed f = false) filenames.
Proof.
  induction filenames as [|f rest IH]; intros vtf files H; simpl in H.
  - inversion H; subst. repeat split; try constructor. intros f [].
  - unfold candidates. cbn [omap list_omap].
    fold (candidates rest).
    destruct (candidate_version f) as [v|] eqn:Ec.
    + destruct (vtf !! v) eqn:El; [discriminate|].
      destruct (scan_pure env directory (<[v := f]> vtf) rest) as [files'|] eqn:Er;
        [|discriminate].
      simpl in H. inversion H; subst files. clear H.
      destruct (IH _ _ Er) as (Hf & Hnd & Hfresh & Hmal).
      assert (Hv : forall g, In g files' -> version g <> v /\ vtf !! version g = None).
      { intros g Hg. specialize (Hfresh g Hg).
        destruct (decide (v = version g)) as [E|E].
        - rewrite E, lookup_insert_eq in Hfresh. discriminate.
        - rewrite lookup_insert_ne in Hfresh by assumption. split; congruence. }
      repeat split.
      * simpl. now rewrite <- Hf.
      * simpl. constructor; [|assumption].
        intros Hin. apply list_elem_of_In, in_map_iff in Hin as (g & Hgv & Hg).
        now apply (Hv g Hg).
      * intros g [<-|Hg]; [exact El | now apply Hv].
      * constructor; [|assumption]. eapply candidate_not_malformed; eassumption.
    + destruct (malformed f) eqn:Em; [discriminate|].
      destruct (IH _ _ H) as (Hf & Hnd & Hfresh & Hmal).
      repeat split; try assumption. now constructor.
Qed.






(** ** What a run leaves unchanged *)

(** The part of a stats object that the interceptor never writes. *)
Definition shape (st : Stats) : Z * Z * bool :=
  (scannedFiles st, executedFiles st, frozen st).

(** The files whose entry point was called, in order. *)
Definition run_names (evs : list Event) : list string :=
  omap (fun e => match e with
                 | EvRun f => Some f
                 | EvCommit _ => None
                 end) evs.

(** From [w] to [w'] only counters, the console, documents and commits
    changed; when [q] holds, no document and no commit either. *)
Record frame (q : bool) (w w' : World) : Prop := {
  f_proxied : proxied w' = proxied w;
  f_statsMap : statsMap w' = statsMap w;
  f_history : history w' = history w;
  f_clock : clock w' = clock w;
  f_runs : run_names (events w') = run_names (events w);
  f_shape : shape <$> heap w' = shape <$> heap w;
  f_docs : q = true -> docs w' = docs w;
  f_events : q = true -> events w' = events w
}.

Lemma frame_refl (q : bool) (w : World) : frame q w w.
Proof. now constructor. Qed.

Lemma frame_trans (q : bool) (w1 w2 w3 : World) :
  frame q w1 w2 -> frame q w2 w3 -> frame q w1 w3.
Proof.
  intros [] []. constructor; try congruence.
  - intros Hq. rewrite f_docs1, f_docs0; auto.
  - intros Hq. rewrite f_events1, f_events0; auto.
Qed.

Lemma printed_frame (q : bool) (w w' : World) : printed w w' -> frame q w w'.
Proof. intros ->. now constructor. Qed.

Lemma log_frame (q dbg : bool) (line : list string) (w : World) :
  exists w', log dbg line w = (Done tt, w') /\ frame q w w'.
Proof.
  destruct (log_printed dbg line w) as (w' & H & Hp).
  exists w'. split; [assumption | now apply printed_frame].
Qed.

Lemma shape_bump (m : Method) (st : Stats) : shape (bump m st) = shape st.
Proof. now destruct m. Qed.

Lemma update_stats_frame (q : bool) (stats : nat) (f : Stats -> Stats) (w : World) :
  (forall st, shape (f st) = shape st) ->
  exists w', update_stats stats f w = (Done tt, w') /\ frame q w w'.
Proof.
  intros Hf. unfold update_stats, modify. eexists. split; [reflexivity|].
  destruct (heap w !! stats) as [st|] eqn:E; [|apply frame_refl].
  constructor; try reflexivity. simpl.
  rewrite list_fmap_insert, Hf. apply list_insert_id.
  now rewrite list_lookup_fmap, E.
Qed.

Lemma call_fn_frame (env : Env) (q : bool) (m : Method) (args : Args) (stats : nat)
    (lg : bool) (w : World) :
  exists w', call_fn env m args stats lg w = (Done tt, w') /\ frame q w w'.
Proof.
  unfold call_fn, bind, get.
  assert (H1 : exists w1,
             match heap w !! stats with
             | Some st => if frozen st then ret () else update_stats stats (bump m)
             | None => ret ()
             end w = (Done tt, w1) /\ frame q w w1).
  { destruct (heap w !! stats) as [st|]; [destruct (frozen st)|];
      try (exists w; split; [reflexivity | apply frame_refl]).
    apply update_stats_frame, shape_bump. }
  destruct H1 as (w1 & -> & F1).
  destruct (log_frame q lg (log_line env m args) w1) as (w2 & -> & F2).
  exists w2. split; [reflexivity | eapply frame_trans; eassumption].
Qed.

Lemma drain_frame (env : Env) (q : bool) (queue : list Pending) (w : World) :
  exists w', drain env queue w = (Done tt, w') /\ frame q w w'.
Proof.
  revert w. induction queue as [|p rest IH]; intros w.
  - exists w. split; [reflexivity | apply frame_refl].
  - cbn [drain]. unfold bind.
    destruct (call_fn_frame env q (p_method p) (p_args p) (p_stats p) (p_log p) w)
      as (w1 & -> & F1).
    destruct (IH w1) as (w2 & -> & F2).
    exists w2. split; [reflexivity | eapply frame_trans; eassumption].
Qed.

(** The writes of a migration: none carries a record. *)
Definition user_op (op : WriteOp) : Prop :=
  match op with
  | OpCreate _ (RecordDoc _) | OpSet _ (RecordDoc _) _ | OpUpdate _ (RecordDoc _) => False
  | _ => True
  end.

Definition user_batch (b : WriteBatch) : Prop := Forall user_op (wb_ops b).

Lemma apply_op_user (env : Env) (h h' : list (string * HistoryRecord))
    (d d' : gmap string string) (op : WriteOp) :
  user_op op -> apply_op env (h, d) op = Ok (h', d') -> h' = h.
Proof.
  destruct op as [ref [x|r]|ref [x|r] mg|ref [x|r]|ref]; simpl; try contradiction;
    intros _.
  - destruct (d !! ref); [discriminate|]. now intros [= <- _].
  - destruct (d !! ref), mg; now intros [= <- _].
  - destruct (d !! ref); [|discriminate]. now intros [= <- _].
  - now intros [= <- _].
Qed.

Lemma apply_ops_user (env : Env) (ops : list WriteOp) :
  forall (h h' : list (string * HistoryRecord)) (d d' : gmap string string),
    Forall user_op ops -> apply_ops env (h, d) ops = Ok (h', d') -> h' = h.
Proof.
  induction ops as [|op rest IH]; intros h h' d d' Hu H; cbn [apply_ops] in H.
  - now inversion H.
  - apply Forall_cons in Hu as [Hop Hrest].
    destruct (apply_op env (h, d) op) as [[h1 d1]|] eqn:E; [|discriminate H].
    cbn [rbind] in H. apply apply_op_user in E; [|assumption]. subst h1.
    eapply IH; eassumption.
Qed.

Lemma run_names_app (a b : list Event) :
  run_names (a ++ b) = (run_names a ++ run_names b)%list.
Proof. apply omap_app. Qed.

(** The commit of the client on a batch of a migration. *)
Lemma ogCommit_frame (env : Env) (this : WriteBatch) (w : World) :
  user_batch this ->
  exists r w', ogCommit env this w = (r, w') /\ frame false w w' /\ r <> Blocked.
Proof.
  intros Hu. unfold ogCommit, bind, get.
  destruct (apply_ops env (history w, docs w) (wb_ops this)) as [[h d]|e] eqn:E.
  - apply apply_ops_user in E; [|assumption]. subst h.
    eexists _, _. split; [reflexivity|]. split; [|discriminate].
    constructor; try reflexivity; try discriminate.
    simpl. rewrite run_names_app. simpl. now rewrite app_nil_r.
  - eexists _, _. split; [reflexivity|]. split; [apply frame_refl | discriminate].
Qed.

Lemma frame_weaken (q : bool) (w w' : World) : frame true w w' -> frame q w w'.
Proof. intros []. constructor; auto. Qed.

(** The patched [_commit] on a batch of a migration; when [q] holds the
    commit is suppressed. *)
Lemma commit_frame (env : Env) (q : bool) (this : WriteBatch) (w : World) :
  user_batch this ->
  (q = true -> proxied w = true /\ commit_suppressed (statsMap w) this = true) ->
  exists r w', _commit env this w = (r, w') /\ frame q w w' /\ r <> Blocked.
Proof.
  intros Hu Hq. unfold _commit, bind, get.
  destruct (proxied w) eqn:Hp.
  - destruct (drain_frame env true (fireway_queue this) w) as (w1 & -> & F1).
    rewrite (f_statsMap _ _ _ F1).
    destruct (commit_suppressed (statsMap w) this) eqn:Hs.
    + eexists _, _. split; [reflexivity|]. split; [now apply frame_weaken | discriminate].
    + destruct (ogCommit_frame env this w1 Hu) as (r & w2 & -> & F2 & Hr).
      exists r, w2. split; [reflexivity|]. split; [|assumption].
      destruct q; [now destruct Hq|].
      eapply frame_trans; [apply frame_weaken|]; eassumption.
  - destruct (ogCommit_frame env this w Hu) as (r & w2 & -> & F2 & Hr).
    exists r, w2. split; [reflexivity|]. split; [|assumption].
    destruct q; [now destruct Hq | assumption].
Qed.

Definition user_args (args : Args) : Prop :=
  match a_doc args with
  | Some (RecordDoc _) => False
  | _ => True
  end.

Definition own_batch (stats : nat) (b : WriteBatch) : Prop :=
  wb_fireway_stats b = Some stats.

(** When [q] holds, the run of [stats] is a dry run with the proxy in
    place. *)
Definition suppressing (q : bool) (stats : nat) (w : World) : Prop :=
  q = true ->
  proxied w = true
  /\ exists cfg, statsMap w !! stats = Some cfg /\ dryrun cfg = true.

Lemma suppressing_frame (q : bool) (stats : nat) (w w' : World) :
  frame q w w' -> suppressing q stats w -> suppressing q stats w'.
Proof.
  intros F H Hq. destruct (H Hq) as (Hp & cfg & Hc & Hd).
  rewrite (f_proxied _ _ _ F), (f_statsMap _ _ _ F). eauto.
Qed.

Lemma suppressing_commit (q : bool) (stats : nat) (w : World) (b : WriteBatch) :
  suppressing q stats w -> own_batch stats b ->
  q = true -> proxied w = true /\ commit_suppressed (statsMap w) b = true.
Proof.
  intros H Hb Hq. destruct (H Hq) as (Hp & cfg & Hc & Hd).
  split; [assumption|]. unfold commit_suppressed, owner. now rewrite Hb, Hc.
Qed.

Lemma user_args_mark (b : bool) (args : Args) :
  user_args args -> user_args (with_mark b args).
Proof. unfold user_args, with_mark. simpl. now destruct (a_doc args) as [[]|]. Qed.

Lemma mitm_batch_spec (m : Method) (entries : gmap nat RunConfig)
    (this : WriteBatch) (args : Args) :
  wb_fireway_stats (fst (mitm_batch m entries this args)) = wb_fireway_stats this
  /\ wb_ops (fst (mitm_batch m entries this args)) = wb_ops this
  /\ (user_args args -> user_args (snd (mitm_batch m entries this args))).
Proof.
  unfold mitm_batch. destruct (owner entries (wb_fireway_stats this)) as [[s cfg]|];
    [destruct (marked (a_doc args))|]; simpl; repeat split; auto.
  apply user_args_mark.
Qed.

Lemma original_spec (m : Method) (this this' : WriteBatch) (args : Args) :
  original m this args = Ok this' ->
  wb_fireway_stats this' = wb_fireway_stats this
  /\ fireway_queue this' = fireway_queue this
  /\ (user_batch this -> user_args args -> user_batch this').
Proof.
  unfold original, user_batch, user_args.
  destruct m, (a_doc args) as [[x|r]|]; intros [= <-]; simpl; repeat split; auto;
    intros Hu Ha; try contradiction; apply Forall_app; split; auto.
Qed.

Lemma WriteBatch_call_spec (m : Method) (this : WriteBatch) (args : Args) (w : World) :
  exists r, WriteBatch_call m this args w = (r, w)
    /\ match r with
       | Done this' =>
           wb_fireway_stats this' = wb_fireway_stats this
           /\ (user_batch this -> user_args args -> user_batch this')
       | Thrown _ => True
       | Blocked => False
       end.
Proof.
  unfold WriteBatch_call, bind, get.
  set (p := if proxied w then mitm_batch m (statsMap w) this args else (this, args)).
  assert (Hp : wb_fireway_stats (fst p) = wb_fireway_stats this
               /\ wb_ops (fst p) = wb_ops this
               /\ (user_args args -> user_args (snd p))).
  { subst p. destruct (proxied w); [apply mitm_batch_spec | now repeat split]. }
  destruct p as [this1 args1]. simpl in Hp. destruct Hp as (Ht & Ho & Ha).
  destruct (original m this1 args1) as [this2|e] eqn:E; simpl.
  - eexists. split; [reflexivity|].
    apply original_spec in E as (Ht2 & _ & Hu2). split; [congruence|].
    intros Hu Hargs. apply Hu2; [|auto]. unfold user_batch in *. now rewrite Ho.
  - eexists. split; [reflexivity | exact I].
Qed.

Lemma DocumentReference_call_frame (env : Env) (q : bool) (stats : nat)
    (m : Method) (tag : option nat) (args : Args) (w : World) :
  user_args args -> suppressing q stats w -> (q = true -> tag = Some stats) ->
  exists r w', DocumentReference_call env m tag args w = (r, w')
    /\ frame q w w' /\ r <> Blocked.
Proof.
  intros Ha Hs Ht. unfold DocumentReference_call, bind.
  destruct (WriteBatch_call_spec m (new_WriteBatch tag) args w) as (r & -> & Hr).
  destruct r as [this| |]; [| |contradiction].
  - destruct Hr as (Htag & Hu).
    apply (commit_frame env q this w).
    + apply Hu; [constructor | assumption].
    + intros Hq. eapply suppressing_commit; try eassumption.
      unfold own_batch. rewrite Htag. simpl. auto.
  - eexists _, _. split; [reflexivity|]. split; [apply frame_refl | discriminate].
Qed.

Lemma mitm_add_frame (env : Env) (q : bool) (entries : gmap nat RunConfig)
    (tag : option nat) (args : Args) (w : World) :
  user_args args ->
  exists args' w', mitm_add env entries tag args w = (Done args', w')
    /\ frame q w w' /\ user_args args'.
Proof.
  intros Ha. unfold mitm_add. destruct (owner entries tag) as [[s cfg]|].
  - unfold bind.
    destruct (call_fn_frame env q MAdd (with_mark true args) s (log_debug cfg) w)
      as (w1 & -> & F1).
    eexists _, _. split; [reflexivity|]. split; [assumption | now apply user_args_mark].
  - eexists _, _. split; [reflexivity|]. split; [apply frame_refl | assumption].
Qed.

Lemma CollectionReference_add_frame (env : Env) (q : bool) (stats : nat)
    (tag : option nat) (collection autoId : string) (d : Doc) (w : World) :
  suppressing q stats w -> (q = true -> tag = Some stats) ->
  exists r w', CollectionReference_add env tag collection autoId d w = (r, w')
    /\ frame q w w' /\ r <> Blocked.
Proof.
  intros Hs Ht. unfold CollectionReference_add, bind, get.
  set (args := {| a_ref := collection; a_doc := Some (UserDoc d); a_merge := false |}).
  assert (H1 : exists args' w1,
             (if proxied w then mitm_add env (statsMap w) tag args else ret args) w
             = (Done args', w1) /\ frame q w w1 /\ user_args args').
  { destruct (proxied w); [now apply mitm_add_frame|].
    eexists _, _. split; [reflexivity|]. split; [apply frame_refl | exact I]. }
  destruct H1 as (args' & w1 & -> & F1 & Ha).
  destruct (DocumentReference_call_frame env q stats MCreate tag
              {| a_ref := collection +:+ "/" +:+ autoId; a_doc := a_doc args';
                 a_merge := false |} w1) as (r & w2 & -> & F2 & Hr).
  - exact Ha.
  - eapply suppressing_frame; eassumption.
  - assumption.
  - exists r, w2. split; [reflexivity|]. split; [|assumption].
    eapply frame_trans; eassumption.
Qed.

Lemma awaited_frame (q : bool) (m : M (list unit)) (w : World) :
  (exists r w', m w = (r, w') /\ frame q w w' /\ r <> Blocked) ->
  exists r w', awaited m w = (Done r, w') /\ frame q w w'.
Proof.
  intros (r & w' & Hm & F & Hr). unfold awaited, catch, bind. rewrite Hm.
  destruct r as [x|e|]; [| |contradiction]; eexists _, _; (split; [reflexivity | assumption]).
Qed.

(** The calls of a script that go to the Firestore of the run. *)
Definition own_action (a : Action) : Prop :=
  match a with
  | DocCreate i _ _ | DocSet i _ _ _ | DocUpdate i _ _ | DocDelete i _
  | CollectionAdd i _ _ _ | NewBatch i => i = Own
  | _ => True
  end.

Inductive own_only : Script -> Prop :=
| own_finish (e : Ending) : own_only (Finish e)
| own_do (a : Action) (k : Reply -> Script) :
    own_action a -> (forall r, own_only (k r)) -> own_only (Do a k).

Definition good_batches (q : bool) (stats : nat) (batches : list WriteBatch) : Prop :=
  Forall user_batch batches /\ (q = true -> Forall (own_batch stats) batches).

Lemma doc_args_user (ref : string) (d : option Doc) (merge : bool) :
  user_args (doc_args ref d merge).
Proof. unfold user_args, doc_args. simpl. now destruct d. Qed.

Lemma batch_call_frame (q : bool) (stats : nat) (m : Method)
    (batches : list WriteBatch) (b : nat) (args : Args) (w : World) :
  user_args args -> good_batches q stats batches ->
  exists r batches', batch_call m batches b args w = (Done (r, batches'), w)
    /\ good_batches q stats batches'.
Proof.
  intros Ha [Hu Ho]. unfold batch_call.
  destruct (batches !! b) as [this|] eqn:E;
    [|eexists _, _; split; [reflexivity | now split]].
  unfold bind, get.
  set (p := if proxied w then mitm_batch m (statsMap w) this args else (this, args)).
  assert (Hp : wb_fireway_stats (fst p) = wb_fireway_stats this
               /\ wb_ops (fst p) = wb_ops this
               /\ (user_args args -> user_args (snd p))).
  { subst p. destruct (proxied w); [apply mitm_batch_spec | now repeat split]. }
  destruct p as [this1 args1]. simpl in Hp. destruct Hp as (Ht & Hops & Ha1).
  assert (Hthis : user_batch this) by (eapply Forall_lookup_1; eassumption).
  assert (Hthis1 : user_batch this1) by (unfold user_batch in *; congruence).
  assert (Hown1 : q = true -> own_batch stats this1).
  { intros Hq. unfold own_batch. rewrite Ht.
    exact (Forall_lookup_1 (own_batch stats) _ _ _ (Ho Hq) E). }
  destruct (original m this1 args1) as [this2|e] eqn:Eo.
  - apply original_spec in Eo as (Ht2 & _ & Hu2).
    eexists _, _. split; [reflexivity|]. split.
    + apply Forall_insert; auto.
    + intros Hq. apply Forall_insert; auto. unfold own_batch. rewrite Ht2.
      now apply Hown1.
  - eexists _, _. split; [reflexivity|]. split.
    + apply Forall_insert; auto.
    + intros Hq. apply Forall_insert; auto.
Qed.

(** One call of a script. *)
Lemma perform_frame (env : Env) (q : bool) (stats : nat) (a : Action)
    (batches : list WriteBatch) (w : World) :
  suppressing q stats w -> good_batches q stats batches ->
  (q = true -> own_action a) ->
  exists r batches' w',
    perform env stats a batches w = (Done (r, batches'), w')
    /\ frame q w w' /\ good_batches q stats batches'.
Proof.
  intros Hs Hg Ha.
  assert (Htag : forall i, (q = true -> i = Own) -> q = true -> tag_of stats i = Some stats).
  { intros i Hi Hq. now rewrite (Hi Hq). }
  destruct a as [i ref d|i ref d mg|i ref d|i ref|i c aid d|i|b ref d|b ref d mg
                |b ref d|b ref|b|ref]; cbn [perform].
  1-4: unfold bind;
    match goal with
    | |- context [awaited ?m ?w0] =>
        destruct (awaited_frame q m w0) as (r & w' & -> & F);
          [apply DocumentReference_call_frame with (stats := stats);
             [apply doc_args_user | assumption | now apply Htag]
          | exists r, batches, w'; split; [reflexivity|]; split; assumption]
    end.
  - unfold bind.
    match goal with
    | |- context [awaited ?m ?w0] =>
        destruct (awaited_frame q m w0) as (r & w' & -> & F);
          [apply CollectionReference_add_frame with (stats := stats);
             [assumption | now apply Htag]
          | exists r, batches, w'; split; [reflexivity|]; split; assumption]
    end.
  - eexists _, _, _. split; [reflexivity|]. split; [apply frame_refl|].
    destruct Hg as [Hu Ho]. split.
    + apply Forall_app. split; [assumption|]. repeat constructor.
    + intros Hq. apply Forall_app. split; [auto|]. repeat constructor.
      unfold own_batch. simpl. now apply Htag.
  - destruct (batch_call_frame q stats MCreate batches b (doc_args ref (Some d) false) w)
      as (r & bs & -> & Hg'); [apply doc_args_user | assumption|].
    exists r, bs, w. split; [reflexivity|]. split; [apply frame_refl | assumption].
  - destruct (batch_call_frame q stats MSet batches b (doc_args ref (Some d) mg) w)
      as (r & bs & -> & Hg'); [apply doc_args_user | assumption|].
    exists r, bs, w. split; [reflexivity|]. split; [apply frame_refl | assumption].
  - destruct (batch_call_frame q stats MUpdate batches b (doc_args ref (Some d) false) w)
      as (r & bs & -> & Hg'); [apply doc_args_user | assumption|].
    exists r, bs, w. split; [reflexivity|]. split; [apply frame_refl | assumption].
  - destruct (batch_call_frame q stats MDelete batches b (doc_args ref None false) w)
      as (r & bs & -> & Hg'); [apply doc_args_user | assumption|].
    exists r, bs, w. split; [reflexivity|]. split; [apply frame_refl | assumption].
  - destruct (batches !! b) as [this|] eqn:E.
    + destruct Hg as [Hu Ho].
      assert (Hthis : user_batch this) by (eapply Forall_lookup_1; eassumption).
      unfold bind.
      destruct (awaited_frame q (_commit env this) w) as (r & w' & -> & F).
      { apply commit_frame; [assumption|].
        intros Hq. eapply suppressing_commit; eauto.
        exact (Forall_lookup_1 (own_batch stats) _ _ _ (Ho Hq) E). }
      unfold get. eexists _, _, _. split; [reflexivity|]. split; [assumption|].
      split.
      * apply Forall_insert; [assumption|]. now destruct (proxied w').
      * intros Hq. apply Forall_insert; [auto|].
        assert (own_batch stats this)
          by exact (Forall_lookup_1 (own_batch stats) _ _ _ (Ho Hq) E).
        now destruct (proxied w').
    + eexists _, _, _. split; [reflexivity|]. split; [apply frame_refl | assumption].
  - unfold bind, get. eexists _, _, _. split; [reflexivity|].
    split; [apply frame_refl | assumption].
Qed.

Lemma own_only_inv (a : Action) (k : Reply -> Script) :
  own_only (Do a k) -> own_action a /\ forall r, own_only (k r).
Proof. intros H. inversion H; subst. now split. Qed.

(** A script runs to its end: the entry point of a migration returns an
    [Ending], and leaves the frame. *)
Lemma run_script_frame (env : Env) (q : bool) (stats : nat) (s : Script) :
  forall (batches : list WriteBatch) (w : World),
    suppressing q stats w -> good_batches q stats batches ->
    (q = true -> own_only s) ->
    exists e w', run_script env stats s batches w = (Done e, w') /\ frame q w w'.
Proof.
  induction s as [e|a k IH]; intros batches w Hs Hg Ho.
  - exists e, w. split; [reflexivity | apply frame_refl].
  - cbn [run_script]. unfold bind.
    destruct (perform_frame env q stats a batches w) as (r & bs & w1 & -> & F1 & Hg1);
      [assumption | assumption | intros Hq; now apply own_only_inv in Ho |].
    destruct (IH r bs w1) as (e & w2 & -> & F2).
    + eapply suppressing_frame; eassumption.
    + assumption.
    + intros Hq. apply own_only_inv in Ho; [|assumption]. apply Ho.
    + exists e, w2. split; [reflexivity | eapply frame_trans; eassumption].
Qed.

(** ** What the interceptor does, as equations *)

(** The world after [log]. *)
Definition logged (dbg : bool) (line : list string) (w : World) : World :=
  if dbg then set_console (console w ++ [(ConsoleLog, line)]) w else w.

(** The world after the counter of [m] went up by one, unless the stats at
    [stats] are frozen. *)
Definition counted (m : Method) (stats : nat) (w : World) : World :=
  match heap w !! stats with
  | Some st => if frozen st then w else set_heap (<[stats := bump m st]> (heap w)) w
  | None => w
  end.

(** The world after the callback of [mitm] for [m] ran. *)
Definition called (env : Env) (m : Method) (args : Args) (stats : nat) (lg : bool)
    (w : World) : World :=
  logged lg (log_line env m args) (counted m stats w).

(** The world after a queue was emptied. *)
Definition drained (env : Env) (queue : list Pending) (w : World) : World :=
  fold_left (fun w p => called env (p_method p) (p_args p) (p_stats p) (p_log p) w)
    queue w.

Lemma log_eq (dbg : bool) (line : list string) (w : World) :
  log dbg line w = (Done tt, logged dbg line w).
Proof. now destruct dbg. Qed.

Lemma call_fn_eq (env : Env) (m : Method) (args : Args) (stats : nat) (lg : bool)
    (w : World) :
  call_fn env m args stats lg w = (Done tt, called env m args stats lg w).
Proof.
  unfold call_fn, called, counted, bind, get, update_stats, modify.
  destruct (heap w !! stats) as [st|] eqn:E; [destruct (frozen st)|]; simpl;
    try rewrite E; apply log_eq.
Qed.

Lemma drain_eq (env : Env) (queue : list Pending) (w : World) :
  drain env queue w = (Done tt, drained env queue w).
Proof.
  revert w. induction queue as [|p rest IH]; intros w; [reflexivity|].
  cbn [drain]. unfold bind. rewrite call_fn_eq. apply IH.
Qed.

Lemma logged_fields (dbg : bool) (line : list string) (w : World) :
  proxied (logged dbg line w) = proxied w
  /\ statsMap (logged dbg line w) = statsMap w
  /\ heap (logged dbg line w) = heap w
  /\ history (logged dbg line w) = history w
  /\ docs (logged dbg line w) = docs w
  /\ clock (logged dbg line w) = clock w
  /\ events (logged dbg line w) = events w.
Proof. now destruct dbg. Qed.

Lemma counted_fields (m : Method) (stats : nat) (w : World) :
  proxied (counted m stats w) = proxied w
  /\ statsMap (counted m stats w) = statsMap w
  /\ history (counted m stats w) = history w
  /\ docs (counted m stats w) = docs w
  /\ clock (counted m stats w) = clock w
  /\ events (counted m stats w) = events w
  /\ console (counted m stats w) = console w.
Proof.
  unfold counted. destruct (heap w !! stats) as [st|]; [destruct (frozen st)|];
    now repeat split.
Qed.

Lemma called_fields (env : Env) (m : Method) (args : Args) (stats : nat) (lg : bool)
    (w : World) :
  proxied (called env m args stats lg w) = proxied w
  /\ statsMap (called env m args stats lg w) = statsMap w
  /\ history (called env m args stats lg w) = history w
  /\ docs (called env m args stats lg w) = docs w
  /\ clock (called env m args stats lg w) = clock w
  /\ events (called env m args stats lg w) = events w.
Proof.
  unfold called.
  destruct (logged_fields lg (log_line env m args) (counted m stats w))
    as (-> & -> & _ & -> & -> & -> & ->).
  destruct (counted_fields m stats w) as (-> & -> & -> & -> & -> & -> & _).
  now repeat split.
Qed.

Lemma drained_cons (env : Env) (p : Pending) (rest : list Pending) (w : World) :
  drained env (p :: rest) w
  = drained env rest (called env (p_method p) (p_args p) (p_stats p) (p_log p) w).
Proof. reflexivity. Qed.

Lemma drained_fields (env : Env) (queue : list Pending) (w : World) :
  proxied (drained env queue w) = proxied w
  /\ statsMap (drained env queue w) = statsMap w
  /\ history (drained env queue w) = history w
  /\ docs (drained env queue w) = docs w
  /\ clock (drained env queue w) = clock w
  /\ events (drained env queue w) = events w.
Proof.
  revert w. induction queue as [|p rest IH]; intros w; [now repeat split|].
  rewrite drained_cons.
  destruct (IH (called env (p_method p) (p_args p) (p_stats p) (p_log p) w))
    as (-> & -> & -> & -> & -> & ->).
  apply called_fields.
Qed.

(** The heap after the callback of [mitm] ran for the stats at [stats]. *)
Lemma called_heap (env : Env) (m : Method) (args : Args) (stats : nat) (lg : bool)
    (w : World) (st : Stats) :
  heap w !! stats = Some st ->
  heap (called env m args stats lg w)
  = <[stats := if frozen st then st else bump m st]> (heap w).
Proof.
  intros H. unfold called.
  destruct (logged_fields lg (log_line env m args) (counted m stats w))
    as (_ & _ & -> & _).
  unfold counted. rewrite H. destruct (frozen st); [|reflexivity].
  symmetry. now apply list_insert_id.
Qed.

Lemma called_console (env : Env) (m : Method) (args : Args) (stats : nat) (lg : bool)
    (w : World) :
  console (called env m args stats lg w)
  = (console w ++ (if lg then [(ConsoleLog, log_line env m args)] else []))%list.
Proof.
  unfold called, logged.
  destruct (counted_fields m stats w) as (_ & _ & _ & _ & _ & _ & Hc).
  destruct lg; simpl; rewrite Hc; [reflexivity | now rewrite app_nil_r].
Qed.

(** A wrapped method of a batch of the run: the call is queued, nothing is
    counted or printed yet. *)
Lemma WriteBatch_call_own (m : Method) (this : WriteBatch) (args : Args) (w : World)
    (stats : nat) (cfg : RunConfig) :
  proxied w = true -> statsMap w !! stats = Some cfg ->
  wb_fireway_stats this = Some stats -> marked (a_doc args) = false ->
  WriteBatch_call m this args w
  = (outcome_of (original m (push_queue {| p_method := m; p_args := args;
                                           p_stats := stats;
                                           p_log := log_debug cfg |} this) args), w).
Proof.
  intros Hp Hc Ht Hm. unfold WriteBatch_call, bind, get. rewrite Hp.
  unfold mitm_batch, owner. rewrite Ht, Hc, Hm.
  now destruct (original _ _ _).
Qed.

(** The patched [_commit] on a batch of the run: the queue is emptied
    first, then a dry run answers the empty array and leaves it there. *)
Lemma commit_own (env : Env) (this : WriteBatch) (w : World) (stats : nat)
    (cfg : RunConfig) :
  proxied w = true -> statsMap w !! stats = Some cfg ->
  wb_fireway_stats this = Some stats ->
  _commit env this w
  = if dryrun cfg then (Done [], drained env (fireway_queue this) w)
    else ogCommit env this (drained env (fireway_queue this) w).
Proof.
  intros Hp Hc Ht. unfold _commit, bind, get. rewrite Hp, drain_eq.
  destruct (drained_fields env (fireway_queue this) w) as (_ & -> & _).
  unfold commit_suppressed, owner. rewrite Ht, Hc. now destruct (dryrun cfg).
Qed.

(** ** One file of the loop *)

(** The run of [stats] is under way in [w]: the proxy is in place, [statsMap]
    has the entry of the run, and the stats are not frozen. *)
Record running (opts : Options) (stats : nat) (w : World) : Prop := {
  r_proxied : proxied w = true;
  r_entry : statsMap w !! stats
            = Some {| dryrun := opt_dryrun opts; log_debug := debug opts |};
  r_stats : exists st, heap w !! stats = Some st /\ frozen st = false
}.

Lemma with_frozen_id (st : Stats) :
  frozen st = false -> with_frozen false (with_frozen true st) = st.
Proof. destruct st. simpl. now intros ->. Qed.

Lemma update_stats_eq (stats : nat) (f : Stats -> Stats) (w : World) (st : Stats) :
  heap w !! stats = Some st ->
  update_stats stats f w = (Done tt, set_heap (<[stats := f st]> (heap w)) w).
Proof. intros H. unfold update_stats, modify. now rewrite H. Qed.

Lemma ogCommit_record (env : Env) (this : WriteBatch) (ref : string)
    (r : HistoryRecord) (w : World) :
  wb_ops this = [OpSet ref (RecordDoc r) false] ->
  ogCommit env this w
  = (Done [tt],
     add_event (EvCommit [OpSet ref (RecordDoc r) false])
       (set_store (history_set ref r (history w)) (docs w) w)).
Proof. intros H. unfold ogCommit, bind, get. now rewrite H. Qed.

(** The write of the record: the counters are as before, and the record is
    in the history unless the run is a dry run. *)
Lemma record_result_spec (env : Env) (opts : Options) (stats : nat)
    (file : MigrationFile) (rank start finish : Z) (s : bool) (w : World) :
  running opts stats w ->
  exists w',
    record_result env stats file rank start finish s w = (Done tt, w')
    /\ proxied w' = proxied w /\ statsMap w' = statsMap w /\ heap w' = heap w
    /\ docs w' = docs w /\ clock w' = clock w
    /\ history w'
       = (if opt_dryrun opts then history w
          else history_set (record_ref file rank)
                 (record_of env file rank start finish s) (history w))
    /\ events w'
       = (if opt_dryrun opts then events w
          else events w ++ [EvCommit [OpSet (record_ref file rank)
                                        (RecordDoc (record_of env file rank start
                                                      finish s)) false]])%list.
Proof.
  intros [Hp He (st & Hst & Hf)].
  assert (Hlt : (stats < length (heap w))%nat) by (eapply lookup_lt_Some; eassumption).
  unfold record_result, DocumentReference_call, bind.
  rewrite (update_stats_eq _ _ _ _ Hst).
  set (w1 := set_heap (<[stats := with_frozen true st]> (heap w)) w).
  rewrite (WriteBatch_call_own MSet _ _ w1 stats _ Hp He) by reflexivity.
  cbn [original a_doc outcome_of].
  rewrite (commit_own env _ w1 stats _ Hp He) by reflexivity.
  cbn [fireway_queue push_queue new_WriteBatch app drained fold_left
       p_method p_args p_stats p_log].
  set (args := {| a_ref := record_ref file rank;
                  a_doc := Some (RecordDoc (record_of env file rank start finish s));
                  a_merge := false |}).
  set (w2 := called env MSet args stats _ w1).
  assert (Hst1 : heap w1 !! stats = Some (with_frozen true st)).
  { subst w1. simpl. now apply list_lookup_insert_eq. }
  assert (Hh2 : heap w2 = heap w1).
  { subst w2. rewrite (called_heap _ _ _ _ _ _ _ Hst1). simpl.
    now apply list_insert_id. }
  destruct (called_fields env MSet args stats
              (log_debug {| dryrun := opt_dryrun opts; log_debug := debug opts |}) w1)
    as (Hp2 & Hs2 & Hi2 & Hd2 & Hc2 & He2).
  fold w2 in Hp2, Hs2, Hi2, Hd2, Hc2, He2.
  assert (Hfin : <[stats := with_frozen false (with_frozen true st)]> (heap w1) = heap w).
  { subst w1. simpl. rewrite list_insert_insert_eq, with_frozen_id by assumption.
    now apply list_insert_id. }
  cbn [dryrun]. destruct (opt_dryrun opts).
  - rewrite (update_stats_eq stats _ w2 (with_frozen true st)) by congruence.
    eexists. split; [reflexivity|]. cbn. rewrite Hh2, Hfin.
    repeat split; first [reflexivity | etransitivity; [eassumption | reflexivity]].
  - rewrite (ogCommit_record env _ (record_ref file rank)
               (record_of env file rank start finish s)) by reflexivity.
    rewrite (update_stats_eq stats _ _ (with_frozen true st))
      by (cbn; congruence).
    eexists. split; [reflexivity|]. cbn. rewrite Hh2, Hfin.
    repeat split; first [reflexivity | etransitivity; [eassumption | reflexivity]
                        | f_equal; etransitivity; [eassumption | reflexivity]].
Qed.

(** A property of every way a script may end. *)
Inductive every_ending (P : Ending -> Prop) : Script -> Prop :=
| every_finish (e : Ending) : P e -> every_ending P (Finish e)
| every_do (a : Action) (k : Reply -> Script) :
    (forall r, every_ending P (k r)) -> every_ending P (Do a k).

Lemma run_script_ending (env : Env) (P : Ending -> Prop) (stats : nat) (s : Script) :
  every_ending P s ->
  forall (batches : list WriteBatch) (w w' : World) (e : Ending),
    run_script env stats s batches w = (Done e, w') -> P e.
Proof.
  induction 1 as [e He|a k Hk IH]; intros batches w w' e' H.
  - inversion H; now subst.
  - cbn [run_script] in H. unfold bind in H.
    destruct (perform env stats a batches w) as [[[r bs]| |] w1]; try discriminate H.
    eapply IH; eassumption.
Qed.

(** The entry point never settles, or [forceWait] waits for handles that
    never settle: the run does not go on. *)
Definition stuck (fw : bool) (e : Ending) : bool :=
  match settled e with
  | NeverSettles => true
  | _ =>
      match open_handles e with
      | [] => false
      | _ => (fw && negb (handles_settle e))%bool
      end
  end.

(** [success], as [trackAsync] answers it for an entry point that ended
    with [e]. *)
Definition judged (e : Ending) : bool :=
  match rejection e with
  | Some reason =>
      if truthy reason then false
      else match settled e with
           | Resolved => true
           | _ => false
           end
  | None =>
      match settled e with
      | Resolved => true
      | _ => false
      end
  end.

Lemma handleCheck_spec (env : Env) (lg fw : bool) (e : Ending) (w : World) :
  exists w',
    handleCheck env lg fw e w
    = (match open_handles e with
       | [] => Done tt
       | _ => if (fw && negb (handles_settle e))%bool then Blocked else Done tt
       end, w')
    /\ printed w w'.
Proof.
  unfold handleCheck. destruct (open_handles e) as [|h t].
  - exists w. split; [reflexivity | apply printed_refl].
  - destruct fw; simpl.
    + unfold bind. destruct (log_printed lg ["Waiting for async calls to resolve"] w)
        as (w1 & -> & P1).
      exists w1. split; [|assumption]. now destruct (handles_settle e).
    + destruct (12 <=? node_major env).
      * eexists. split; [reflexivity|]. reflexivity.
      * exists w. split; [reflexivity | apply printed_refl].
Qed.

Lemma printed_set_clock (t : Z) (w w' : World) :
  printed w w' -> printed (set_clock t w) (set_clock t w').
Proof. intros ->. reflexivity. Qed.

(** The end of a case of [tracked_spec]: the world [w'] that the case
    reaches, the frame [F] of the script, and the lines printed since. *)
Ltac ends_in w' :=
  exists w'; (split; [reflexivity|]); (split; [reflexivity|]);
  (split; [eassumption|]);
  first [assumption | apply printed_refl | eapply printed_trans; eassumption].

(** The call of one entry point under [trackAsync]: the script runs to its
    end [e] after the event of the call; then the clock moves, lines are
    printed, and the answer is the judgement of [e] unless the run is
    stuck. *)
Lemma tracked_spec (env : Env) (opts : Options) (q : bool) (stats : nat)
    (file : MigrationFile) (m : Script) (w : World) :
  suppressing q stats w -> (q = true -> own_only m) ->
  exists e w1 w',
    run_script env stats m [] (add_event (EvRun (filename file)) w) = (Done e, w1)
    /\ trackAsync env (debug opts) file (forceWait opts)
         (call_migration env opts stats file m) w
       = (if stuck (forceWait opts) e then Blocked else Done (judged e), w')
    /\ frame q (add_event (EvRun (filename file)) w) w1
    /\ printed (set_clock (clock w1 + duration e) w1) w'.
Proof.
  intros Hs Ho.
  destruct (run_script_frame env q stats m [] (add_event (EvRun (filename file)) w))
    as (e & w1 & Hrun & F).
  { intros Hq. destruct (Hs Hq) as (Hp & cfg & Hc & Hd). split; [exact Hp | eauto]. }
  { split; [constructor | intros _; constructor]. }
  { assumption. }
  exists e, w1.
  unfold trackAsync, catch, bind at 1, call_migration, bind at 1, modify at 1.
  unfold bind at 1. rewrite Hrun. unfold bind at 1, modify at 1.
  set (w2 := set_clock (clock w1 + duration e) w1).
  unfold stuck, judged.
  destruct (settled e) as [|err|] eqn:Es.
  - cbn [ret]. unfold bind at 1.
    destruct (handleCheck_spec env (debug opts) (forceWait opts) e w2)
      as (w3 & -> & P3).
    destruct (open_handles e) as [|h t].
    + destruct (rejection e) as [reason|]; [destruct (truthy reason)|].
      * unfold bind.
        destruct (log_printed (debug opts)
                    ["Error in " +:+ filename file; show reason] w3) as (w4 & -> & P4).
        ends_in w4.
      * ends_in w3.
      * ends_in w3.
    + destruct (forceWait opts && negb (handles_settle e))%bool.
      * ends_in w3.
      * destruct (rejection e) as [reason|]; [destruct (truthy reason)|].
        -- unfold bind.
           destruct (log_printed (debug opts)
                       ["Error in " +:+ filename file; show reason] w3)
             as (w4 & -> & P4).
           ends_in w4.
        -- ends_in w3.
        -- ends_in w3.
  - unfold bind at 1.
    destruct (log_printed (debug opts) ["Error in " +:+ filename file; show err] w2)
      as (w2' & -> & P2).
    cbn [ret]. unfold bind at 1.
    destruct (handleCheck_spec env (debug opts) (forceWait opts) e w2')
      as (w3 & -> & P3).
    assert (P23 : printed w2 w3) by (eapply printed_trans; eassumption).
    destruct (open_handles e) as [|h t].
    + destruct (rejection e) as [reason|]; [destruct (truthy reason)|].
      * unfold bind.
        destruct (log_printed (debug opts)
                    ["Error in " +:+ filename file; show reason] w3) as (w4 & -> & P4).
        ends_in w4.
      * ends_in w3.
      * ends_in w3.
    + destruct (forceWait opts && negb (handles_settle e))%bool.
      * ends_in w3.
      * destruct (rejection e) as [reason|]; [destruct (truthy reason)|].
        -- unfold bind.
           destruct (log_printed (debug opts)
                       ["Error in " +:+ filename file; show reason] w3)
             as (w4 & -> & P4).
           ends_in w4.
        -- ends_in w3.
        -- ends_in w3.
  - ends_in w2.
Qed.

(** ** The progress of the loop *)

(** The history after the records [recs] were set, in order; a dry run sets
    none. *)
Definition written (dry : bool) (recs : list (string * HistoryRecord))
    (h : list (string * HistoryRecord)) : list (string * HistoryRecord) :=
  if dry then h else fold_left (fun h x => history_set (fst x) (snd x) h) recs h.

(** From [w] to [w']: the entry points of [names] were called, in order, and
    the records [recs] were written; when [q] holds nothing else happened to
    the documents and the events. *)
Record progress (opts : Options) (q : bool) (names : list string)
    (recs : list (string * HistoryRecord)) (w w' : World) : Prop := {
  p_proxied : proxied w' = proxied w;
  p_statsMap : statsMap w' = statsMap w;
  p_frozen : frozen <$> heap w' = frozen <$> heap w;
  p_history : history w' = written (opt_dryrun opts) recs (history w);
  p_runs : run_names (events w') = (run_names (events w) ++ names)%list;
  p_docs : q = true -> docs w' = docs w;
  p_events : q = true -> events w' = (events w ++ map EvRun names)%list
}.

Lemma written_nil (dry : bool) (h : list (string * HistoryRecord)) :
  written dry [] h = h.
Proof. now destruct dry. Qed.

Lemma written_app (dry : bool) (r1 r2 : list (string * HistoryRecord))
    (h : list (string * HistoryRecord)) :
  written dry (r1 ++ r2) h = written dry r2 (written dry r1 h).
Proof. destruct dry; simpl; [reflexivity | apply fold_left_app]. Qed.

Lemma progress_refl (opts : Options) (q : bool) (w : World) :
  progress opts q [] [] w w.
Proof.
  constructor; try reflexivity.
  - now rewrite written_nil.
  - now rewrite app_nil_r.
  - intros _. simpl. now rewrite app_nil_r.
Qed.

Lemma progress_trans (opts : Options) (q : bool) (n1 n2 : list string)
    (r1 r2 : list (string * HistoryRecord)) (w1 w2 w3 : World) :
  progress opts q n1 r1 w1 w2 -> progress opts q n2 r2 w2 w3 ->
  progress opts q (n1 ++ n2) (r1 ++ r2) w1 w3.
Proof.
  intros [] []. constructor; try congruence.
  - rewrite written_app. congruence.
  - rewrite app_assoc. congruence.
  - intros Hq. rewrite p_docs1, p_docs0; auto.
  - intros Hq. rewrite p_events1, p_events0 by assumption.
    now rewrite map_app, app_assoc.
Qed.

Lemma progress_then (opts : Options) (q : bool) (n : list string)
    (r : list (string * HistoryRecord)) (w1 w2 w3 : World) :
  progress opts q n r w1 w2 -> progress opts q [] [] w2 w3 ->
  progress opts q n r w1 w3.
Proof.
  intros H1 H2. pose proof (progress_trans _ _ _ _ _ _ _ _ _ H1 H2) as H.
  now rewrite !app_nil_r in H.
Qed.

Lemma progress_after (opts : Options) (q : bool) (n : list string)
    (r : list (string * HistoryRecord)) (w1 w2 w3 : World) :
  progress opts q [] [] w1 w2 -> progress opts q n r w2 w3 ->
  progress opts q n r w1 w3.
Proof. intros H1 H2. exact (progress_trans _ _ _ _ _ _ _ _ _ H1 H2). Qed.

Lemma shape_frozen (h h' : list Stats) :
  shape <$> h' = shape <$> h -> frozen <$> h' = frozen <$> h.
Proof.
  intros H.
  assert (E : forall l : list Stats, frozen <$> l = snd <$> (shape <$> l)).
  { intros l. rewrite <- list_fmap_compose. reflexivity. }
  now rewrite !E, H.
Qed.

Lemma frame_progress (opts : Options) (q : bool) (w w' : World) :
  frame q w w' -> progress opts q [] [] w w'.
Proof.
  intros []. constructor; try assumption.
  - now apply shape_frozen.
  - now rewrite written_nil.
  - now rewrite app_nil_r.
  - intros Hq. simpl. rewrite app_nil_r. auto.
Qed.

Lemma printed_progress (opts : Options) (q : bool) (w w' : World) :
  printed w w' -> progress opts q [] [] w w'.
Proof. intros H. now apply frame_progress, printed_frame. Qed.

Lemma logged_progress (opts : Options) (q dbg : bool) (line : list string) (w : World) :
  progress opts q [] [] w (logged dbg line w).
Proof.
  apply printed_progress. unfold logged.
  destruct dbg; [reflexivity | apply printed_refl].
Qed.

Lemma running_progress (opts : Options) (q : bool) (stats : nat) (names : list string)
    (recs : list (string * HistoryRecord)) (w w' : World) :
  running opts stats w -> progress opts q names recs w w' -> running opts stats w'.
Proof.
  intros [Hp He (st & Hst & Hf)] []. constructor; try congruence.
  assert (Hl : (frozen <$> heap w') !! stats = Some false).
  { rewrite p_frozen0, list_lookup_fmap, Hst. simpl. now rewrite Hf. }
  rewrite list_lookup_fmap in Hl.
  destruct (heap w' !! stats) as [st'|]; [|discriminate].
  exists st'. split; [reflexivity|]. simpl in Hl. congruence.
Qed.

Lemma running_suppressing (opts : Options) (q : bool) (stats : nat) (w : World) :
  running opts stats w -> (q = true -> opt_dryrun opts = true) ->
  suppressing q stats w.
Proof.
  intros [Hp He _] Hd Hq. split; [assumption|].
  eexists. split; [eassumption|]. simpl. auto.
Qed.

(** The records of the loop for [files] from [installed_rank] on: one per
    file, in order, the ranks going up by one. *)
Inductive journal (env : Env) : list MigrationFile -> Z ->
    list (string * HistoryRecord) -> Prop :=
| journal_nil (files : list MigrationFile) (rank : Z) : journal env files rank []
| journal_cons (f : MigrationFile) (files : list MigrationFile) (rank : Z)
    (start finish : Z) (s : bool) (recs : list (string * HistoryRecord)) :
    journal env files (rank + 1) recs ->
    journal env (f :: files) rank
      ((record_ref f (rank + 1), record_of env f (rank + 1) start finish s) :: recs).

(** One file of the loop. *)
Lemma run_file_spec (env : Env) (opts : Options) (q : bool) (stats : nat)
    (file : MigrationFile) (rank : Z) (w : World) :
  running opts stats w ->
  (q = true -> opt_dryrun opts = true) ->
  match require env (path file) with
  | Throw err =>
      exists w',
        run_file env opts stats file rank w = (Thrown err, w')
        /\ progress opts q [] [] w w'
  | Ok m =>
      (q = true -> own_only m) ->
      exists e w' start finish,
        (forall P, every_ending P m -> P e)
        /\ run_file env opts stats file rank w
           = (if stuck (forceWait opts) e then Blocked
              else Done (judged e, rank + 1), w')
        /\ progress opts q [filename file]
             (if stuck (forceWait opts) e then []
              else [(record_ref file (rank + 1),
                     record_of env file (rank + 1) start finish (judged e))]) w w'
        /\ (stuck (forceWait opts) e = false -> opt_dryrun opts = false ->
            exists evs,
              events w'
              = (evs ++ [EvCommit [OpSet (record_ref file (rank + 1))
                                     (RecordDoc (record_of env file (rank + 1) start
                                                   finish (judged e))) false]])%list)
  end.
Proof.
  intros Hrun Hq.
  pose proof Hrun as [Hp He (st & Hst & Hf)].
  set (wa := set_heap (<[stats := with_executedFiles (executedFiles st + 1) st]>
                         (heap w)) w).
  set (wb := logged (debug opts) ["Running"; filename file] wa).
  assert (Hstart : forall (A : Type) (k : M A),
             (update_stats stats
                (fun st => with_executedFiles (executedFiles st + 1) st) >>
              log (debug opts) ["Running"; filename file] >> k) w = k wb).
  { intros A k. unfold bind at 1. rewrite (update_stats_eq _ _ _ _ Hst).
    unfold bind at 1. now rewrite log_eq. }
  assert (Pa : progress opts q [] [] w wa).
  { constructor; try reflexivity.
    - simpl. rewrite list_fmap_insert. apply list_insert_id.
      now rewrite list_lookup_fmap, Hst.
    - now rewrite written_nil.
    - now rewrite app_nil_r.
    - intros _. simpl. now rewrite app_nil_r. }
  assert (Pb : progress opts q [] [] w wb).
  { eapply progress_then; [exact Pa | apply logged_progress]. }
  unfold run_file.
  destruct (require env (path file)) as [m|err].
  - intros Ho. rewrite Hstart.
    unfold bind at 1. cbn [ret]. unfold bind at 1, get at 1.
    unfold bind at 1.
    assert (Hrb : running opts stats wb)
      by exact (running_progress _ _ _ _ _ _ _ Hrun Pb).
    destruct (tracked_spec env opts q stats file m wb
                (running_suppressing _ _ _ _ Hrb Hq) Ho)
      as (e & w1 & wc & Hscript & -> & F & Pc).
    exists e.
    assert (Pc' : progress opts q [filename file] [] w wc).
    { eapply progress_after; [exact Pb|].
      eapply progress_then; [eapply progress_then; [eapply progress_then|]|].
      - instantiate (1 := add_event (EvRun (filename file)) wb).
        constructor; try reflexivity.
        + now rewrite written_nil.
        + simpl. now rewrite run_names_app.
      - apply frame_progress. exact F.
      - instantiate (1 := set_clock (clock w1 + duration e) w1).
        constructor; try reflexivity.
        + now rewrite written_nil.
        + now rewrite app_nil_r.
        + intros _. simpl. now rewrite app_nil_r.
      - apply printed_progress. exact Pc. }
    destruct (stuck (forceWait opts) e) eqn:Est.
    + exists wc, 0, 0.
      split; [intros P HP; eapply run_script_ending; eassumption|].
      split; [reflexivity|]. split; [exact Pc'|]. intros Hx. discriminate Hx.
    + unfold bind at 1, get at 1. unfold bind at 1. rewrite log_eq.
      set (wd := logged _ _ wc).
      assert (Pd : progress opts q [filename file] [] w wd).
      { eapply progress_then; [exact Pc' | apply logged_progress]. }
      assert (Hrd : running opts stats wd)
        by exact (running_progress _ _ _ _ _ _ _ Hrun Pd).
      unfold bind at 1.
      destruct (record_result_spec env opts stats file (rank + 1) (clock wb) (clock wc)
                  (judged e) wd Hrd)
        as (we & -> & Hp' & Hs' & Hh' & Hd' & Hc' & Hi' & He').
      exists we, (clock wb), (clock wc).
      split; [intros P HP; eapply run_script_ending; eassumption|].
      split; [reflexivity|]. split.
      * pose proof (progress_trans opts q [filename file] [] []
                      [(record_ref file (rank + 1),
                        record_of env file (rank + 1) (clock wb) (clock wc) (judged e))]
                      w wd we Pd) as Ht.
        rewrite app_nil_r in Ht. apply Ht.
        constructor; try congruence.
        -- rewrite Hi'. unfold written. now destruct (opt_dryrun opts).
        -- rewrite He', app_nil_r. destruct (opt_dryrun opts); [reflexivity|].
           rewrite run_names_app. simpl. now rewrite app_nil_r.
        -- intros Hq'. rewrite He', (Hq Hq'). simpl. now rewrite app_nil_r.
      * intros _ Hdry. rewrite He', Hdry. eauto.
  - rewrite Hstart. unfold bind at 1. unfold bind at 1. rewrite log_eq. cbn [throw].
    eexists. split; [reflexivity|].
    eapply progress_then; [exact Pb | apply logged_progress].
Qed.

(** ** The loop *)

(** The loop over [files]: the entry points of the first [k] files were
    called, the records [recs] were written as the journal says, and [k] is
    the number of records or one more; a loop that ends called them all. *)
Lemma run_files_spec (env : Env) (opts : Options) (q : bool) (stats : nat)
    (files : list MigrationFile) :
  forall (rank : Z) (w : World),
    running opts stats w ->
    (q = true -> opt_dryrun opts = true) ->
    (q = true -> forall f m, In f files -> require env (path f) = Ok m -> own_only m) ->
    exists r w' k recs,
      run_files env opts stats files rank w = (r, w')
      /\ progress opts q (map filename (firstn k files)) recs w w'
      /\ journal env files rank recs
      /\ (length recs <= k <= S (length recs))%nat
      /\ (k <= length files)%nat
      /\ (r = Done tt -> k = length files /\ length recs = length files
                         /\ running opts stats w').
Proof.
  induction files as [|f rest IH]; intros rank w Hrun Hq Hown.
  - exists (Done tt), w, 0%nat, []. split; [reflexivity|].
    split; [apply progress_refl|]. split; [constructor|].
    split; [simpl; lia|]. split; [simpl; lia|]. intros _.
    split; [reflexivity|]. split; [reflexivity | exact Hrun].
  - cbn [run_files]. unfold bind at 1.
    pose proof (run_file_spec env opts q stats f rank w Hrun Hq) as Hf.
    destruct (require env (path f)) as [m|err] eqn:Ereq.
    + destruct Hf as (e & w1 & start & finish & Hend & -> & P1 & Hlast).
      { intros Hq'. eapply Hown; [assumption | now left | eassumption]. }
      destruct (stuck (forceWait opts) e) eqn:Est.
      * exists Blocked, w1, 1%nat, []. split; [reflexivity|].
        split; [exact P1|]. split; [constructor|].
        split; [simpl; lia|]. split; [simpl; lia|]. discriminate.
      * destruct (judged e) eqn:Ej; cbn [negb].
        -- assert (Hrun1 : running opts stats w1)
             by exact (running_progress _ _ _ _ _ _ _ Hrun P1).
           destruct (IH (rank + 1) w1 Hrun1 Hq) as (r & w2 & k & recs & -> & P2 & J & Hk & Hkl & Hd).
           { intros Hq' g mg Hg. apply Hown; [assumption | now right]. }
           exists r, w2, (S k), ((record_ref f (rank + 1),
                                   record_of env f (rank + 1) start finish true) :: recs).
           split; [reflexivity|]. split.
           { exact (progress_trans _ _ _ _ _ _ _ _ _ P1 P2). }
           split; [now constructor|].
           split; [simpl; lia|]. split; [simpl; lia|].
           intros Hr. destruct (Hd Hr) as (-> & Hl & Hr2). simpl.
           split; [lia|]. split; [lia | assumption].
        -- exists (Thrown "Stopped at first failure"), w1, 1%nat,
             [(record_ref f (rank + 1), record_of env f (rank + 1) start finish false)].
           split; [reflexivity|]. split; [exact P1|].
           split; [repeat constructor|].
           split; [simpl; lia|]. split; [simpl; lia|]. discriminate.
    + destruct Hf as (w1 & -> & P1).
      exists (Thrown err), w1, 0%nat, []. split; [reflexivity|].
      split; [exact P1|]. split; [constructor|].
      split; [simpl; lia|]. split; [simpl; lia|]. discriminate.
Qed.

(** ** [migrate] up to the loop *)

(** What [prepare] answers: the files to run, [installed_rank], and the
    files that the scan accepted. *)
Definition prepare_pure (env : Env) (opts : Options)
    (h : list (string * HistoryRecord))
  : Result (list MigrationFile * Z * list MigrationFile) :=
  rbind (match req opts with
         | Some r =>
             match require env r with
             | Ok _ => Ok tt
             | Throw _ => Throw ("Trouble executing require('" +:+ r +:+ "');")
             end
         | None => Ok tt
         end) (fun _ =>
  if negb (exists_ env (directory_of env opts))
  then Throw ("No directory at " +:+ directory_of env opts)
  else
    rbind (scan_pure env (directory_of env opts) ∅
             (filenames_in env (directory_of env opts))) (fun scanned =>
    rbind (collaborators env) (fun _ =>
    rbind (match get_latest h with
           | Some l =>
               if negb (success l)
               then Throw ("Migration to version " +:+ hr_version l +:+ " using "
                           +:+ script l
                           +:+ " failed! Please restore backups and roll back database and code!")
               else Ok tt
           | None => Ok tt
           end) (fun _ =>
    rbind (pending_files (get_latest h) scanned) (fun '(files, rank) =>
    Ok (files, rank, scanned)))))).

(** From [w] to [w'] nothing of the database, the events and the clock
    changed. *)
Definition untouched (w w' : World) : Prop :=
  history w' = history w /\ docs w' = docs w /\ events w' = events w
  /\ clock w' = clock w.

Lemma lookup_fresh (h : list Stats) (st : Stats) :
  ((h ++ [st])%list : list Stats) !! List.length h = Some st.
Proof. rewrite lookup_app_r by lia. now rewrite Nat.sub_diag. Qed.

Lemma prepare_eq (env : Env) (opts : Options) (w : World) :
  exists w',
    prepare env opts w
    = (outcome_of (rbind (prepare_pure env opts (history w))
                     (fun '(files, rank, _) => Ok (List.length (heap w), files, rank))), w')
    /\ untouched w w'
    /\ (forall files rank scanned,
          prepare_pure env opts (history w) = Ok (files, rank, scanned) ->
          running opts (List.length (heap w)) w'
          /\ heap w' !! List.length (heap w)
             = Some (with_scannedFiles (Z.of_nat (length scanned)) new_stats)).
Proof.
  unfold prepare, prepare_pure.
  unfold bind at 1.
  assert (Hpre : exists w1,
             match req opts with
             | Some r =>
                 match require env r with
                 | Ok _ => ret ()
                 | Throw e =>
                     print ConsoleError [e] >>
                     throw ("Trouble executing require('" +:+ r +:+ "');")
                 end
             | None => ret ()
             end w
             = (outcome_of match req opts with
                           | Some r =>
                               match require env r with
                               | Ok _ => Ok tt
                               | Throw _ =>
                                   Throw ("Trouble executing require('" +:+ r +:+ "');")
                               end
                           | None => Ok tt
                           end, w1)
             /\ printed w w1).
  { destruct (req opts) as [r|]; [destruct (require env r)|];
      eexists; (split; [reflexivity|]); try apply printed_refl. reflexivity. }
  destruct Hpre as (w1 & -> & P1).
  destruct (match req opts with
            | Some r => _
            | None => _
            end) as [[]|e0]; cbn [outcome_of rbind].
  2:{ exists w1. split; [reflexivity|]. split; [|discriminate].
      rewrite P1. now repeat split. }
  assert (Hh1 : heap w1 = heap w) by (rewrite P1; reflexivity).
  unfold bind at 1, get at 1. unfold bind at 1, modify at 1. rewrite Hh1.
  set (w2 := set_heap (heap w ++ [new_stats]) w1).
  unfold bind at 1.
  destruct (exists_ env (directory_of env opts)); cbn [negb throw ret].
  2:{ exists w2. split; [reflexivity|]. split; [|discriminate].
      subst w2. rewrite P1. now repeat split. }
  unfold bind at 1.
  destruct (parse_filenames_pure env (debug opts) (directory_of env opts)
              (filenames_in env (directory_of env opts)) ∅ w2)
    as (w3 & -> & P3).
  { intros k x Hx. now rewrite lookup_empty in Hx. }
  destruct (scan_pure env (directory_of env opts) ∅
              (filenames_in env (directory_of env opts))) as [scanned|e1];
    cbn [outcome_of rbind].
  2:{ exists w3. split; [reflexivity|]. split; [|discriminate].
      rewrite P3. subst w2. rewrite P1. now repeat split. }
  assert (Hst3 : heap w3 !! List.length (heap w) = Some new_stats).
  { rewrite P3. subst w2. simpl. apply lookup_fresh. }
  unfold bind at 1. rewrite (update_stats_eq _ _ _ _ Hst3).
  unfold bind at 1. rewrite log_eq.
  unfold bind at 1, modify at 1.
  unfold bind at 1.
  match goal with
  | |- context [(if opt_dryrun opts then log ?d ?l else ret ()) ?x] =>
      assert (Hdry : (if opt_dryrun opts then log d l else ret ()) x
                     = (Done tt, if opt_dryrun opts then logged d l x else x))
        by (destruct (opt_dryrun opts); [apply log_eq | reflexivity]);
      rewrite Hdry; clear Hdry
  end.
  unfold bind at 1.
  match goal with
  | |- context [proxyWritableMethods ?x] =>
      assert (Hpx : proxyWritableMethods x
                    = (Done tt, if proxied x then x else set_proxied true x))
        by (unfold proxyWritableMethods, bind, get, modify; now destruct (proxied x));
      rewrite Hpx; clear Hpx
  end.
  unfold bind at 1.
  match goal with
  | |- context [lift (collaborators env) ?x] =>
      set (w8 := x)
  end.
  assert (F8 : untouched w w8 /\ proxied w8 = true
               /\ statsMap w8 !! List.length (heap w)
                  = Some {| dryrun := opt_dryrun opts; log_debug := debug opts |}
               /\ heap w8 = <[List.length (heap w) :=
                                with_scannedFiles (Z.of_nat (length scanned)) new_stats]>
                              (heap w3)).
  { subst w8. rewrite P3. subst w2. rewrite P1. unfold untouched, logged.
    split; [|split; [|split]].
    - destruct (debug opts), (opt_dryrun opts); cbn; destruct (proxied w);
        now repeat split.
    - destruct (debug opts), (opt_dryrun opts); cbn; destruct (proxied w) eqn:E;
        cbn; auto.
    - destruct (debug opts), (opt_dryrun opts); cbn; destruct (proxied w);
        cbn; apply lookup_insert_eq.
    - destruct (debug opts), (opt_dryrun opts); cbn; destruct (proxied w);
        reflexivity. }
  destruct F8 as (U8 & Hp8 & He8 & Hh8).
  destruct (collaborators env) as [[]|e2]; cbn [lift throw ret outcome_of rbind].
  2:{ exists w8. split; [reflexivity|]. split; [assumption | discriminate]. }
  unfold bind at 1, get at 1.
  destruct U8 as (Hi8 & Hd8 & Hv8 & Hc8). rewrite Hi8.
  assert (Hfinal : forall w9, printed w8 w9 ->
             untouched w w9
             /\ running opts (List.length (heap w)) w9
             /\ heap w9 !! List.length (heap w)
                = Some (with_scannedFiles (Z.of_nat (length scanned)) new_stats)).
  { intros w9 ->. cbn. unfold untouched. cbn.
    assert (Hl : heap w8 !! List.length (heap w)
                 = Some (with_scannedFiles (Z.of_nat (length scanned)) new_stats)).
    { rewrite Hh8. apply list_lookup_insert_eq. eapply lookup_lt_Some; eassumption. }
    split; [now repeat split|]. split; [|assumption].
    constructor; cbn; try assumption. eexists. split; [eassumption | reflexivity]. }
  unfold bind at 1.
  destruct (get_latest (history w)) as [l|] eqn:El.
  - destruct (success l) eqn:Es; cbn [negb throw ret outcome_of rbind].
    + unfold bind at 1.
      destruct (pending_files (Some l) scanned) as [[files rank]|e3];
        cbn [lift throw ret outcome_of rbind].
      * unfold bind at 1. rewrite log_eq. cbn [ret].
        eexists. split; [reflexivity|].
        destruct (Hfinal (logged (debug opts)
                            ["Executing " +:+ string_of_Z (Z.of_nat (length files))
                             +:+ " migration files"] w8)) as (U & R & H).
        { unfold logged. destruct (debug opts); [reflexivity | apply printed_refl]. }
        split; [assumption|]. intros f r s [= <- <- <-]. now split.
      * exists w8. split; [reflexivity|]. split; [now repeat split | discriminate].
    + exists w8. split; [reflexivity|]. split; [now repeat split | discriminate].
  - cbn [ret outcome_of rbind]. unfold bind at 1.
    destruct (pending_files None scanned) as [[files rank]|e3];
      cbn [lift throw ret outcome_of rbind].
    + unfold bind at 1. rewrite log_eq. cbn [ret].
      eexists. split; [reflexivity|].
      destruct (Hfinal (logged (debug opts)
                          ["Executing " +:+ string_of_Z (Z.of_nat (length files))
                           +:+ " migration files"] w8)) as (U & R & H).
      { unfold logged. destruct (debug opts); [reflexivity | apply printed_refl]. }
      split; [assumption|]. intros f r s [= <- <- <-]. now split.
    + exists w8. split; [reflexivity|]. split; [now repeat split | discriminate].
Qed.

(** ** The whole run *)

(** What a run did to the database and the events between [w] and [w']. *)
Record effects (opts : Options) (q : bool) (names : list string)
    (recs : list (string * HistoryRecord)) (w w' : World) : Prop := {
  e_history : history w' = written (opt_dryrun opts) recs (history w);
  e_runs : run_names (events w') = (run_names (events w) ++ names)%list;
  e_docs : q = true -> docs w' = docs w;
  e_events : q = true -> events w' = (events w ++ map EvRun names)%list
}.

Lemma untouched_effects (opts : Options) (q : bool) (w w' : World) :
  untouched w w' -> effects opts q [] [] w w'.
Proof.
  intros (Hh & Hd & He & _). constructor.
  - now rewrite written_nil.
  - now rewrite He, app_nil_r.
  - auto.
  - intros _. simpl. now rewrite app_nil_r.
Qed.

Lemma progress_effects (opts : Options) (q : bool) (names : list string)
    (recs : list (string * HistoryRecord)) (w w' : World) :
  progress opts q names recs w w' -> effects opts q names recs w w'.
Proof. intros []. now constructor. Qed.

Lemma effects_trans (opts : Options) (q : bool) (n1 n2 : list string)
    (r1 r2 : list (string * HistoryRecord)) (w1 w2 w3 : World) :
  effects opts q n1 r1 w1 w2 -> effects opts q n2 r2 w2 w3 ->
  effects opts q (n1 ++ n2) (r1 ++ r2) w1 w3.
Proof.
  intros [] []. constructor.
  - rewrite written_app. congruence.
  - rewrite app_assoc. congruence.
  - intros Hq. rewrite e_docs1, e_docs0; auto.
  - intros Hq. rewrite e_events1, e_events0 by assumption.
    now rewrite map_app, app_assoc.
Qed.

Lemma finish_spec (opts : Options) (stats : nat) (w : World) :
  exists w',
    finish opts stats w = (Done (default new_stats (heap w !! stats)), w')
    /\ untouched w w' /\ heap w' = heap w.
Proof.
  unfold finish, bind, get. rewrite !log_eq. unfold modify, ret.
  eexists. split; [reflexivity|]. unfold untouched, logged.
  destruct (debug opts); cbn; now repeat split.
Qed.

(** A run, from its start: when [prepare] answers [files], the loop calls
    the entry points of the first [k] of them in order and writes the
    records of a journal; otherwise nothing is run and nothing written. *)
Lemma migrate_spec (env : Env) (opts : Options) (q : bool) (w : World) :
  (q = true -> opt_dryrun opts = true) ->
  match prepare_pure env opts (history w) with
  | Throw e =>
      exists w', migrate env opts w = (Thrown e, w') /\ untouched w w'
  | Ok (files, rank, scanned) =>
      (q = true -> forall f m, In f files -> require env (path f) = Ok m -> own_only m) ->
      exists r w' k recs,
        migrate env opts w = (r, w')
        /\ effects opts q (map filename (firstn k files)) recs w w'
        /\ journal env files rank recs
        /\ (List.length recs <= k <= S (List.length recs))%nat
        /\ (k <= List.length files)%nat
        /\ (forall st, r = Done st ->
              k = List.length files /\ List.length recs = List.length files)
  end.
Proof.
  intros Hq.
  destruct (prepare_eq env opts w) as (w1 & Hprep & U1 & Hrun).
  destruct (prepare_pure env opts (history w)) as [[[files rank] scanned]|e];
    cbn [rbind outcome_of] in Hprep.
  - intros Hown. destruct (Hrun _ _ _ eq_refl) as (Hr1 & _).
    unfold migrate. unfold bind at 1. rewrite Hprep.
    cbn [fst snd]. unfold bind at 1.
    destruct (run_files_spec env opts q (List.length (heap w)) files rank w1 Hr1 Hq Hown)
      as (r & w2 & k & recs & -> & P & J & Hk & Hkl & Hd).
    assert (E2 : effects opts q (map filename (firstn k files)) recs w w2).
    { pose proof (effects_trans opts q [] _ [] _ w w1 w2
                    (untouched_effects _ _ _ _ U1) (progress_effects _ _ _ _ _ _ P)) as H.
      exact H. }
    destruct r as [[]| |].
    + destruct (finish_spec opts (List.length (heap w)) w2) as (w3 & -> & U3 & _).
      eexists _, w3, k, recs. split; [reflexivity|]. split.
      * pose proof (effects_trans opts q _ [] _ [] w w2 w3 E2
                      (untouched_effects _ _ _ _ U3)) as H.
        now rewrite !app_nil_r in H.
      * split; [assumption|]. split; [assumption|]. split; [assumption|].
        intros st _. destruct (Hd eq_refl) as (? & ? & _). now split.
    + eexists _, w2, k, recs. split; [reflexivity|]. split; [assumption|].
      split; [assumption|]. split; [assumption|]. split; [assumption|]. discriminate.
    + eexists _, w2, k, recs. split; [reflexivity|]. split; [assumption|].
      split; [assumption|]. split; [assumption|]. split; [assumption|]. discriminate.
  - exists w1. unfold migrate. unfold bind at 1. rewrite Hprep.
    split; [reflexivity | assumption].
Qed.

(** ** The files to run: filter and sort *)

(** A file whose version is canonical: the scan makes no other. *)
Definition canonical_file (f : MigrationFile) : Prop :=
  exists c, canonical (version f) c.

(** The rank of the version of a file in the order of [semver]. *)
Definition vkey (f : MigrationFile) : Z :=
  match Semver.SemVer_new (version f) with
  | Ok c => key c
  | Throw _ => 0
  end.




Definition key_lt (f g : MigrationFile) : Prop := vkey f < vkey g.







Lemma candidate_canonical (f v : string) :
  candidate_version f = Some v ->
  exists c, Semver.coerce (version_token f) = Some c /\ v = Semver.version c
            /\ canonical v c.
Proof.
  unfold candidate_version. destruct (first_is_dot f); [discriminate|].
  destruct (Semver.coerce (version_token f)) as [c|] eqn:E; [|discriminate].
  destruct (present (description_token f)); [|discriminate].
  intros [= <-]. exists c. split; [reflexivity|]. split; [reflexivity|].
  eapply coerce_canonical; eassumption.
Qed.

Lemma candidates_spec (fns : list string) (f v : string) :
  In (f, v) (candidates fns) <-> In f fns /\ candidate_version f = Some v.
Proof.
  unfold candidates. rewrite <- !list_elem_of_In, list_elem_of_omap. split.
  - intros (x & Hx & Hc). destruct (candidate_version x) as [vx|] eqn:E; [|discriminate].
    simpl in Hc. inversion Hc; subst. now split.
  - intros [Hf Hc]. exists f. split; [assumption|]. now rewrite Hc.
Qed.

(** The files of a scan: each stands for an accepted name of the listing,
    under its canonical version. *)
Lemma scanned_files (env : Env) (directory : string) (fns : list string)
    (scanned : list MigrationFile) :
  scan_pure env directory ∅ fns = Ok scanned ->
  Forall (fun f => In (filename f) fns
                   /\ candidate_version (filename f) = Some (version f)
                   /\ canonical_file f) scanned
  /\ NoDup (map version scanned).
Proof.
  intros H. apply scan_pure_ok in H as (-> & Hnd & _ & _). split; [|assumption].
  apply Forall_forall. intros f Hf.
  apply list_elem_of_In, in_map_iff in Hf as ([n v] & <- & Hin).
  apply candidates_spec in Hin as [Hn Hc]. simpl.
  split; [assumption|]. split; [assumption|].
  destruct (candidate_canonical _ _ Hc) as (c & _ & _ & Hcan). now exists c.
Qed.




Lemma prepare_pure_ok (env : Env) (opts : Options) (h : list (string * HistoryRecord))
    (files scanned : list MigrationFile) (rank : Z) :
  prepare_pure env opts h = Ok (files, rank, scanned) ->
  scan_pure env (directory_of env opts) ∅ (filenames_in env (directory_of env opts))
  = Ok scanned
  /\ collaborators env = Ok tt
  /\ (forall l, get_latest h = Some l -> success l = true)
  /\ pending_files (get_latest h) scanned = Ok (files, rank).
Proof.
  unfold prepare_pure. intros H.
  destruct (match req opts with
            | Some r => _
            | None => _
            end) as [[]|]; [|discriminate H].
  cbn [rbind] in H.
  destruct (negb (exists_ env (directory_of env opts))); [discriminate H|].
  destruct (scan_pure env (directory_of env opts) ∅ _) as [s|] eqn:Escan;
    [|discriminate H].
  cbn [rbind] in H.
  destruct (collaborators env) as [[]|]; [|discriminate H].
  cbn [rbind] in H.
  destruct (get_latest h) as [l|] eqn:El.
  - destruct (success l) eqn:Es; [|discriminate H]. cbn [negb rbind] in H.
    destruct (pending_files (Some l) s) as [[fs rk]|] eqn:Ep; [|discriminate H].
    cbn [rbind] in H. inversion H; subst.
    split; [reflexivity|]. split; [reflexivity|]. split; [|assumption].
    now intros l' [= <-].
  - cbn [rbind] in H.
    destruct (pending_files None s) as [[fs rk]|] eqn:Ep; [|discriminate H].
    cbn [rbind] in H. inversion H; subst.
    split; [reflexivity|]. split; [reflexivity|]. split; [|assumption].
    discriminate.
Qed.

(** ** The order of the listing does not matter *)








(** ** When [migrate] throws before the loop *)

Lemma scan_pure_malformed (env : Env) (directory : string) (filenames : list string)
    (versionToFile : gmap string string) (f : string) :
  In f filenames -> malformed f = true ->
  exists e, scan_pure env directory versionToFile filenames = Throw e.
Proof.
  intros Hin Hm.
  destruct (scan_pure env directory versionToFile filenames) as [files|e] eqn:E; [|eauto].
  exfalso. apply scan_pure_ok in E as (_ & _ & _ & Hall).
  rewrite Forall_forall in Hall.
  specialize (Hall f (proj2 (list_elem_of_In _ _) Hin)). congruence.
Qed.

(** [require(req)] succeeds, or there is none to load. *)
Definition preloaded (env : Env) (opts : Options) : bool :=
  match req opts with
  | Some r =>
      match require env r with
      | Ok _ => true
      | Throw _ => false
      end
  | None => true
  end.

(** A scan that throws stops [migrate] before the loop, with the error of
    the scan when the scan was reached. *)
Lemma prepare_pure_scan (env : Env) (opts : Options)
    (h : list (string * HistoryRecord)) (e : string) :
  scan_pure env (directory_of env opts) ∅ (filenames_in env (directory_of env opts))
  = Throw e ->
  exists e',
    prepare_pure env opts h = Throw e'
    /\ (preloaded env opts = true -> exists_ env (directory_of env opts) = true ->
        e' = e).
Proof.
  intros Hs. unfold prepare_pure, preloaded. rewrite Hs.
  destruct (req opts) as [r|]; [destruct (require env r)|]; cbn [rbind];
    try (eexists; split; [reflexivity | discriminate]);
    destruct (exists_ env (directory_of env opts)); cbn [negb rbind];
    eexists; (split; [reflexivity|]); intros; congruence.
Qed.

(** The message of [migrate] for a latest record that failed. *)
Definition failed_message (l : HistoryRecord) : string :=
  "Migration to version " +:+ hr_version l +:+ " using " +:+ script l
  +:+ " failed! Please restore backups and roll back database and code!".

(** A latest record that failed stops [migrate] before the loop. *)
Lemma prepare_pure_failed (env : Env) (opts : Options)
    (h : list (string * HistoryRecord)) (l : HistoryRecord) :
  get_latest h = Some l -> success l = false ->
  exists e,
    prepare_pure env opts h = Throw e
    /\ (forall scanned,
          preloaded env opts = true -> exists_ env (directory_of env opts) = true ->
          scan_pure env (directory_of env opts) ∅
            (filenames_in env (directory_of env opts)) = Ok scanned ->
          collaborators env = Ok tt ->
          e = failed_message l).
Proof.
  intros Hl Hs. unfold prepare_pure, preloaded, failed_message. rewrite Hl, Hs.
  destruct (req opts) as [r|]; [destruct (require env r)|]; cbn [rbind];
    try (eexists; split; [reflexivity | discriminate]);
    destruct (exists_ env (directory_of env opts)); cbn [negb rbind];
    try (eexists; split; [reflexivity | discriminate]);
    destruct (scan_pure env (directory_of env opts) ∅
                (filenames_in env (directory_of env opts))) as [sc|e1]; cbn [rbind];
    try (eexists; split; [reflexivity | discriminate]);
    destruct (collaborators env) as [[]|e2]; cbn [rbind];
    eexists; (split; [reflexivity|]); intros; congruence.
Qed.

(** When [prepare] throws, so does [migrate], and nothing has happened to
    the database. *)
Lemma migrate_throws (env : Env) (opts : Options) (w : World) (e : string) :
  prepare_pure env opts (history w) = Throw e ->
  exists w', migrate env opts w = (Thrown e, w') /\ untouched w w'.
Proof.
  intros H.
  pose proof (migrate_spec env opts false w (fun Hq => False_ind _ (diff_false_true Hq)))
    as Hm.
  now rewrite H in Hm.
Qed.


(** * The claims of the specification *)

(** ** File names *)

(** C9, as the code has it. The callback, on a file name [f] that does not
    start with a dot and whose version token (the text before the first
    double underscore) coerces to [c]: when the second piece of
    [f.split('__')] is missing or empty, it throws "This filename doesn't
    match the required format", and a run whose listing has [f] throws and
    leaves the database as it was; otherwise it answers the file with the
    version of [c] and with the second piece less its extension as
    description, unless an earlier file has this version. *)
Theorem parse_filename_coercible (env : Env) (dbg : bool) (directory : string)
    (versionToFile : gmap string string) (f : string) (c : Semver.SemVer) (w : World) :
  first_is_dot f = false ->
  Semver.coerce (version_token f) = Some c ->
  (forall k x, versionToFile !! k = Some x -> x <> "") ->
  if present (description_token f) then
    match versionToFile !! Semver.version c with
    | None =>
        parse_filename env dbg directory versionToFile f w
        = (Done (Some {| filename := f;
                         path := path_join env directory f;
                         version := Semver.version c;
                         description :=
                           Path.basename (default "" (description_token f))
                             (Path.extname (default "" (description_token f))) |},
                 <[Semver.version c := f]> versionToFile), w)
    | Some existing =>
        parse_filename env dbg directory versionToFile f w
        = (Thrown ("Both " +:+ f +:+ " and " +:+ existing +:+ " have the same version"), w)
    end
  else
    parse_filename env dbg directory versionToFile f w
    = (Thrown ("This filename doesn't match the required format: " +:+ f), w)
    /\ forall (opts : Options) (w0 : World),
         In f (filenames_in env (directory_of env opts)) ->
         exists e w', migrate env opts w0 = (Thrown e, w') /\ untouched w0 w'.
Proof.
  intros Hdot Hc Hne.
  pose proof (parse_filename_cases env dbg directory versionToFile f w Hne) as H.
  unfold candidate_version, malformed in H. rewrite Hdot, Hc in H.
  destruct (present (description_token f)) eqn:Hp; cbn [negb andb] in H.
  - exact H.
  - split; [exact H|]. intros opts w0 Hin.
    assert (Hm : malformed f = true).
    { unfold malformed. now rewrite Hdot, Hc, Hp. }
    destruct (scan_pure_malformed env (directory_of env opts) _ ∅ f Hin Hm) as (e & He).
    destruct (prepare_pure_scan env opts (history w0) e He) as (e' & He' & _).
    destruct (migrate_throws env opts w0 e' He') as (w' & Hr & Hu).
    now exists e', w'.
Qed.

(** The file name of the specification: its description is [add]. *)
Lemma parse_filename_coercible_witness :
  parse_filename Sample.two_pass false "/m" ∅ "1.0.0__add__users.js" Sample.fresh
  = (Done (Some {| filename := "1.0.0__add__users.js";
                   path := "/m/1.0.0__add__users.js";
                   version := "1.0.0";
                   description := "add" |},
           <["1.0.0" := "1.0.0__add__users.js"]> ∅), Sample.fresh).
Proof.
  refine (parse_filename_coercible Sample.two_pass false "/m" ∅ "1.0.0__add__users.js"
            {| Semver.major := 1; Semver.minor := 0; Semver.patch := 0;
               Semver.prerelease := []; Semver.build := [] |}
            Sample.fresh eq_refl eq_refl _).
  intros k x H. rewrite lookup_empty in H. discriminate H.
Defined.

(** C9, as the specification has it, does not hold: the description of
    [1.0.0__add__users.js] is [add], the text up to the second double
    underscore, and not [add__users]. *)
Lemma description_counterexample :
  exists file versionToFile,
    Semver.coerce (version_token "1.0.0__add__users.js") <> None
    /\ description_token "1.0.0__add__users.js" = Some "add"
    /\ parse_filename Sample.two_pass false "/m" ∅ "1.0.0__add__users.js" Sample.fresh
       = (Done (Some file, versionToFile), Sample.fresh)
    /\ version file = "1.0.0"
    /\ description file = "add"
    /\ description file <> "add__users".
Proof.
  eexists _, _. split; [discriminate|]. split; [reflexivity|].
  split; [reflexivity|]. split; [reflexivity|]. split; [reflexivity | discriminate].
Qed.

(** ** Runs that abort before the loop *)




(** C2. When the latest record of the history has [success = false],
    [migrate] throws and leaves the database and the events as they were,
    whatever the directory holds: no entry point is called and no record is
    written. When the scan and the collaborators were passed, the error is
    the message that asks to restore and roll back. *)
Theorem failed_latest_aborts (env : Env) (opts : Options) (w : World)
    (l : HistoryRecord) :
  get_latest (history w) = Some l -> success l = false ->
  exists e w',
    migrate env opts w = (Thrown e, w')
    /\ untouched w w'
    /\ (forall scanned,
          preloaded env opts = true -> exists_ env (directory_of env opts) = true ->
          scan_pure env (directory_of env opts) ∅
            (filenames_in env (directory_of env opts)) = Ok scanned ->
          collaborators env = Ok tt ->
          e = "Migration to version " +:+ hr_version l +:+ " using " +:+ script l
              +:+ " failed! Please restore backups and roll back database and code!").
Proof.
  intros Hl Hs.
  destruct (prepare_pure_failed env opts (history w) l Hl Hs) as (e & He & Hmsg).
  destruct (migrate_throws env opts w e He) as (w' & Hr & Hu).
  exists e, w'. split; [assumption|]. split; [assumption|]. exact Hmsg.
Qed.

Lemma failed_latest_aborts_witness :
  exists e w',
    migrate Sample.two_pass (Sample.options false false) Sample.after_failure
    = (Thrown e, w')
    /\ untouched Sample.after_failure w'
    /\ (forall scanned,
          preloaded Sample.two_pass (Sample.options false false) = true ->
          exists_ Sample.two_pass
            (directory_of Sample.two_pass (Sample.options false false)) = true ->
          scan_pure Sample.two_pass
            (directory_of Sample.two_pass (Sample.options false false)) ∅
            (filenames_in Sample.two_pass
               (directory_of Sample.two_pass (Sample.options false false))) = Ok scanned ->
          collaborators Sample.two_pass = Ok tt ->
          e = "Migration to version " +:+ hr_version Sample.failed_record +:+ " using "
              +:+ script Sample.failed_record
              +:+ " failed! Please restore backups and roll back database and code!").
Proof.
  exact (failed_latest_aborts Sample.two_pass (Sample.options false false)
           Sample.after_failure Sample.failed_record eq_refl eq_refl).
Defined.

(** ** Versions *)



(** ** The files that a run executes *)

(** When [prepare] answers, and only then, every step before the loop has
    succeeded. *)
Lemma prepare_pure_iff (env : Env) (opts : Options) (h : list (string * HistoryRecord))
    (files scanned : list MigrationFile) (rank : Z) :
  prepare_pure env opts h = Ok (files, rank, scanned)
  <-> preloaded env opts = true
      /\ exists_ env (directory_of env opts) = true
      /\ scan_pure env (directory_of env opts) ∅
           (filenames_in env (directory_of env opts)) = Ok scanned
      /\ collaborators env = Ok tt
      /\ (forall l, get_latest h = Some l -> success l = true)
      /\ pending_files (get_latest h) scanned = Ok (files, rank).
Proof.
  split.
  - intros H.
    pose proof (prepare_pure_ok env opts h files scanned rank H) as (Hs & Hc & Hl & Hp).
    assert (Hfirst : preloaded env opts = true
                     /\ exists_ env (directory_of env opts) = true).
    { unfold prepare_pure in H. unfold preloaded.
      destruct (req opts) as [r|]; [destruct (require env r)|]; cbn [rbind] in H;
        try discriminate H;
        (destruct (exists_ env (directory_of env opts)); [now split | discriminate H]). }
    destruct Hfirst as [Hpre Hdir]. now repeat split.
  - intros (Hp & Hd & Hs & Hc & Hl & Hpend).
    unfold prepare_pure. unfold preloaded in Hp.
    destruct (req opts) as [r|]; [destruct (require env r); [|discriminate Hp]|];
      cbn [rbind]; rewrite Hd; cbn [negb]; rewrite Hs; cbn [rbind];
      rewrite Hc; cbn [rbind];
      (destruct (get_latest h) as [l|]; [rewrite (Hl l eq_refl)|]);
      cbn [negb rbind]; rewrite Hpend; reflexivity.
Qed.






(** ** The ranks of the records *)

(** [installed_rank] before the loop: the rank of the latest record, or
    [-1] on an empty history. *)
Definition rank_of_latest (h : list (string * HistoryRecord)) : Z :=
  match get_latest h with
  | Some l => installed_rank l
  | None => -1
  end.







(** A run of two files on an empty history sets the ranks 0 and 1. *)
Example two_ranks :
  map (fun x => installed_rank (snd x))
    (history (snd (migrate Sample.two_pass (Sample.options false false) Sample.fresh)))
  = [0; 1].
Proof. vm_compute. reflexivity. Qed.

(** ** A migration that fails *)

(** A run that reaches its loop: [migrate] is the loop and the summary,
    from a world that differs from the first one by the console and the
    variables of the module only, where the stats of the run are new. *)
Lemma migrate_loop (env : Env) (opts : Options) (w : World)
    (files scanned : list MigrationFile) (rank : Z) :
  prepare_pure env opts (history w) = Ok (files, rank, scanned) ->
  exists w1,
    untouched w w1
    /\ running opts (List.length (heap w)) w1
    /\ heap w1 !! List.length (heap w)
       = Some (with_scannedFiles (Z.of_nat (List.length scanned)) new_stats)
    /\ migrate env opts w
       = (run_files env opts (List.length (heap w)) files rank >>
          finish opts (List.length (heap w))) w1.
Proof.
  intros H. destruct (prepare_eq env opts w) as (w1 & Hprep & U & Hrun).
  rewrite H in Hprep. cbn [rbind outcome_of] in Hprep.
  destruct (Hrun files rank scanned H) as [R Hst].
  exists w1. split; [assumption|]. split; [assumption|]. split; [assumption|].
  unfold migrate. unfold bind at 1. now rewrite Hprep.
Qed.









(** ** The counters *)

Lemma ogCommit_keeps (env : Env) (this : WriteBatch) (w : World) :
  exists r w',
    ogCommit env this w = (r, w')
    /\ heap w' = heap w /\ console w' = console w /\ r <> Blocked.
Proof.
  unfold ogCommit, bind, get.
  destruct (apply_ops env (history w, docs w) (wb_ops this)) as [[h d]|e].
  - eexists _, _. split; [reflexivity|]. now repeat split.
  - eexists _, _. split; [reflexivity|]. now repeat split.
Qed.




(** The document that a call passes. *)
Definition document (a : Action) : option Doc :=
  match a with
  | DocCreate _ _ d | DocSet _ _ d _ | DocUpdate _ _ d | CollectionAdd _ _ _ d
  | BatchCreate _ _ d | BatchSet _ _ d _ | BatchUpdate _ _ d => Some d
  | _ => None
  end.

(** The documents of a script do not carry the symbol of the interceptor:
    no script can name it. *)
Definition unmarked (a : Action) : Prop :=
  forall d, document a = Some d -> skipWriteBatch d = false.

Lemma awaited_eq (m : M (list unit)) (w w' : World) (r : Outcome (list unit)) :
  m w = (r, w') -> r <> Blocked ->
  exists ok, awaited m w = (Done (RCommit ok), w').
Proof.
  intros H Hr. unfold awaited, catch, bind. rewrite H.
  destruct r as [l|e|]; [now exists true | now exists false | contradiction].
Qed.


(** ** Batches *)

(** The stats after the callbacks of a queue ran, and the lines they
    print. *)
Definition tally (queue : list Pending) (st : Stats) : Stats :=
  fold_left (fun st p => bump (p_method p) st) queue st.

Definition lines (env : Env) (queue : list Pending) : list (Channel * list string) :=
  flat_map (fun p => if p_log p
                     then [(ConsoleLog, log_line env (p_method p) (p_args p))]
                     else []) queue.

Lemma bump_frozen (m : Method) (st : Stats) : frozen (bump m st) = frozen st.
Proof. now destruct m. Qed.

Lemma drained_own (env : Env) (stats : nat) (queue : list Pending) :
  forall (w : World) (st : Stats),
    heap w !! stats = Some st -> frozen st = false ->
    Forall (fun p => p_stats p = stats) queue ->
    heap (drained env queue w) = <[stats := tally queue st]> (heap w)
    /\ console (drained env queue w) = (console w ++ lines env queue)%list.
Proof.
  induction queue as [|p rest IH]; intros w st Hst Hf Hall.
  - cbn [drained fold_left tally lines flat_map]. rewrite app_nil_r.
    split; [symmetry; now apply list_insert_id | reflexivity].
  - apply Forall_cons in Hall as [Hp Hall]. rewrite drained_cons, Hp.
    set (w1 := called env (p_method p) (p_args p) stats (p_log p) w).
    assert (Hh1 : heap w1 = <[stats := bump (p_method p) st]> (heap w)).
    { subst w1. rewrite (called_heap _ _ _ _ _ _ _ Hst). now rewrite Hf. }
    assert (Hst1 : heap w1 !! stats = Some (bump (p_method p) st)).
    { rewrite Hh1. apply list_lookup_insert_eq. eapply lookup_lt_Some; eassumption. }
    destruct (IH w1 (bump (p_method p) st) Hst1) as [Hh Hco]; [|assumption|].
    { now rewrite bump_frozen. }
    split.
    + rewrite Hh, Hh1. cbn [tally fold_left]. apply list_insert_insert_eq.
    + rewrite Hco. subst w1. rewrite called_console. cbn [lines flat_map].
      now rewrite <- app_assoc.
Qed.

Lemma ogCommit_module (env : Env) (this : WriteBatch) (w w' : World)
    (r : Outcome (list unit)) :
  ogCommit env this w = (r, w') -> proxied w' = proxied w /\ statsMap w' = statsMap w.
Proof.
  unfold ogCommit, bind, get.
  destruct (apply_ops env (history w, docs w) (wb_ops this)) as [[h d]|e];
    intros [= <- <-]; now split.
Qed.

(** The wrapped method and the arguments of a call that a script makes on
    one of its batches. *)
Definition batch_op (a : Action) : option (nat * Method * Args) :=
  match a with
  | BatchCreate b ref d => Some (b, MCreate, doc_args ref (Some d) false)
  | BatchSet b ref d merge => Some (b, MSet, doc_args ref (Some d) merge)
  | BatchUpdate b ref d => Some (b, MUpdate, doc_args ref (Some d) false)
  | BatchDelete b ref => Some (b, MDelete, doc_args ref None false)
  | _ => None
  end.

(** A call on a batch of the run: the callback joins the queue of the
    batch, and the world is as before. *)
Lemma perform_batch_op (env : Env) (stats : nat) (cfg : RunConfig) (w : World)
    (a : Action) (b : nat) (m : Method) (args : Args) (batches : list WriteBatch)
    (this : WriteBatch) :
  proxied w = true -> statsMap w !! stats = Some cfg ->
  batch_op a = Some (b, m, args) -> unmarked a ->
  batches !! b = Some this -> wb_fireway_stats this = Some stats ->
  exists this',
    perform env stats a batches w = (Done (RUnit, <[b := this']> batches), w)
    /\ wb_fireway_stats this' = Some stats
    /\ fireway_queue this'
       = (fireway_queue this ++ [{| p_method := m; p_args := args; p_stats := stats;
                                    p_log := log_debug cfg |}])%list.
Proof.
  intros Hp Hc Ha Hu Hb Ht.
  assert (Hcall : forall m0 args0,
            marked (a_doc args0) = false ->
            (m0 = MDelete \/ a_doc args0 <> None) -> m0 <> MAdd ->
            exists this',
              batch_call m0 batches b args0 w = (Done (RUnit, <[b := this']> batches), w)
              /\ wb_fireway_stats this' = Some stats
              /\ fireway_queue this'
                 = (fireway_queue this
                    ++ [{| p_method := m0; p_args := args0; p_stats := stats;
                           p_log := log_debug cfg |}])%list).
  { intros m0 args0 Hm Hd Hnadd. unfold batch_call. rewrite Hb. unfold bind, get.
    rewrite Hp. unfold mitm_batch, owner. rewrite Ht, Hc, Hm. unfold original.
    cbn [push_queue wb_fireway_stats wb_ops fireway_queue].
    destruct m0, (a_doc args0) as [x|]; try contradiction;
      try (destruct Hd as [Hd|Hd]; [discriminate Hd | contradiction]);
      eexists; (split; [reflexivity|]); now split. }
  destruct a as [| | | | | |b0 ref d|b0 ref d merge|b0 ref d|b0 ref| |];
    try discriminate Ha; cbn [batch_op] in Ha; inversion Ha; subst b0 m args;
    cbn [perform]; apply Hcall; try discriminate;
    try (cbn; apply Hu; reflexivity); try reflexivity;
    try (right; discriminate); now left.
Qed.

(** The commit of a batch of the run, awaited: the callbacks of its queue
    run, each counter goes up by the number of its calls and the lines are
    printed, in a dry run as in any other; a dry run leaves the database as
    it was and answers that the commit was accepted. *)
Lemma perform_commit (env : Env) (stats : nat) (cfg : RunConfig) (st : Stats)
    (w : World) (b : nat) (batches : list WriteBatch) (this : WriteBatch) :
  proxied w = true -> statsMap w !! stats = Some cfg ->
  heap w !! stats = Some st -> frozen st = false ->
  batches !! b = Some this -> wb_fireway_stats this = Some stats ->
  Forall (fun p => p_stats p = stats) (fireway_queue this) ->
  exists ok w',
    perform env stats (BatchCommit b) batches w
    = (Done (RCommit ok, <[b := clear_queue this]> batches), w')
    /\ heap w' = <[stats := tally (fireway_queue this) st]> (heap w)
    /\ console w' = (console w ++ lines env (fireway_queue this))%list
    /\ (dryrun cfg = true ->
        ok = true /\ docs w' = docs w /\ history w' = history w
        /\ events w' = events w).
Proof.
  intros Hp Hc Hst Hf Hb Ht Hall. cbn [perform]. rewrite Hb.
  destruct (drained_own env stats (fireway_queue this) w st Hst Hf Hall) as [Hh Hco].
  destruct (drained_fields env (fireway_queue this) w) as (Hp1 & Hc1 & Hh1 & Hd1 & _ & He1).
  pose proof (commit_own env this w stats cfg Hp Hc Ht) as Hcommit.
  destruct (dryrun cfg) eqn:Hdry.
  - exists true, (drained env (fireway_queue this) w).
    unfold bind at 1, awaited, catch, bind at 1. rewrite Hcommit. cbn [ret].
    unfold bind, get. rewrite Hp1, Hp. split; [reflexivity|].
    split; [assumption|]. split; [assumption|]. intros _. now repeat split.
  - destruct (ogCommit_keeps env this (drained env (fireway_queue this) w))
      as (r & w' & Hog & Hh' & Hco' & Hr).
    destruct (ogCommit_module env this _ w' r Hog) as [Hp' _].
    rewrite Hog in Hcommit.
    destruct (awaited_eq _ w w' r Hcommit Hr) as (ok & Ha).
    exists ok, w'. unfold bind at 1. rewrite Ha. unfold bind, get, ret.
    rewrite Hp', Hp1, Hp. split; [reflexivity|].
    split; [congruence|]. split; [congruence | discriminate].
Qed.



(** A run under way, in a process where it is the first: the proxy is in
    place, [statsMap] has its entry and its stats are new. *)
Definition under_way (dry dbg : bool) : World :=
  {| proxied := true;
     statsMap := {[ 0%nat := {| dryrun := dry; log_debug := dbg |} ]};
     heap := [new_stats]; history := []; docs := ∅; console := []; clock := 0;
     events := [] |}.




(** A batch of the first run of a process, with one [set] in its queue. *)
Definition one_set : WriteBatch :=
  {| wb_fireway_stats := Some 0%nat;
     wb_ops := [OpSet "a/1" (UserDoc Sample.user) false];
     fireway_queue := [ {| p_method := MSet;
                           p_args := doc_args "a/1" (Some Sample.user) false;
                           p_stats := 0; p_log := false |} ] |}.

(** C6, as the code has it. In a run whose proxy is in place and whose
    stats [st] are not frozen, for a batch [this] of the run:
    - a call of [create], [set], [update] or [delete] on the batch leaves
      the world as it was: nothing is counted or printed, and the callback
      joins the queue of the batch;
    - the commit of the batch runs the callbacks of the queue: the counters
      go up and the lines are printed, in a dry run as in any other; a dry
      run then leaves the database as it was;
    - a migration that never commits its batch of one [set] counts nothing;
      one that commits it counts one [set], also in a dry run. *)
Theorem deferred_batch_calls (env : Env) (opts : Options) (stats : nat) (st : Stats)
    (w : World) (batches : list WriteBatch) (b : nat) (this : WriteBatch) :
  proxied w = true ->
  statsMap w !! stats = Some {| dryrun := opt_dryrun opts; log_debug := debug opts |} ->
  heap w !! stats = Some st -> frozen st = false ->
  batches !! b = Some this -> wb_fireway_stats this = Some stats ->
  Forall (fun p => p_stats p = stats) (fireway_queue this) ->
  (forall a m args,
     batch_op a = Some (b, m, args) -> unmarked a ->
     exists this',
       perform env stats a batches w = (Done (RUnit, <[b := this']> batches), w)
       /\ wb_fireway_stats this' = Some stats
       /\ fireway_queue this'
          = (fireway_queue this
             ++ [{| p_method := m; p_args := args; p_stats := stats;
                    p_log := debug opts |}])%list)
  /\ (exists ok w',
        perform env stats (BatchCommit b) batches w
        = (Done (RCommit ok, <[b := clear_queue this]> batches), w')
        /\ heap w' = <[stats := tally (fireway_queue this) st]> (heap w)
        /\ console w' = (console w ++ lines env (fireway_queue this))%list
        /\ (opt_dryrun opts = true ->
            ok = true /\ docs w' = docs w /\ history w' = history w
            /\ events w' = events w))
  /\ (forall dry dbg,
        fst (migrate (Sample.one_file Sample.idle_batch) (Sample.options dry dbg)
               Sample.fresh)
        = Done {| scannedFiles := 1; executedFiles := 1; created := 0; set := 0;
                  updated := 0; deleted := 0; added := 0; frozen := false |})
  /\ (forall dry dbg,
        fst (migrate (Sample.one_file Sample.one_batch) (Sample.options dry dbg)
               Sample.fresh)
        = Done {| scannedFiles := 1; executedFiles := 1; created := 0; set := 1;
                  updated := 0; deleted := 0; added := 0; frozen := false |}).
Proof.
  intros Hp Hc Hst Hf Hb Ht Hall. split; [|split; [|split]].
  - intros a m args Ha Hu.
    exact (perform_batch_op env stats _ w a b m args batches this Hp Hc Ha Hu Hb Ht).
  - exact (perform_commit env stats _ st w b batches this Hp Hc Hst Hf Hb Ht Hall).
  - intros [] []; vm_compute; reflexivity.
  - intros [] []; vm_compute; reflexivity.
Qed.

(** The commit of a batch of one [set] in a dry run: the counter [set] goes
    up by one. *)
Lemma deferred_batch_calls_witness :
  exists ok w',
    perform (Sample.one_file Sample.one_batch) 0 (BatchCommit 0) [one_set]
      (under_way true false)
    = (Done (RCommit ok, <[0%nat := clear_queue one_set]> [one_set]), w')
    /\ heap w' = <[0%nat := tally (fireway_queue one_set) new_stats]>
                   (heap (under_way true false))
    /\ console w'
       = (console (under_way true false)
          ++ lines (Sample.one_file Sample.one_batch) (fireway_queue one_set))%list
    /\ (opt_dryrun (Sample.options true false) = true ->
        ok = true /\ docs w' = docs (under_way true false)
        /\ history w' = history (under_way true false)
        /\ events w' = events (under_way true false)).
Proof.
  refine (proj1 (proj2 (deferred_batch_calls (Sample.one_file Sample.one_batch)
                          (Sample.options true false) 0 new_stats
                          (under_way true false) [one_set] 0 one_set
                          eq_refl eq_refl eq_refl eq_refl eq_refl eq_refl _))).
  repeat constructor.
Defined.

(** C6, as the specification has it, does not hold: in a dry run the commit
    of a batch of one [set] is suppressed, and the [set] is counted all the
    same. *)
Lemma dry_commit_counterexample :
  opt_dryrun (Sample.options true false) = true
  /\ require (Sample.one_file Sample.one_batch) "/m/1__a.js" = Ok Sample.one_batch
  /\ fst (migrate (Sample.one_file Sample.one_batch) (Sample.options true false)
            Sample.fresh)
     = Done {| scannedFiles := 1; executedFiles := 1; created := 0; set := 1;
               updated := 0; deleted := 0; added := 0; frozen := false |}
  /\ docs (snd (migrate (Sample.one_file Sample.one_batch) (Sample.options true false)
                  Sample.fresh))
     = ∅.
Proof. repeat split; vm_compute; reflexivity. Qed.

(** ** Two runs side by side *)

Section Simulation.

Variable env : Env.
Variable opts : Options.

(** The addresses of the stats of the two runs. *)
Variables a b : nat.

(** The two runs are at the same point: both are under way, their stats
    hold the same values, and they see the same database. *)
Record sim (w v : World) : Prop := {
  s_left : running opts a w;
  s_right : running opts b v;
  s_stats : heap w !! a = heap v !! b;
  s_history : history w = history v;
  s_docs : docs w = docs v
}.

Definition outcome_sim {A B} (R : A -> B -> Prop) (x : Outcome A) (y : Outcome B)
  : Prop :=
  match x, y with
  | Done p, Done q => R p q
  | Thrown e, Thrown e' => e = e'
  | Blocked, Blocked => True
  | _, _ => False
  end.

(** Two computations that, from worlds at the same point, end alike and at
    the same point. *)
Definition alike {A B} (R : A -> B -> Prop) (m : M A) (m' : M B) : Prop :=
  forall w v, sim w v -> outcome_sim R (fst (m w)) (fst (m' v)) /\ sim (snd (m w)) (snd (m' v)).








Lemma alike_weaken {A B} (R S : A -> B -> Prop) (m : M A) (m' : M B) :
  (forall x y, R x y -> S x y) -> alike R m m' -> alike S m m'.
Proof.
  intros H Hm w v Hs. destruct (Hm w v Hs) as [Ho Hs1]. split; [|assumption].
  destruct (fst (m w)), (fst (m' v)); cbn in *; auto.
Qed.

(** *** What keeps two worlds at the same point *)












(** *** Batches of the two runs *)


















(** *** Scripts of the two runs *)











End Simulation.




(** ** Dry runs *)



(** The migration of six writes only uses the [firestore] it is given. *)
Example six_writes_own : own_only Sample.six_writes.
Proof.
  unfold Sample.six_writes.
  repeat (constructor; [reflexivity | intros _]). constructor.
Qed.

(** The stats of the two dry runs of the migration of six writes. *)
Example dry_runs_twice :
  fst (migrate (Sample.one_file Sample.six_writes) (Sample.options true false)
         Sample.fresh)
  = Done {| scannedFiles := 1; executedFiles := 1; created := 1; set := 2;
            updated := 1; deleted := 1; added := 1; frozen := false |}
  /\ fst (migrate (Sample.one_file Sample.six_writes) (Sample.options true false)
            (snd (migrate (Sample.one_file Sample.six_writes)
                    (Sample.options true false) Sample.fresh)))
     = Done {| scannedFiles := 1; executedFiles := 1; created := 1; set := 2;
               updated := 1; deleted := 1; added := 1; frozen := false |}.
Proof. split; vm_compute; reflexivity. Qed.

(** * More of the engine *)

(** ** The loop, file by file *)















(** ** One run after another *)



(** A run that has nothing to execute returns new stats, with the number
    of scanned files, and leaves the database as it was. *)
Lemma nothing_pending (env : Env) (opts : Options) (w : World)
    (scanned : list MigrationFile) (rank : Z) :
  prepare_pure env opts (history w) = Ok ([], rank, scanned) ->
  exists w',
    migrate env opts w
    = (Done (with_scannedFiles (Z.of_nat (List.length scanned)) new_stats), w')
    /\ untouched w w'.
Proof.
  intros Hprep.
  destruct (migrate_loop env opts w [] scanned rank Hprep)
    as (w1 & (Hh & Hd & He & Hc) & _ & Hst & ->).
  unfold bind at 1. cbn [run_files ret].
  destruct (finish_spec opts (List.length (heap w)) w1) as (w2 & -> & (Hh2 & Hd2 & He2 & Hc2) & _).
  exists w2. rewrite Hst. split; [reflexivity|].
  unfold untouched. repeat split; congruence.
Qed.










(** ** The scan and the first errors *)

(** A name that the callback skips: it starts with a dot, or its version
    token does not coerce. *)
Definition skipped_name (f : string) : Prop :=
  first_is_dot f = true \/ Semver.coerce (version_token f) = None.

Lemma skipped_name_spec (f : string) :
  skipped_name f -> candidate_version f = None /\ malformed f = false.
Proof.
  unfold candidate_version, malformed. intros [H|H].
  - now rewrite H.
  - rewrite H. now destruct (first_is_dot f).
Qed.

Lemma scan_pure_skip (env : Env) (directory : string) (l1 l2 : list string) (f : string) :
  skipped_name f ->
  forall versionToFile,
    scan_pure env directory versionToFile (l1 ++ f :: l2)
    = scan_pure env directory versionToFile (l1 ++ l2).
Proof.
  intros Hf. apply skipped_name_spec in Hf as [Hc Hm].
  induction l1 as [|x l1 IH]; intros vtf; cbn [app scan_pure].
  - now rewrite Hc, Hm.
  - destruct (candidate_version x) as [v|].
    + destruct (vtf !! v); [reflexivity|]. now rewrite IH.
    + destruct (malformed x); [reflexivity | apply IH].
Qed.

(** X6. The scan does not see the names that its callback skips: with or
    without a name that starts with a dot, or whose version token does not
    coerce, anywhere in the listing, it answers the same files, or throws
    the same error. *)
Theorem skipped_names_ignored (env : Env) (dbg : bool) (directory : string)
    (l1 l2 : list string) (f : string) (w : World) :
  skipped_name f ->
  fst (parse_filenames env dbg directory ∅ (l1 ++ f :: l2) w)
  = fst (parse_filenames env dbg directory ∅ (l1 ++ l2) w).
Proof.
  intros Hf.
  assert (Hne : forall k x, (∅ : gmap string string) !! k = Some x -> x <> "").
  { intros k x Hx. now rewrite lookup_empty in Hx. }
  destruct (parse_filenames_pure env dbg directory (l1 ++ f :: l2) ∅ w Hne)
    as (w1 & -> & _).
  destruct (parse_filenames_pure env dbg directory (l1 ++ l2) ∅ w Hne)
    as (w2 & -> & _).
  cbn [fst]. now rewrite scan_pure_skip.
Qed.

Lemma skipped_names_ignored_witness :
  fst (parse_filenames Sample.two_pass true "/m" ∅
         (["1__a.js"] ++ "README.md" :: ["2__b.js"]) Sample.fresh)
  = fst (parse_filenames Sample.two_pass true "/m" ∅ (["1__a.js"] ++ ["2__b.js"])
           Sample.fresh).
Proof.
  exact (skipped_names_ignored Sample.two_pass true "/m" ["1__a.js"] ["2__b.js"]
           "README.md" Sample.fresh (or_intror eq_refl)).
Defined.

Lemma scan_pure_all_skipped (env : Env) (directory : string) (l : list string) :
  Forall skipped_name l ->
  forall versionToFile, scan_pure env directory versionToFile l = Ok [].
Proof.
  induction 1 as [|f l Hf _ IH]; intros vtf; [reflexivity|].
  apply skipped_name_spec in Hf as [Hc Hm]. cbn [scan_pure]. now rewrite Hc, Hm.
Qed.

(** X7. A directory that holds no migration file (only names that the
    callback skips, and directories): when the preload, the directory and
    the clients are there and the latest record, if any, did not fail,
    [migrate] returns stats that are all zero, and leaves the history, the
    documents and the events as they were. *)
Theorem no_migration_files (env : Env) (opts : Options) (w : World) :
  preloaded env opts = true ->
  exists_ env (directory_of env opts) = true ->
  Forall skipped_name (filenames_in env (directory_of env opts)) ->
  collaborators env = Ok tt ->
  (forall l, get_latest (history w) = Some l -> success l = true) ->
  exists w', migrate env opts w = (Done new_stats, w') /\ untouched w w'.
Proof.
  intros Hpre Hdir Hskip Hcol Hlat.
  assert (Hprep : prepare_pure env opts (history w)
                  = Ok ([], rank_of_latest (history w), [])).
  { apply prepare_pure_iff. split; [assumption|]. split; [assumption|].
    split; [now apply scan_pure_all_skipped|]. split; [assumption|].
    split; [assumption|]. unfold pending_files, rank_of_latest.
    now destruct (get_latest (history w)). }
  exact (nothing_pending env opts w [] _ Hprep).
Qed.

Lemma no_migration_files_witness :
  exists w',
    migrate (Sample.machine [".gitkeep"; "README.md"] (fun _ => Ok Sample.six_writes))
      (Sample.options false false) Sample.fresh
    = (Done new_stats, w')
    /\ untouched Sample.fresh w'.
Proof.
  refine (no_migration_files
            (Sample.machine [".gitkeep"; "README.md"] (fun _ => Ok Sample.six_writes))
            (Sample.options false false) Sample.fresh eq_refl eq_refl _ eq_refl _).
  - constructor; [left; reflexivity|]. constructor; [right; reflexivity|]. constructor.
  - intros l Hl. discriminate Hl.
Defined.

(** X8. The errors of [migrate] before its loop, in the order of its
    checks; each leaves the history, the documents and the events as they
    were:
    - a preload that throws gives "Trouble executing require", whatever the
      directory;
    - then a directory that does not exist gives "No directory at" with the
      absolute path;
    - then the error of the scan;
    - then the error of the clients;
    - then the message for a latest record that failed. *)
Theorem first_error_wins (env : Env) (opts : Options) (w : World) :
  (forall r e0,
     req opts = Some r -> require env r = Throw e0 ->
     exists w',
       migrate env opts w = (Thrown ("Trouble executing require('" +:+ r +:+ "');"), w')
       /\ untouched w w')
  /\ (preloaded env opts = true ->
      (exists_ env (directory_of env opts) = false ->
       exists w',
         migrate env opts w = (Thrown ("No directory at " +:+ directory_of env opts), w')
         /\ untouched w w')
      /\ (exists_ env (directory_of env opts) = true ->
          (forall e,
             scan_pure env (directory_of env opts) ∅
               (filenames_in env (directory_of env opts)) = Throw e ->
             exists w', migrate env opts w = (Thrown e, w') /\ untouched w w')
          /\ (forall scanned,
                scan_pure env (directory_of env opts) ∅
                  (filenames_in env (directory_of env opts)) = Ok scanned ->
                (forall e,
                   collaborators env = Throw e ->
                   exists w', migrate env opts w = (Thrown e, w') /\ untouched w w')
                /\ (collaborators env = Ok tt ->
                    forall l,
                      get_latest (history w) = Some l -> success l = false ->
                      exists w',
                        migrate env opts w
                        = (Thrown ("Migration to version " +:+ hr_version l +:+ " using "
                                   +:+ script l
                                   +:+ " failed! Please restore backups and roll back database and code!"),
                           w')
                        /\ untouched w w')))).
Proof.
  split.
  - intros r e0 Hr He0. apply migrate_throws. unfold prepare_pure.
    now rewrite Hr, He0.
  - intros Hpre.
    assert (Hstart : forall k : unit -> Result (list MigrationFile * Z * list MigrationFile),
              rbind match req opts with
                    | Some r =>
                        match require env r with
                        | Ok _ => Ok tt
                        | Throw _ => Throw ("Trouble executing require('" +:+ r +:+ "');")
                        end
                    | None => Ok tt
                    end k = k tt).
    { intros k. unfold preloaded in Hpre.
      destruct (req opts) as [r|]; [destruct (require env r); [|discriminate Hpre]|];
        reflexivity. }
    split.
    + intros Hdir. apply migrate_throws. unfold prepare_pure.
      rewrite Hstart, Hdir. reflexivity.
    + intros Hdir. split.
      * intros e He. apply migrate_throws. unfold prepare_pure.
        rewrite Hstart, Hdir, He. reflexivity.
      * intros scanned Hs. split.
        -- intros e He. apply migrate_throws. unfold prepare_pure.
           rewrite Hstart, Hdir, Hs. cbn [negb rbind]. now rewrite He.
        -- intros Hcol l Hl Hsl. apply migrate_throws. unfold prepare_pure.
           rewrite Hstart, Hdir, Hs. cbn [negb rbind]. rewrite Hcol. cbn [rbind].
           now rewrite Hl, Hsl.
Qed.

(** ** What a run keeps *)

Section Keeping.

Variable env : Env.

(** A relation [I] between the world before and the world after, kept from
    worlds where [Pre] holds. *)
Variable Pre : World -> Prop.
Variable I : World -> World -> Prop.

Hypothesis I_refl : forall w, Pre w -> I w w.
Hypothesis I_trans : forall w1 w2 w3, I w1 w2 -> I w2 w3 -> I w1 w3.
Hypothesis I_pre : forall w w', Pre w -> I w w' -> Pre w'.

(** [m] keeps [I], and what it answers satisfies [P]. *)
Definition keeps {A} (P : A -> Prop) (m : M A) : Prop :=
  forall w, Pre w -> I w (snd (m w)) /\ forall x, fst (m w) = Done x -> P x.

Lemma keeps_ret {A} (P : A -> Prop) (x : A) : P x -> keeps P (ret x).
Proof. intros H w Hw. split; [now apply I_refl|]. now intros y [= <-]. Qed.

Lemma keeps_throw {A} (P : A -> Prop) (e : string) : keeps P (throw e).
Proof. intros w Hw. split; [now apply I_refl | discriminate]. Qed.

Lemma keeps_block {A} (P : A -> Prop) : keeps P block.
Proof. intros w Hw. split; [now apply I_refl | discriminate]. Qed.

Lemma keeps_bind {A B} (P : A -> Prop) (Q : B -> Prop) (m : M A) (k : A -> M B) :
  keeps P m -> (forall x, P x -> keeps Q (k x)) -> keeps Q (bind m k).
Proof.
  intros Hm Hk w Hw. unfold bind. destruct (Hm w Hw) as [Hi Hp].
  destruct (m w) as [[x|e|] w1]; cbn [fst snd] in *.
  - destruct (Hk x (Hp x eq_refl) w1 (I_pre _ _ Hw Hi)) as [Hi2 Hq].
    split; [eapply I_trans; eassumption | assumption].
  - split; [assumption | discriminate].
  - split; [assumption | discriminate].
Qed.

Lemma keeps_get : keeps Pre get.
Proof. intros w Hw. split; [now apply I_refl|]. now intros x [= <-]. Qed.

Lemma keeps_modify (f : World -> World) :
  (forall w, Pre w -> I w (f w)) -> keeps (fun _ => True) (modify f).
Proof. intros H w Hw. split; [now apply H | easy]. Qed.

Lemma keeps_catch {A} (P : A -> Prop) (m : M A) (h : string -> M A) :
  keeps P m -> (forall e, keeps P (h e)) -> keeps P (catch m h).
Proof.
  intros Hm Hh w Hw. unfold catch. destruct (Hm w Hw) as [Hi Hp].
  destruct (m w) as [[x|e|] w1]; cbn [fst snd] in *.
  - now split.
  - destruct (Hh e w1 (I_pre _ _ Hw Hi)) as [Hi2 Hq].
    split; [eapply I_trans; eassumption | assumption].
  - split; [assumption | discriminate].
Qed.

Lemma keeps_lift {A} (P : A -> Prop) (r : Result A) :
  (forall x, r = Ok x -> P x) -> keeps P (lift r).
Proof.
  intros H. destruct r as [x|e]; cbn [lift]; [apply keeps_ret; auto | apply keeps_throw].
Qed.

Lemma keeps_weaken {A} (P Q : A -> Prop) (m : M A) :
  (forall x, P x -> Q x) -> keeps P m -> keeps Q m.
Proof. intros H Hm w Hw. destruct (Hm w Hw) as [Hi Hp]. split; auto. Qed.

(** *** The interceptor and the scripts of the run of [sid] *)

(** The address of the stats of the run, the assignments to them that keep
    [I], and whether [I] allows lines of [console.log]. *)
Variable sid : nat.
Variable good : (Stats -> Stats) -> Prop.
Variable loud : bool.

Hypothesis I_print :
  forall w ch line,
    Pre w -> (ch = ConsoleLog -> loud = true) ->
    I w (set_console (console w ++ [(ch, line)]) w).
Hypothesis Pre_log :
  forall w cfg,
    Pre w -> statsMap w !! sid = Some cfg -> log_debug cfg = true -> loud = true.
Hypothesis I_clock : forall w t, Pre w -> I w (set_clock t w).
Hypothesis I_event : forall w e, Pre w -> I w (add_event e w).
Hypothesis I_store : forall w h d, Pre w -> I w (set_store h d w).
Hypothesis I_heap :
  forall w f st,
    Pre w -> good f -> heap w !! sid = Some st ->
    I w (set_heap (<[sid := f st]> (heap w)) w).
Hypothesis good_bump : forall m, good (bump m).
Hypothesis good_frozen : forall b, good (with_frozen b).

Lemma keeps_print (ch : Channel) (line : list string) :
  (ch = ConsoleLog -> loud = true) -> keeps (fun _ => True) (print ch line).
Proof. intros H. apply keeps_modify. intros w Hw. now apply I_print. Qed.

Lemma keeps_log (lg : bool) (line : list string) :
  (lg = true -> loud = true) -> keeps (fun _ => True) (log lg line).
Proof.
  intros H. unfold log. destruct lg; [|now apply keeps_ret].
  apply keeps_print. intros _. now apply H.
Qed.

Lemma keeps_update_stats (f : Stats -> Stats) :
  good f -> keeps (fun _ => True) (update_stats sid f).
Proof.
  intros Hf. apply keeps_modify. intros w Hw.
  destruct (heap w !! sid) as [st|] eqn:E; [now apply I_heap | now apply I_refl].
Qed.

Lemma keeps_call_fn (m : Method) (args : Args) (lg : bool) :
  (lg = true -> loud = true) -> keeps (fun _ => True) (call_fn env m args sid lg).
Proof.
  intros Hl. unfold call_fn. eapply keeps_bind; [apply keeps_get|]. intros w _.
  eapply (keeps_bind (fun _ => True)); [|intros; now apply keeps_log].
  destruct (heap w !! sid) as [st|]; [|now apply keeps_ret].
  destruct (frozen st); [now apply keeps_ret | now apply keeps_update_stats].
Qed.

(** A queue, and a batch, of the run or of a Firestore of the script. *)
Definition own_queue (q : list Pending) : Prop :=
  Forall (fun p => p_stats p = sid /\ (p_log p = true -> loud = true)) q.

Definition tame_tag (t : option nat) : Prop := t = Some sid \/ t = None.

Definition tame (x : WriteBatch) : Prop :=
  tame_tag (wb_fireway_stats x) /\ own_queue (fireway_queue x).

Lemma keeps_drain (q : list Pending) : own_queue q -> keeps (fun _ => True) (drain env q).
Proof.
  induction 1 as [|p q [Hp Hl] Hq IH]; cbn [drain]; [now apply keeps_ret|].
  eapply (keeps_bind (fun _ => True)); [|intros; exact IH].
  rewrite Hp. now apply keeps_call_fn.
Qed.

Lemma owner_tame (w : World) (t : option nat) (n : nat) (cfg : RunConfig) :
  Pre w -> tame_tag t -> owner (statsMap w) t = Some (n, cfg) ->
  n = sid /\ (log_debug cfg = true -> loud = true).
Proof.
  intros Hw [->| ->]; cbn [owner]; [|discriminate].
  destruct (statsMap w !! sid) as [c|] eqn:E; [|discriminate]. intros [= <- <-].
  split; [reflexivity|]. now apply (Pre_log w c).
Qed.

Lemma mitm_batch_tame (m : Method) (w : World) (x : WriteBatch) (args : Args) :
  Pre w -> tame x -> tame (fst (mitm_batch m (statsMap w) x args)).
Proof.
  intros Hw [Ht Hq]. unfold mitm_batch.
  destruct (owner (statsMap w) (wb_fireway_stats x)) as [[n cfg]|] eqn:E; [|now split].
  destruct (marked (a_doc args)); [now split|].
  split; [assumption|]. cbn [fst push_queue fireway_queue].
  apply Forall_app. split; [assumption|]. constructor; [|constructor].
  cbn [p_stats p_log]. eapply owner_tame; eassumption.
Qed.

Lemma original_tame (m : Method) (x y : WriteBatch) (args : Args) :
  tame x -> original m x args = Ok y -> tame y.
Proof.
  intros [Ht Hq]. unfold original.
  destruct m, (a_doc args); intros [= <-]; now split.
Qed.

Lemma keeps_WriteBatch_call (m : Method) (x : WriteBatch) (args : Args) :
  tame x -> keeps tame (WriteBatch_call m x args).
Proof.
  intros Hx. unfold WriteBatch_call.
  eapply keeps_bind; [apply keeps_get|]. intros w Hw.
  assert (H1 : tame (fst (if proxied w then mitm_batch m (statsMap w) x args
                          else (x, args)))).
  { destruct (proxied w); [now apply mitm_batch_tame | assumption]. }
  destruct (if proxied w then mitm_batch m (statsMap w) x args else (x, args))
    as [x1 a1].
  apply keeps_lift. intros y. now apply original_tame.
Qed.

Lemma keeps_ogCommit (x : WriteBatch) : keeps (fun _ => True) (ogCommit env x).
Proof.
  unfold ogCommit. eapply keeps_bind; [apply keeps_get|]. intros w _.
  destruct (apply_ops env (history w, docs w) (wb_ops x)) as [[h d]|e];
    [|apply keeps_throw].
  eapply (keeps_bind (fun _ => True)); [|intros; now apply keeps_ret].
  apply keeps_modify. intros v Hv.
  eapply I_trans; [apply I_store; eassumption|].
  apply I_event. eapply I_pre; [eassumption | now apply I_store].
Qed.

Lemma keeps_commit (x : WriteBatch) : tame x -> keeps (fun _ => True) (_commit env x).
Proof.
  intros [Ht Hq]. unfold _commit.
  eapply keeps_bind; [apply keeps_get|]. intros w _.
  destruct (proxied w); [|apply keeps_ogCommit].
  eapply (keeps_bind (fun _ => True)); [now apply keeps_drain|]. intros _ _.
  eapply keeps_bind; [apply keeps_get|]. intros w1 _.
  destruct (commit_suppressed (statsMap w1) x); [now apply keeps_ret|].
  apply keeps_ogCommit.
Qed.

Lemma new_WriteBatch_tame (t : option nat) : tame_tag t -> tame (new_WriteBatch t).
Proof. intros H. split; [assumption | constructor]. Qed.

Lemma keeps_DocumentReference_call (m : Method) (t : option nat) (args : Args) :
  tame_tag t -> keeps (fun _ => True) (DocumentReference_call env m t args).
Proof.
  intros Ht. unfold DocumentReference_call.
  eapply keeps_bind; [apply keeps_WriteBatch_call, new_WriteBatch_tame, Ht|].
  intros x Hx. now apply keeps_commit.
Qed.

Lemma keeps_mitm_add (w : World) (t : option nat) (args : Args) :
  Pre w -> tame_tag t -> keeps (fun _ => True) (mitm_add env (statsMap w) t args).
Proof.
  intros Hw Ht. unfold mitm_add.
  destruct (owner (statsMap w) t) as [[n cfg]|] eqn:E; [|now apply keeps_ret].
  destruct (owner_tame w t n cfg Hw Ht E) as [-> Hl].
  eapply (keeps_bind (fun _ => True)); [now apply keeps_call_fn|].
  intros; now apply keeps_ret.
Qed.

Lemma keeps_CollectionReference_add (t : option nat) (collection autoId : string)
    (d : Doc) :
  tame_tag t -> keeps (fun _ => True) (CollectionReference_add env t collection autoId d).
Proof.
  intros Ht. unfold CollectionReference_add.
  eapply keeps_bind; [apply keeps_get|]. intros w Hw.
  eapply (keeps_bind (fun _ => True)).
  { destruct (proxied w); [now apply keeps_mitm_add | now apply keeps_ret]. }
  intros args' _. now apply keeps_DocumentReference_call.
Qed.

Lemma keeps_awaited (m : M (list unit)) :
  keeps (fun _ => True) m -> keeps (fun _ => True) (awaited m).
Proof.
  intros H. unfold awaited. apply keeps_catch.
  - eapply keeps_bind; [exact H|]. intros; now apply keeps_ret.
  - intros e. now apply keeps_ret.
Qed.

Lemma tag_of_tame (i : Instance) : tame_tag (tag_of sid i).
Proof. destruct i; [now left | now right]. Qed.

Definition tame_step (x : Reply * list WriteBatch) : Prop := Forall tame (snd x).

Lemma keeps_batch_call (m : Method) (xs : list WriteBatch) (n : nat) (args : Args) :
  Forall tame xs -> keeps tame_step (batch_call m xs n args).
Proof.
  intros Hxs. unfold batch_call.
  destruct (xs !! n) as [x|] eqn:E; [|now apply keeps_ret].
  assert (Hx : tame x) by (eapply Forall_lookup_1; eassumption).
  eapply keeps_bind; [apply keeps_get|]. intros w Hw.
  assert (H1 : tame (fst (if proxied w then mitm_batch m (statsMap w) x args
                          else (x, args)))).
  { destruct (proxied w); [now apply mitm_batch_tame | assumption]. }
  destruct (if proxied w then mitm_batch m (statsMap w) x args else (x, args))
    as [x1 a1]. cbn [fst] in H1.
  destruct (original m x1 a1) as [x2|e] eqn:Eo; apply keeps_ret; unfold tame_step;
    cbn [snd]; apply Forall_insert; try assumption.
  eapply original_tame; eassumption.
Qed.

Lemma keeps_perform (act : Action) (xs : list WriteBatch) :
  Forall tame xs -> keeps tame_step (perform env sid act xs).
Proof.
  intros Hxs.
  assert (Hdoc : forall m : M (list unit),
            keeps (fun _ => True) m ->
            keeps tame_step (let* r := awaited m in ret (r, xs))).
  { intros m H. eapply keeps_bind; [apply keeps_awaited, H|].
    intros r _. now apply keeps_ret. }
  destruct act as [i ref d|i ref d merge|i ref d|i ref|i collection autoId d|i
                  |n ref d|n ref d merge|n ref d|n ref|n|ref]; cbn [perform].
  - apply Hdoc, keeps_DocumentReference_call, tag_of_tame.
  - apply Hdoc, keeps_DocumentReference_call, tag_of_tame.
  - apply Hdoc, keeps_DocumentReference_call, tag_of_tame.
  - apply Hdoc, keeps_DocumentReference_call, tag_of_tame.
  - apply Hdoc, keeps_CollectionReference_add, tag_of_tame.
  - apply keeps_ret. unfold tame_step. cbn [snd]. apply Forall_app.
    split; [assumption|]. constructor; [|constructor].
    apply new_WriteBatch_tame, tag_of_tame.
  - now apply keeps_batch_call.
  - now apply keeps_batch_call.
  - now apply keeps_batch_call.
  - now apply keeps_batch_call.
  - destruct (xs !! n) as [x|] eqn:E; [|now apply keeps_ret].
    assert (Hx : tame x) by (eapply Forall_lookup_1; eassumption).
    eapply keeps_bind; [apply keeps_awaited, keeps_commit, Hx|]. intros r _.
    eapply keeps_bind; [apply keeps_get|]. intros w _.
    apply keeps_ret. unfold tame_step. cbn [snd].
    apply Forall_insert; [assumption|].
    destruct (proxied w); [|assumption]. destruct Hx as [Ht Hq].
    split; [assumption | constructor].
  - eapply keeps_bind; [apply keeps_get|]. intros w _. now apply keeps_ret.
Qed.

Lemma keeps_run_script (s : Script) :
  forall xs, Forall tame xs -> keeps (fun _ => True) (run_script env sid s xs).
Proof.
  induction s as [e|act k IH]; intros xs Hxs; cbn [run_script].
  - now apply keeps_ret.
  - eapply keeps_bind; [now apply keeps_perform|].
    intros [r xs1] H1. now apply IH.
Qed.

Lemma keeps_call_migration (opts : Options) (file : MigrationFile) (m : Script) :
  (debug opts = true -> loud = true) ->
  keeps (fun _ => True) (call_migration env opts sid file m).
Proof.
  intros Hl. unfold call_migration.
  eapply (keeps_bind (fun _ => True)).
  { apply keeps_modify. intros w Hw. now apply I_event. }
  intros _ _.
  eapply (keeps_bind (fun _ => True)); [apply keeps_run_script; constructor|].
  intros e _.
  eapply (keeps_bind (fun _ => True)).
  { apply keeps_modify. intros w Hw. now apply I_clock. }
  intros _ _.
  destruct (settled e).
  - now apply keeps_ret.
  - eapply (keeps_bind (fun _ => True)); [now apply keeps_log|].
    intros; now apply keeps_ret.
  - apply keeps_block.
Qed.

Lemma keeps_handleCheck (lg fw : bool) (e : Ending) :
  (lg = true -> loud = true) -> keeps (fun _ => True) (handleCheck env lg fw e).
Proof.
  intros Hl. unfold handleCheck.
  destruct (open_handles e) as [|h t]; [now apply keeps_ret|].
  destruct fw.
  - eapply (keeps_bind (fun _ => True)); [now apply keeps_log|].
    intros _ _. destruct (handles_settle e); [now apply keeps_ret | apply keeps_block].
  - destruct (12 <=? node_major env); [|now apply keeps_ret].
    apply keeps_print. discriminate.
Qed.

Lemma keeps_trackAsync (lg : bool) (file : MigrationFile) (fw : bool)
    (fn : M (bool * Ending)) :
  (lg = true -> loud = true) ->
  keeps (fun _ => True) fn -> keeps (fun _ => True) (trackAsync env lg file fw fn).
Proof.
  intros Hl H. unfold trackAsync. apply keeps_catch.
  - eapply keeps_bind; [exact H|]. intros [res e] _.
    eapply (keeps_bind (fun _ => True)); [now apply keeps_handleCheck|]. intros _ _.
    destruct (rejection e) as [reason|]; [|now apply keeps_ret].
    destruct (truthy reason); [|now apply keeps_ret].
    eapply (keeps_bind (fun _ => True)); [now apply keeps_log|].
    intros; now apply keeps_ret.
  - intros e. eapply (keeps_bind (fun _ => True)); [now apply keeps_log|].
    intros; now apply keeps_ret.
Qed.

Lemma keeps_record_result (file : MigrationFile) (rank start finish : Z) (s : bool) :
  keeps (fun _ => True) (record_result env sid file rank start finish s).
Proof.
  unfold record_result.
  eapply (keeps_bind (fun _ => True)); [now apply keeps_update_stats|]. intros _ _.
  eapply (keeps_bind (fun _ => True)).
  { apply keeps_DocumentReference_call. now left. }
  intros _ _. now apply keeps_update_stats.
Qed.

(** One file of the loop, after [stats.executedFiles += 1]. *)
Lemma keeps_run_file_rest (opts : Options) (file : MigrationFile) (rank : Z) :
  (debug opts = true -> loud = true) ->
  keeps (fun _ => True)
    (log (debug opts) ["Running"; filename file] >>
     let* migration :=
       match require env (path file) with
       | Ok m => ret m
       | Throw e => log (debug opts) [e] >> throw e
       end in
     let* w := get in
     let start := clock w in
     let* success :=
       trackAsync env (debug opts) file (forceWait opts)
         (call_migration env opts sid file migration) in
     let* w' := get in
     let finish := clock w' in
     log (debug opts) ["Uploading the results for " +:+ filename file] >>
     let installed_rank := rank + 1 in
     record_result env sid file installed_rank start finish success >>
     ret (success, installed_rank)).
Proof.
  intros Hl.
  eapply (keeps_bind (fun _ => True)); [now apply keeps_log|]. intros _ _.
  eapply (keeps_bind (fun _ => True)).
  { destruct (require env (path file)) as [m|e]; [now apply keeps_ret|].
    eapply (keeps_bind (fun _ => True)); [now apply keeps_log|].
    intros; apply keeps_throw. }
  intros m _.
  eapply keeps_bind; [apply keeps_get|]. intros w _.
  eapply (keeps_bind (fun _ => True));
    [apply keeps_trackAsync; [assumption | now apply keeps_call_migration]|].
  intros s _.
  eapply keeps_bind; [apply keeps_get|]. intros w1 _.
  eapply (keeps_bind (fun _ => True)); [now apply keeps_log|]. intros _ _.
  eapply (keeps_bind (fun _ => True)); [apply keeps_record_result|].
  intros; now apply keeps_ret.
Qed.

Lemma run_file_after_count (opts : Options) (file : MigrationFile) (rank : Z)
    (w : World) :
  (debug opts = true -> loud = true) ->
  Pre (snd (update_stats sid (fun st => with_executedFiles (executedFiles st + 1) st) w)) ->
  I (snd (update_stats sid (fun st => with_executedFiles (executedFiles st + 1) st) w))
    (snd (run_file env opts sid file rank w)).
Proof.
  intros Hl H. unfold run_file. unfold bind at 1.
  unfold update_stats at 1, modify at 1. cbn [fst snd] in *.
  now apply keeps_run_file_rest.
Qed.

Lemma keeps_run_file (opts : Options) (file : MigrationFile) (rank : Z) :
  (debug opts = true -> loud = true) ->
  good (fun st => with_executedFiles (executedFiles st + 1) st) ->
  keeps (fun _ => True) (run_file env opts sid file rank).
Proof.
  intros Hl Hg. unfold run_file.
  eapply (keeps_bind (fun _ => True)); [now apply keeps_update_stats|].
  intros _ _. now apply keeps_run_file_rest.
Qed.

Lemma keeps_run_files (opts : Options) (files : list MigrationFile) :
  (debug opts = true -> loud = true) ->
  good (fun st => with_executedFiles (executedFiles st + 1) st) ->
  forall rank, keeps (fun _ => True) (run_files env opts sid files rank).
Proof.
  intros Hl Hg. induction files as [|f rest IH]; intros rank; cbn [run_files].
  - now apply keeps_ret.
  - eapply (keeps_bind (fun _ => True)); [now apply keeps_run_file|].
    intros [s r] _. destruct (negb s); [apply keeps_throw | apply IH].
Qed.

End Keeping.

(** *** Earlier runs *)

(** Nothing below the address [n] changed from [w] to [w']: the stats that
    earlier runs returned, and what earlier runs left in [statsMap]. *)
Definition roomy (n : nat) (w : World) : Prop := (n <= List.length (heap w))%nat.

Definition apart (n : nat) (w w' : World) : Prop :=
  (n <= List.length (heap w'))%nat
  /\ take n (heap w') = take n (heap w)
  /\ forall k, (k < n)%nat -> statsMap w' !! k = statsMap w !! k.

Lemma apart_refl (n : nat) (w : World) : roomy n w -> apart n w w.
Proof. intros H. now repeat split. Qed.

Lemma apart_trans (n : nat) (w1 w2 w3 : World) :
  apart n w1 w2 -> apart n w2 w3 -> apart n w1 w3.
Proof.
  intros (_ & H1 & M1) (L2 & H2 & M2). split; [assumption|].
  split; [congruence|]. intros k Hk. now rewrite M2, M1.
Qed.

Lemma apart_pre (n : nat) (w w' : World) : roomy n w -> apart n w w' -> roomy n w'.
Proof. now intros _ (H & _). Qed.

Lemma apart_console (n : nat) (w : World) (c : list (Channel * list string)) :
  roomy n w -> apart n w (set_console c w).
Proof. intros H. now repeat split. Qed.

Lemma apart_clock (n : nat) (w : World) (t : Z) : roomy n w -> apart n w (set_clock t w).
Proof. intros H. now repeat split. Qed.

Lemma apart_event (n : nat) (w : World) (e : Event) :
  roomy n w -> apart n w (add_event e w).
Proof. intros H. now repeat split. Qed.

Lemma apart_store (n : nat) (w : World) (h : list (string * HistoryRecord))
    (d : gmap string string) :
  roomy n w -> apart n w (set_store h d w).
Proof. intros H. now repeat split. Qed.

Lemma apart_proxied (n : nat) (w : World) (b : bool) :
  roomy n w -> apart n w (set_proxied b w).
Proof. intros H. now repeat split. Qed.

Lemma apart_heap (n sid : nat) :
  (n <= sid)%nat ->
  forall w (f : Stats -> Stats) st,
    roomy n w -> True -> heap w !! sid = Some st ->
    apart n w (set_heap (<[sid := f st]> (heap w)) w).
Proof.
  intros Hs w f st H _ _. unfold apart. cbn [heap statsMap set_heap].
  split; [now rewrite length_insert|]. split; [now apply take_insert_ge | reflexivity].
Qed.

Lemma apart_fresh (n : nat) (w : World) (st : Stats) :
  roomy n w -> apart n w (set_heap (heap w ++ [st]) w).
Proof.
  intros H. unfold apart, roomy in *. cbn [heap statsMap set_heap].
  split; [rewrite length_app; lia|]. split; [now apply take_app_le | reflexivity].
Qed.

Lemma apart_statsMap (n sid : nat) (w : World) (m : gmap nat RunConfig) :
  roomy n w ->
  (forall k, (k < n)%nat -> m !! k = statsMap w !! k) ->
  apart n w (set_statsMap m w).
Proof. intros H Hm. now repeat split. Qed.

Section Apart.

Variable env : Env.
Variable n : nat.

Lemma apart_bind {A B} (P : A -> Prop) (Q : B -> Prop) (m : M A) (k : A -> M B) :
  keeps (roomy n) (apart n) P m ->
  (forall x, P x -> keeps (roomy n) (apart n) Q (k x)) ->
  keeps (roomy n) (apart n) Q (bind m k).
Proof. apply keeps_bind; [apply apart_trans | apply apart_pre]. Qed.

Lemma apart_then {A B} (Q : B -> Prop) (m : M A) (k : M B) :
  keeps (roomy n) (apart n) (fun _ => True) m ->
  keeps (roomy n) (apart n) Q k ->
  keeps (roomy n) (apart n) Q (m >> k).
Proof. intros Hm Hk. eapply apart_bind; [exact Hm | intros; exact Hk]. Qed.

Lemma apart_ret {A} (P : A -> Prop) (x : A) : P x -> keeps (roomy n) (apart n) P (ret x).
Proof. apply keeps_ret, apart_refl. Qed.

Lemma apart_throw {A} (P : A -> Prop) (e : string) :
  keeps (roomy n) (apart n) P (throw e).
Proof. apply keeps_throw, apart_refl. Qed.

Lemma apart_print (ch : Channel) (line : list string) :
  keeps (roomy n) (apart n) (fun _ => True) (print ch line).
Proof.
  apply keeps_print with (loud := true); [|easy]. intros; now apply apart_console.
Qed.

Lemma apart_log (lg : bool) (line : list string) :
  keeps (roomy n) (apart n) (fun _ => True) (log lg line).
Proof.
  apply keeps_log with (loud := true); [apply apart_refl | | easy].
  intros; now apply apart_console.
Qed.

Lemma apart_lift {A} (r : Result A) : keeps (roomy n) (apart n) (fun _ => True) (lift r).
Proof. apply keeps_lift; [apply apart_refl | easy]. Qed.

Lemma apart_scan (dbg : bool) (directory : string) (filenames : list string) :
  keeps (roomy n) (apart n) (fun _ => True)
    (parse_filenames env dbg directory ∅ filenames).
Proof.
  intros w Hw.
  destruct (parse_filenames_pure env dbg directory filenames ∅ w) as (w' & -> & Hp).
  { intros k x. now rewrite lookup_empty. }
  cbn [fst snd]. split; [|easy]. rewrite Hp. now apply apart_console.
Qed.

(** [prepare] puts the stats of the run at a new address. *)
Lemma apart_prepare (opts : Options) :
  keeps (roomy n) (apart n) (fun x => (n <= fst (fst x))%nat) (prepare env opts).
Proof.
  unfold prepare. apply apart_then.
  { destruct (req opts) as [r|]; [|now apply apart_ret].
    destruct (require env r); [now apply apart_ret|].
    apply apart_then; [apply apart_print | apply apart_throw]. }
  eapply apart_bind; [apply keeps_get, apart_refl|]. intros w0 Hw0.
  apply apart_then.
  { apply keeps_modify. intros w Hw. now apply apart_fresh. }
  apply apart_then.
  { destruct (negb _); [apply apart_throw | now apply apart_ret]. }
  eapply (apart_bind (fun _ => True)); [apply apart_scan|]. intros files _.
  apply apart_then.
  { apply keeps_update_stats with (good := fun _ => True);
      [apply apart_refl | now apply apart_heap | exact I]. }
  apply apart_then; [apply apart_log|].
  apply apart_then.
  { apply keeps_modify. intros w Hw. apply apart_statsMap; [exact 0%nat | assumption|].
    intros k Hk. apply lookup_insert_ne. unfold roomy in Hw0. lia. }
  apply apart_then.
  { destruct (opt_dryrun opts); [apply apart_log | now apply apart_ret]. }
  apply apart_then.
  { unfold proxyWritableMethods.
    eapply apart_bind; [apply keeps_get, apart_refl|]. intros w1 _.
    destruct (proxied w1); [now apply apart_ret|].
    apply keeps_modify. intros w Hw. now apply apart_proxied. }
  apply apart_then; [apply apart_lift|].
  eapply apart_bind; [apply keeps_get, apart_refl|]. intros w1 _.
  apply apart_then.
  { destruct (get_latest (history w1)) as [l|]; [|now apply apart_ret].
    destruct (negb (success l)); [apply apart_throw | now apply apart_ret]. }
  eapply (apart_bind (fun _ => True)); [apply apart_lift|]. intros [files' rank] _.
  apply apart_then; [apply apart_log|]. now apply apart_ret.
Qed.

Lemma apart_finish (opts : Options) (sid : nat) :
  (n <= sid)%nat -> keeps (roomy n) (apart n) (fun _ => True) (finish opts sid).
Proof.
  intros Hs. unfold finish.
  eapply apart_bind; [apply keeps_get, apart_refl|]. intros w0 _.
  apply apart_then; [apply apart_log|].
  apply apart_then; [apply apart_log|].
  apply apart_then; [apply apart_log|].
  apply apart_then; [|now apply apart_ret].
  apply keeps_modify. intros w Hw. apply apart_statsMap; [exact 0%nat | assumption|].
  intros k Hk. apply lookup_delete_ne. lia.
Qed.

Lemma apart_migrate (opts : Options) :
  keeps (roomy n) (apart n) (fun _ => True) (migrate env opts).
Proof.
  unfold migrate. eapply apart_bind; [apply apart_prepare|].
  intros [[sid files] rank] Hs. cbn [fst snd] in *.
  apply apart_then; [|now apply apart_finish].
  apply keeps_run_files with (good := fun _ => True) (loud := true);
    first [ apply apart_refl | apply apart_trans | apply apart_pre
          | apply apart_clock | apply apart_event | apply apart_store
          | now apply apart_heap | easy | intros; now apply apart_console ].
Qed.

End Apart.

(** X9. A run leaves alone what earlier runs left in the process: the stats
    that earlier runs made, which are the first of the heap, and the entries
    of [statsMap] of earlier runs, whatever the scripts of the run do with
    the [firestore] they are given and with Firestore instances of their
    own, and however the run ends. *)
Theorem earlier_runs_untouched (env : Env) (opts : Options) (w : World) :
  take (List.length (heap w)) (heap (snd (migrate env opts w))) = heap w
  /\ forall k, (k < List.length (heap w))%nat ->
       statsMap (snd (migrate env opts w)) !! k = statsMap w !! k.
Proof.
  destruct (apart_migrate env (List.length (heap w)) opts w) as [(_ & Hh & Hm) _].
  { unfold roomy. lia. }
  split; [|assumption]. rewrite Hh. apply firstn_all.
Qed.

(** *** The two counts of files *)

(** From [w] to [w'] the stats at [sid] kept [scannedFiles] and
    [executedFiles]. *)
Definition same_counts (sid : nat) (w w' : World) : Prop :=
  forall st,
    heap w !! sid = Some st ->
    exists st',
      heap w' !! sid = Some st'
      /\ scannedFiles st' = scannedFiles st /\ executedFiles st' = executedFiles st.

Definition keeps_counts (f : Stats -> Stats) : Prop :=
  forall st, scannedFiles (f st) = scannedFiles st
             /\ executedFiles (f st) = executedFiles st.

Lemma same_counts_refl (sid : nat) (w : World) : True -> same_counts sid w w.
Proof. intros _ st H. now exists st. Qed.

Lemma same_counts_trans (sid : nat) (w1 w2 w3 : World) :
  same_counts sid w1 w2 -> same_counts sid w2 w3 -> same_counts sid w1 w3.
Proof.
  intros H1 H2 st H. destruct (H1 st H) as (st1 & E1 & S1 & X1).
  destruct (H2 st1 E1) as (st2 & E2 & S2 & X2).
  exists st2. split; [assumption|]. split; congruence.
Qed.

Lemma same_counts_heap (sid : nat) (w : World) (f : Stats -> Stats) (st : Stats) :
  True -> keeps_counts f -> heap w !! sid = Some st ->
  same_counts sid w (set_heap (<[sid := f st]> (heap w)) w).
Proof.
  intros _ Hf E st0 E0. rewrite E in E0. injection E0 as <-.
  exists (f st). split; [|apply Hf].
  cbn [heap set_heap]. apply list_lookup_insert_eq. eapply lookup_lt_Some, E.
Qed.

Lemma bump_keeps_counts (m : Method) : keeps_counts (bump m).
Proof. intros st. now destruct m. Qed.

Lemma with_frozen_keeps_counts (b : bool) : keeps_counts (with_frozen b).
Proof. intros st. now split. Qed.

Lemma same_counts_heap_eq (sid : nat) (w w' : World) :
  heap w' = heap w -> same_counts sid w w'.
Proof. intros H st E. exists st. now rewrite H. Qed.

(** One file of the loop: [executedFiles] goes up by one, and nothing else
    assigns to the two counts. *)
Lemma run_file_counts (env : Env) (opts : Options) (sid : nat) (file : MigrationFile)
    (rank : Z) (w : World) (st : Stats) :
  heap w !! sid = Some st ->
  exists st',
    heap (snd (run_file env opts sid file rank w)) !! sid = Some st'
    /\ scannedFiles st' = scannedFiles st
    /\ executedFiles st' = executedFiles st + 1.
Proof.
  intros E.
  assert (H : same_counts sid
                (snd (update_stats sid
                        (fun st => with_executedFiles (executedFiles st + 1) st) w))
                (snd (run_file env opts sid file rank w))).
  { apply run_file_after_count
      with (Pre := fun _ => True) (good := keeps_counts) (loud := true);
      first [ apply same_counts_refl | apply same_counts_trans
            | apply same_counts_heap | apply bump_keeps_counts
            | apply with_frozen_keeps_counts | easy
            | intros; now apply same_counts_heap_eq ]. }
  rewrite (update_stats_eq _ _ _ _ E) in H. cbn [snd] in H.
  destruct (H (with_executedFiles (executedFiles st + 1) st)) as (st' & E' & S' & X').
  { cbn [heap set_heap]. apply list_lookup_insert_eq. eapply lookup_lt_Some, E. }
  exists st'. split; [assumption|]. now split.
Qed.

Lemma run_files_counts (env : Env) (opts : Options) (sid : nat)
    (files : list MigrationFile) :
  forall (rank : Z) (w : World) (st : Stats),
    heap w !! sid = Some st ->
    fst (run_files env opts sid files rank w) = Done tt ->
    exists st',
      heap (snd (run_files env opts sid files rank w)) !! sid = Some st'
      /\ scannedFiles st' = scannedFiles st
      /\ executedFiles st' = executedFiles st + Z.of_nat (List.length files).
Proof.
  induction files as [|f rest IH]; intros rank w st E Hd.
  - exists st. cbn. split; [assumption|]. split; [reflexivity | lia].
  - destruct (run_file_counts env opts sid f rank w st E) as (st1 & E1 & S1 & X1).
    cbn [run_files] in *. unfold bind at 1 in Hd. unfold bind at 1.
    destruct (run_file env opts sid f rank w) as [[[s r]| |] w1]; cbn [fst snd] in *;
      try discriminate Hd.
    destruct (negb s); [discriminate Hd|].
    destruct (IH r w1 st1 E1 Hd) as (st2 & E2 & S2 & X2).
    exists st2. split; [assumption|]. split; [congruence|].
    rewrite X2, X1. cbn [List.length]. lia.
Qed.

(** X10. The stats that [migrate] returns count the files: [scannedFiles] is
    the number of names of the directory that the scan took for migration
    files, [executedFiles] the number of those that were pending, all of
    which the loop has run; no script changed the two counts, and
    [frozen] is not left on the object. *)
Theorem returned_counts (env : Env) (opts : Options) (w w' : World) (st : Stats) :
  migrate env opts w = (Done st, w') ->
  exists scanned files rank,
    scan_pure env (directory_of env opts) ∅ (filenames_in env (directory_of env opts))
    = Ok scanned
    /\ pending_files (get_latest (history w)) scanned = Ok (files, rank)
    /\ scannedFiles st = Z.of_nat (List.length scanned)
    /\ executedFiles st = Z.of_nat (List.length files)
    /\ frozen st = false.
Proof.
  intros Hm.
  destruct (prepare_eq env opts w) as (w1 & Hprep & _ & Hrun).
  unfold migrate in Hm. unfold bind at 1 in Hm. rewrite Hprep in Hm.
  destruct (prepare_pure env opts (history w)) as [[[files rank] scanned]|e] eqn:Ep;
    cbn [rbind outcome_of] in Hm; [|discriminate Hm].
  destruct (prepare_pure_ok env opts (history w) files scanned rank Ep)
    as (Hscan & _ & _ & Hpend).
  destruct (Hrun _ _ _ eq_refl) as (Hr1 & Hst1).
  exists scanned, files, rank. split; [assumption|]. split; [assumption|].
  cbn [fst snd] in Hm. unfold bind at 1 in Hm.
  destruct (run_files_spec env opts false (List.length (heap w)) files rank w1 Hr1)
    as (r & w2 & k & recs & Hloop & _ & _ & _ & _ & Hd); try discriminate.
  pose proof (run_files_counts env opts (List.length (heap w)) files rank w1 _ Hst1)
    as Hc.
  rewrite Hloop in Hm, Hc. cbn [fst snd] in Hc.
  destruct r as [[]| |]; try discriminate Hm.
  destruct (Hc eq_refl) as (st2 & E2 & S2 & X2).
  destruct (Hd eq_refl) as (_ & _ & Hr2).
  destruct (finish_spec opts (List.length (heap w)) w2) as (w3 & Hfin & _).
  rewrite Hfin in Hm. injection Hm as <- _. rewrite E2. cbn [default from_option id].
  split; [now rewrite S2|]. split; [now rewrite X2|].
  destruct Hr2 as [_ _ (st3 & E3 & F3)]. congruence.
Qed.

Lemma returned_counts_witness :
  exists scanned files rank,
    scan_pure Sample.two_pass
      (directory_of Sample.two_pass (Sample.options false false)) ∅
      (filenames_in Sample.two_pass
         (directory_of Sample.two_pass (Sample.options false false)))
    = Ok scanned
    /\ pending_files (get_latest (history Sample.fresh)) scanned = Ok (files, rank)
    /\ 2 = Z.of_nat (List.length scanned)
    /\ 2 = Z.of_nat (List.length files)
    /\ false = false.
Proof.
  refine (returned_counts Sample.two_pass (Sample.options false false) Sample.fresh
            (snd (migrate Sample.two_pass (Sample.options false false) Sample.fresh))
            {| scannedFiles := 2; executedFiles := 2; created := 2; set := 4;
               updated := 2; deleted := 2; added := 2; frozen := false |} _).
  vm_compute. reflexivity.
Defined.

(** *** The entry of the run in [statsMap] *)

Lemma finish_statsMap (opts : Options) (stats : nat) (w : World) :
  statsMap (snd (finish opts stats w)) = delete stats (statsMap w).
Proof.
  unfold finish, bind, get. rewrite !log_eq. unfold modify, ret, logged.
  now destruct (debug opts).
Qed.

(** X11. A run that reaches its loop is in [statsMap] under its stats, with
    its [dryrun] and its [log]. The entry is deleted when the run returns;
    when the run throws in the loop or waits for ever the entry stays. *)
Theorem registration_lifecycle (env : Env) (opts : Options) (w : World)
    (files scanned : list MigrationFile) (rank : Z) :
  prepare_pure env opts (history w) = Ok (files, rank, scanned) ->
  statsMap (snd (migrate env opts w)) !! List.length (heap w)
  = match fst (migrate env opts w) with
    | Done _ => None
    | _ => Some {| dryrun := opt_dryrun opts; log_debug := debug opts |}
    end.
Proof.
  intros Ep.
  destruct (prepare_eq env opts w) as (w1 & Hprep & _ & Hrun).
  rewrite Ep in Hprep. cbn [rbind outcome_of] in Hprep.
  destruct (Hrun _ _ _ Ep) as (Hr1 & _).
  assert (Hm : migrate env opts w
               = (run_files env opts (List.length (heap w)) files rank >>
                  finish opts (List.length (heap w))) w1).
  { unfold migrate. unfold bind at 1. now rewrite Hprep. }
  rewrite Hm. clear Hm. unfold bind.
  destruct (run_files_spec env opts false (List.length (heap w)) files rank w1 Hr1)
    as (r & w2 & k & recs & -> & P & _); try discriminate.
  assert (E2 : statsMap w2 !! List.length (heap w)
               = Some {| dryrun := opt_dryrun opts; log_debug := debug opts |}).
  { rewrite (p_statsMap _ _ _ _ _ _ P). apply Hr1. }
  destruct r as [[]| |]; cbn [fst snd]; try assumption.
  destruct (finish_spec opts (List.length (heap w)) w2) as (w3 & Hfin & _).
  pose proof (finish_statsMap opts (List.length (heap w)) w2) as Hs.
  rewrite Hfin in *. cbn [fst snd] in *. rewrite Hs. apply lookup_delete_eq.
Qed.

Lemma registration_lifecycle_witness :
  statsMap (snd (migrate Sample.first_fails (Sample.options false false) Sample.fresh))
    !! List.length (heap Sample.fresh)
  = match fst (migrate Sample.first_fails (Sample.options false false) Sample.fresh) with
    | Done _ => None
    | _ => Some {| dryrun := opt_dryrun (Sample.options false false);
                   log_debug := debug (Sample.options false false) |}
    end.
Proof.
  refine (registration_lifecycle Sample.first_fails (Sample.options false false)
            Sample.fresh _ _ _ _).
  vm_compute. reflexivity.
Defined.

(** ** Firestore instances that are not of the run *)

(** A call on a Firestore of the script's own, which carries no
    [_fireway_stats]. *)
Definition foreign_action (a : Action) : Prop :=
  match a with
  | DocCreate i _ _ | DocSet i _ _ _ | DocUpdate i _ _ | DocDelete i _
  | CollectionAdd i _ _ _ | NewBatch i => i = Foreign
  | _ => True
  end.

Inductive foreign_only : Script -> Prop :=
| foreign_finish (e : Ending) : foreign_only (Finish e)
| foreign_do (a : Action) (k : Reply -> Script) :
    foreign_action a -> (forall r, foreign_only (k r)) -> foreign_only (Do a k).

(** A batch of such a Firestore. *)
Definition plain (x : WriteBatch) : Prop :=
  wb_fireway_stats x = None /\ fireway_queue x = [].

(** [m] does the same whether or not [proxyWritableMethods] has patched the
    prototypes, and it neither counts nor prints. *)
Definition blind {A} (m : M A) : Prop :=
  forall b w,
    m (set_proxied b w) = (fst (m w), set_proxied b (snd (m w)))
    /\ heap (snd (m w)) = heap w /\ console (snd (m w)) = console w.

Lemma blind_ret {A} (x : A) : blind (ret x).
Proof. now intros b w. Qed.

Lemma blind_lift {A} (r : Result A) : blind (lift r).
Proof. intros b w. now destruct r. Qed.

Lemma blind_ext {A} (m m' : M A) : (forall w, m w = m' w) -> blind m' -> blind m.
Proof. intros H Hm b w. rewrite !H. apply Hm. Qed.

Lemma blind_bind {A B} (P : A -> Prop) (m : M A) (k : A -> M B) :
  blind m -> (forall w x, fst (m w) = Done x -> P x) -> (forall x, P x -> blind (k x)) ->
  blind (bind m k).
Proof.
  intros Hm Hp Hk b w. unfold bind. destruct (Hm b w) as (-> & Hh & Hc).
  specialize (Hp w).
  destruct (m w) as [[x|e|] w1]; cbn [fst snd] in *; try now repeat split.
  destruct (Hk x (Hp x eq_refl) b w1) as (-> & Hh1 & Hc1).
  split; [reflexivity|]. split; congruence.
Qed.

Lemma blind_catch {A} (m : M A) (h : string -> M A) :
  blind m -> (forall e, blind (h e)) -> blind (catch m h).
Proof.
  intros Hm Hh b w. unfold catch. destruct (Hm b w) as (-> & Hh0 & Hc0).
  destruct (m w) as [[x|e|] w1]; cbn [fst snd] in *; try now repeat split.
  destruct (Hh e b w1) as (-> & Hh1 & Hc1).
  split; [reflexivity|]. split; congruence.
Qed.

Lemma blind_awaited (m : M (list unit)) : blind m -> blind (awaited m).
Proof.
  intros H. unfold awaited. apply blind_catch.
  - apply (blind_bind (fun _ => True)); [assumption | easy | intros; apply blind_ret].
  - intros e. apply blind_ret.
Qed.

Lemma original_plain (m : Method) (x y : WriteBatch) (args : Args) :
  plain x -> original m x args = Ok y -> plain y.
Proof.
  intros [Ht Hq]. unfold original.
  destruct m, (a_doc args); intros [= <-]; now split.
Qed.

Lemma WriteBatch_call_plain (m : Method) (x : WriteBatch) (args : Args) (w : World) :
  plain x -> WriteBatch_call m x args w = (outcome_of (original m x args), w).
Proof.
  intros [Ht Hq]. unfold WriteBatch_call, bind, get, mitm_batch. rewrite Ht.
  cbn [owner]. destruct (proxied w); now destruct (original m x args).
Qed.

Lemma ogCommit_blind (env : Env) (x : WriteBatch) : blind (ogCommit env x).
Proof.
  intros b w. unfold ogCommit, bind, get. cbn [history docs set_proxied].
  now destruct (apply_ops env (history w, docs w) (wb_ops x)) as [[h d]|e].
Qed.

Lemma WriteBatch_call_blind (m : Method) (x : WriteBatch) (args : Args) :
  plain x -> blind (WriteBatch_call m x args).
Proof. intros Hx b w. now rewrite !WriteBatch_call_plain. Qed.

Lemma commit_plain (env : Env) (x : WriteBatch) (w : World) :
  plain x -> _commit env x w = ogCommit env x w.
Proof.
  intros [Ht Hq]. unfold _commit, bind at 1, get at 1.
  destruct (proxied w); [|reflexivity].
  rewrite Hq. cbn [drain]. unfold bind, ret, get, commit_suppressed. rewrite Ht.
  reflexivity.
Qed.

Lemma commit_blind (env : Env) (x : WriteBatch) : plain x -> blind (_commit env x).
Proof.
  intros Hx. apply (blind_ext _ (ogCommit env x)); [|apply ogCommit_blind].
  intros w. now apply commit_plain.
Qed.

Lemma DocumentReference_call_blind (env : Env) (m : Method) (args : Args) :
  blind (DocumentReference_call env m None args).
Proof.
  assert (Hn : plain (new_WriteBatch None)) by now split.
  unfold DocumentReference_call. apply (blind_bind plain).
  - now apply WriteBatch_call_blind.
  - intros w x. rewrite WriteBatch_call_plain by assumption. cbn [fst].
    destruct (original m (new_WriteBatch None) args) as [y|e] eqn:E; [|discriminate].
    intros [= <-]. eapply original_plain; eassumption.
  - intros x Hx. now apply commit_blind.
Qed.

Lemma CollectionReference_add_foreign (env : Env) (collection autoId : string)
    (d : Doc) (w : World) :
  CollectionReference_add env None collection autoId d w
  = DocumentReference_call env MCreate None
      {| a_ref := collection +:+ "/" +:+ autoId; a_doc := Some (UserDoc d);
         a_merge := false |} w.
Proof.
  unfold CollectionReference_add, bind at 1, get at 1, mitm_add. cbn [owner].
  now destruct (proxied w).
Qed.

Lemma batch_call_blind (m : Method) (xs : list WriteBatch) (n : nat) (args : Args) :
  Forall plain xs ->
  blind (batch_call m xs n args)
  /\ forall w r ys, fst (batch_call m xs n args w) = Done (r, ys) -> Forall plain ys.
Proof.
  intros Hxs. unfold batch_call.
  destruct (xs !! n) as [x|] eqn:E.
  - assert (Hx : plain x) by (eapply Forall_lookup_1; eassumption).
    assert (Hc : forall w,
              (let* w0 := get in
               let '(this', args') :=
                 if proxied w0 then mitm_batch m (statsMap w0) x args else (x, args) in
               match original m this' args' with
               | Ok this'' => ret (RUnit, <[n := this'']> xs)
               | Throw _ => ret (RUnit, <[n := this']> xs)
               end) w
              = (Done (RUnit, <[n := match original m x args with
                                     | Ok y => y
                                     | Throw _ => x
                                     end]> xs), w)).
    { intros w. unfold bind, get, mitm_batch. rewrite (proj1 Hx). cbn [owner].
      destruct (proxied w); now destruct (original m x args). }
    split.
    + eapply blind_ext; [exact Hc | apply blind_ret].
    + intros w r ys. rewrite Hc. cbn [fst]. intros [= _ <-].
      apply Forall_insert; [assumption|].
      destruct (original m x args) as [y|e] eqn:Eo; [|assumption].
      eapply original_plain; eassumption.
  - split; [apply blind_ret|]. intros w r ys [= _ <-]. assumption.
Qed.

Lemma clear_queue_plain (x : WriteBatch) : plain x -> clear_queue x = x.
Proof. destruct x as [t o q]. intros [_ Hq]. cbn in Hq. now subst q. Qed.

Lemma perform_blind (env : Env) (sid : nat) (a : Action) (xs : list WriteBatch) :
  foreign_action a -> Forall plain xs ->
  blind (perform env sid a xs)
  /\ forall w r ys, fst (perform env sid a xs w) = Done (r, ys) -> Forall plain ys.
Proof.
  intros Ha Hxs.
  assert (Hdoc : forall m : M (list unit),
            blind m ->
            blind (let* r := awaited m in ret (r, xs))
            /\ forall w r ys,
                 fst ((let* r := awaited m in ret (r, xs)) w) = Done (r, ys) ->
                 Forall plain ys).
  { intros m Hm. split.
    - apply (blind_bind (fun _ => True)); [now apply blind_awaited | easy|].
      intros; apply blind_ret.
    - intros w r ys. unfold bind. destruct (awaited m w) as [[x|e|] w1]; cbn [fst];
        try discriminate. now intros [= _ <-]. }
  destruct a as [i ref d|i ref d merge|i ref d|i ref|i collection autoId d|i
                |n ref d|n ref d merge|n ref d|n ref|n|ref]; cbn [perform];
    cbn [foreign_action] in Ha; try subst i; cbn [tag_of].
  - apply Hdoc, DocumentReference_call_blind.
  - apply Hdoc, DocumentReference_call_blind.
  - apply Hdoc, DocumentReference_call_blind.
  - apply Hdoc, DocumentReference_call_blind.
  - apply Hdoc. eapply blind_ext; [apply CollectionReference_add_foreign|].
    apply DocumentReference_call_blind.
  - split; [apply blind_ret|]. intros w r ys [= _ <-].
    apply Forall_app. split; [assumption|]. constructor; [now split | constructor].
  - now apply batch_call_blind.
  - now apply batch_call_blind.
  - now apply batch_call_blind.
  - now apply batch_call_blind.
  - destruct (xs !! n) as [x|] eqn:E.
    + assert (Hx : plain x) by (eapply Forall_lookup_1; eassumption).
      assert (Hc : forall w,
                (let* r := awaited (_commit env x) in
                 let* w0 := get in
                 ret (r, <[n := if proxied w0 then clear_queue x else x]> xs)) w
                = (let* r := awaited (_commit env x) in ret (r, xs)) w).
      { intros w. unfold bind, get, ret.
        destruct (awaited (_commit env x) w) as [[r|e|] w1]; try reflexivity.
        rewrite (clear_queue_plain x Hx).
        replace (if proxied w1 then x else x) with x by now destruct (proxied w1).
        now rewrite list_insert_id. }
      destruct (Hdoc (_commit env x) (commit_blind env x Hx)) as [Hb Hp]. split.
      * eapply blind_ext; [exact Hc | exact Hb].
      * intros w r ys. rewrite Hc. apply Hp.
    + split; [apply blind_ret|]. intros w r ys [= _ <-]. assumption.
  - split; [now intros b w|]. intros w r ys [= _ <-]. assumption.
Qed.

(** X12. A script that only calls Firestore instances of its own, which
    carry no [_fireway_stats], does the same with and without the patch of
    [proxyWritableMethods], whatever [statsMap] holds, in a dry run too: it
    ends the same way and leaves the same world; none of its calls is
    counted or logged. *)
Theorem foreign_calls_pass (env : Env) (sid : nat) (s : Script) :
  foreign_only s ->
  forall (xs : list WriteBatch) (b : bool) (w : World),
    Forall plain xs ->
    run_script env sid s xs (set_proxied b w)
    = (fst (run_script env sid s xs w), set_proxied b (snd (run_script env sid s xs w)))
    /\ heap (snd (run_script env sid s xs w)) = heap w
    /\ console (snd (run_script env sid s xs w)) = console w.
Proof.
  induction 1 as [e|a k Ha Hk IH]; intros xs b w Hxs; cbn [run_script].
  - now repeat split.
  - destruct (perform_blind env sid a xs Ha Hxs) as [Hb Hp].
    unfold bind. destruct (Hb b w) as (-> & Hh & Hc). specialize (Hp w).
    destruct (perform env sid a xs w) as [[[r ys]| |] w1]; cbn [fst snd] in *;
      try now repeat split.
    destruct (IH r ys b w1 (Hp r ys eq_refl)) as (-> & Hh1 & Hc1).
    split; [reflexivity|]. split; congruence.
Qed.

(** A script that sets a document on a Firestore of its own, in a world
    where a dry run is registered. *)
Definition outsider : Script :=
  Do (DocSet Foreign "a/1" Sample.user false) (fun _ => Finish Sample.calm).

Definition in_dry_run : World :=
  {| proxied := false;
     statsMap := {[ 0%nat := {| dryrun := true; log_debug := true |} ]};
     heap := [new_stats]; history := []; docs := ∅; console := []; clock := 0;
     events := [] |}.

Lemma foreign_calls_pass_witness :
  run_script (Sample.one_file outsider) 0 outsider [] (set_proxied true in_dry_run)
  = (fst (run_script (Sample.one_file outsider) 0 outsider [] in_dry_run),
     set_proxied true (snd (run_script (Sample.one_file outsider) 0 outsider []
                              in_dry_run)))
  /\ heap (snd (run_script (Sample.one_file outsider) 0 outsider [] in_dry_run))
     = heap in_dry_run
  /\ console (snd (run_script (Sample.one_file outsider) 0 outsider [] in_dry_run))
     = console in_dry_run.
Proof.
  apply foreign_calls_pass.
  - constructor; [reflexivity | intros r; constructor].
  - constructor.
Defined.

(** ** A run that is no dry run *)

Section Transparent.

Variable env : Env.

(** The address of the stats of the run. *)
Variable sid : nat.

(** The data of a write, without the symbol. *)
Definition strip (p : Payload) : Payload :=
  match p with
  | UserDoc d => UserDoc {| doc_json := doc_json d; skipWriteBatch := false |}
  | RecordDoc r => RecordDoc r
  end.

Definition strip_op (op : WriteOp) : WriteOp :=
  match op with
  | OpCreate ref d => OpCreate ref (strip d)
  | OpSet ref d merge => OpSet ref (strip d) merge
  | OpUpdate ref d => OpUpdate ref (strip d)
  | OpDelete ref => OpDelete ref
  end.

Lemma apply_op_strip (st : Store) (op : WriteOp) :
  apply_op env st (strip_op op) = apply_op env st op.
Proof. destruct st as [h d]. now destruct op as [ref [x|r]|ref [x|r] mg|ref [x|r]|ref]. Qed.

Lemma apply_ops_strip (ops ops' : list WriteOp) :
  map strip_op ops = map strip_op ops' ->
  forall st, apply_ops env st ops = apply_ops env st ops'.
Proof.
  revert ops'. induction ops as [|op rest IH]; intros [|op' rest'] H st;
    try discriminate H; [reflexivity|].
  injection H as Hop Hrest. cbn [apply_ops].
  rewrite <- (apply_op_strip st op), Hop, apply_op_strip.
  destruct (apply_op env st op') as [st'|e]; cbn [rbind]; [now apply IH | reflexivity].
Qed.

(** The intercepted run, in [w], and the same calls on a client that is not
    patched, in [v]: the run is no dry run, and the databases are equal. *)
Record real (w v : World) : Prop := {
  re_live : forall cfg, statsMap w !! sid = Some cfg -> dryrun cfg = false;
  re_off : proxied v = false;
  re_history : history w = history v;
  re_docs : docs w = docs v
}.

Definition agree {A B} (Q : A -> B -> Prop) (m : M A) (m' : M B) : Prop :=
  forall w v,
    real w v -> outcome_sim Q (fst (m w)) (fst (m' v)) /\ real (snd (m w)) (snd (m' v)).

Lemma agree_ret {A B} (Q : A -> B -> Prop) (x : A) (y : B) :
  Q x y -> agree Q (ret x) (ret y).
Proof. intros H w v R. now split. Qed.

Lemma agree_bind {A B C D} (Q : A -> B -> Prop) (S : C -> D -> Prop)
    (m : M A) (m' : M B) (k : A -> M C) (k' : B -> M D) :
  agree Q m m' -> (forall x y, Q x y -> agree S (k x) (k' y)) ->
  agree S (bind m k) (bind m' k').
Proof.
  intros Hm Hk w v R. unfold bind. specialize (Hm w v R).
  destruct (m w) as [[x|e|] w1], (m' v) as [[y|e'|] v1]; cbn [fst snd] in Hm;
    destruct Hm as [Ho R1]; try contradiction.
  - now apply Hk.
  - now split.
  - now split.
Qed.

Lemma agree_catch {A B} (Q : A -> B -> Prop) (m : M A) (m' : M B)
    (h : string -> M A) (h' : string -> M B) :
  agree Q m m' -> (forall e, agree Q (h e) (h' e)) -> agree Q (catch m h) (catch m' h').
Proof.
  intros Hm Hh w v R. unfold catch. specialize (Hm w v R).
  destruct (m w) as [[x|e|] w1], (m' v) as [[y|e'|] v1]; cbn [fst snd] in Hm;
    destruct Hm as [Ho R1]; try contradiction.
  - now split.
  - cbn in Ho. subst e'. now apply Hh.
  - now split.
Qed.

(** What only the intercepted run does: the callbacks of [mitm]. *)
Lemma real_called (m : Method) (args : Args) (stats : nat) (lg : bool) (w v : World) :
  real w v -> real (called env m args stats lg w) v.
Proof.
  intros [R1 R2 R3 R4].
  destruct (called_fields env m args stats lg w) as (_ & Hs & Hh & Hd & _).
  constructor; [now rewrite Hs | assumption | now rewrite Hh | now rewrite Hd].
Qed.

Lemma real_drained (q : list Pending) (w v : World) :
  real w v -> real (drained env q w) v.
Proof.
  revert w. induction q as [|p rest IH]; intros w R; [assumption|].
  rewrite drained_cons. apply IH. now apply real_called.
Qed.

(** Two batches of the same writes; the queue is the intercepted run's. *)
Definition paired (x x' : WriteBatch) : Prop :=
  tame_tag sid (wb_fireway_stats x)
  /\ map strip_op (wb_ops x) = map strip_op (wb_ops x').

Definition same_data (a a' : Args) : Prop :=
  a_ref a = a_ref a' /\ a_merge a = a_merge a'
  /\ option_map strip (a_doc a) = option_map strip (a_doc a').

Lemma same_data_refl (a : Args) : same_data a a.
Proof. now repeat split. Qed.

Lemma same_data_mark (b : bool) (a a' : Args) :
  same_data a a' -> same_data (with_mark b a) a'.
Proof.
  intros (Hr & Hm & Hd). unfold same_data, with_mark. cbn [a_ref a_merge a_doc].
  split; [assumption|]. split; [assumption|]. rewrite <- Hd.
  now destruct (a_doc a) as [[d|r]|].
Qed.

Lemma original_paired (m : Method) (x x' : WriteBatch) (a a' : Args) :
  paired x x' -> same_data a a' ->
  match original m x a, original m x' a' with
  | Ok y, Ok y' => paired y y'
  | Throw e, Throw e' => e = e'
  | _, _ => False
  end.
Proof.
  intros [Ht Ho] (Hr & Hm & Hd). unfold original.
  destruct (a_doc a) as [d|], (a_doc a') as [d'|]; try discriminate Hd;
    cbn [option_map] in Hd; destruct m; try reflexivity;
    (split; [exact Ht|]); cbn [wb_ops]; rewrite !map_app, Ho; cbn [map strip_op];
    try injection Hd as Hd; congruence.
Qed.

Lemma paired_push (p : Pending) (x x' : WriteBatch) :
  paired x x' -> paired (push_queue p x) x'.
Proof. now intros [Ht Ho]. Qed.

Lemma WriteBatch_call_agree (m : Method) (x x' : WriteBatch) (a a' : Args) :
  paired x x' -> same_data a a' ->
  agree paired (WriteBatch_call m x a) (WriteBatch_call m x' a').
Proof.
  intros Hx Ha w v R. unfold WriteBatch_call, bind, get.
  rewrite (re_off _ _ R).
  assert (H : exists y b, (if proxied w then mitm_batch m (statsMap w) x a else (x, a))
                          = (y, b) /\ paired y x' /\ same_data b a').
  { destruct (proxied w); [|now exists x, a].
    unfold mitm_batch. destruct (owner (statsMap w) (wb_fireway_stats x)) as [[n cfg]|];
      [|now exists x, a].
    destruct (marked (a_doc a)).
    - eexists _, _. split; [reflexivity|]. split; [assumption|].
      now apply same_data_mark.
    - eexists _, _. split; [reflexivity|]. split; [now apply paired_push | assumption]. }
  destruct H as (y & b & -> & Hy & Hb).
  pose proof (original_paired m y x' b a' Hy Hb) as Ho.
  destruct (original m y b), (original m x' a'); try contradiction; now split.
Qed.

Lemma ogCommit_agree (x x' : WriteBatch) :
  paired x x' -> agree (fun _ _ => True) (ogCommit env x) (ogCommit env x').
Proof.
  intros [Ht Ho] w v R. unfold ogCommit, bind, get.
  rewrite (re_history _ _ R), (re_docs _ _ R).
  rewrite (apply_ops_strip _ _ Ho).
  destruct (apply_ops env (history v, docs v) (wb_ops x')) as [[h d]|e];
    cbn; (split; [easy|]); destruct R as [R1 R2 R3 R4]; now constructor.
Qed.

Lemma commit_agree (x x' : WriteBatch) :
  paired x x' -> agree (fun _ _ => True) (_commit env x) (_commit env x').
Proof.
  intros Hx w v R.
  assert (Ev : _commit env x' v = ogCommit env x' v).
  { unfold _commit, bind, get. now rewrite (re_off _ _ R). }
  assert (Ew : exists w1, _commit env x w = ogCommit env x w1 /\ real w1 v).
  { unfold _commit. unfold bind at 1, get at 1.
    destruct (proxied w); [|now exists w].
    unfold bind at 1. rewrite drain_eq. unfold bind at 1, get at 1.
    pose proof (real_drained (fireway_queue x) w v R) as R1.
    exists (drained env (fireway_queue x) w). split; [|assumption].
    assert (Hs : commit_suppressed (statsMap (drained env (fireway_queue x) w)) x
                 = false).
    { unfold commit_suppressed.
      destruct Hx as [[Ht|Ht] _]; rewrite Ht; cbn [owner]; [|reflexivity].
      destruct (statsMap (drained env (fireway_queue x) w) !! sid) as [cfg|] eqn:E;
        [|reflexivity].
      exact (re_live _ _ R1 cfg E). }
    now rewrite Hs. }
  destruct Ew as (w1 & Ew & R1). rewrite Ev, Ew. now apply ogCommit_agree.
Qed.

Lemma new_WriteBatch_paired (t : option nat) :
  tame_tag sid t -> paired (new_WriteBatch t) (new_WriteBatch t).
Proof. intros H. now split. Qed.

Lemma DocumentReference_call_agree (m : Method) (t : option nat) (a a' : Args) :
  tame_tag sid t -> same_data a a' ->
  agree (fun _ _ => True) (DocumentReference_call env m t a)
    (DocumentReference_call env m t a').
Proof.
  intros Ht Ha. unfold DocumentReference_call.
  eapply agree_bind.
  - apply WriteBatch_call_agree; [now apply new_WriteBatch_paired | assumption].
  - intros y y' Hy. now apply commit_agree.
Qed.

Lemma CollectionReference_add_agree (t : option nat) (collection autoId : string)
    (d : Doc) :
  tame_tag sid t ->
  agree (fun _ _ => True) (CollectionReference_add env t collection autoId d)
    (CollectionReference_add env t collection autoId d).
Proof.
  intros Ht w v R.
  set (args := {| a_ref := collection; a_doc := Some (UserDoc d); a_merge := false |}).
  assert (Ev : CollectionReference_add env t collection autoId d v
               = DocumentReference_call env MCreate t
                   {| a_ref := collection +:+ "/" +:+ autoId; a_doc := a_doc args;
                      a_merge := false |} v).
  { unfold CollectionReference_add, bind, get. now rewrite (re_off _ _ R). }
  assert (Ew : exists w1 b,
             CollectionReference_add env t collection autoId d w
             = DocumentReference_call env MCreate t
                 {| a_ref := collection +:+ "/" +:+ autoId; a_doc := a_doc b;
                    a_merge := false |} w1
             /\ real w1 v
             /\ option_map strip (a_doc b) = option_map strip (a_doc args)).
  { unfold CollectionReference_add. unfold bind at 1, get at 1. fold args.
    destruct (proxied w); [|now exists w, args].
    unfold mitm_add. destruct (owner (statsMap w) t) as [[n cfg]|];
      [|now exists w, args].
    unfold bind at 1. unfold bind at 1. rewrite call_fn_eq.
    eexists _, _. split; [reflexivity|].
    split; [now apply real_called | reflexivity]. }
  destruct Ew as (w1 & b & Ew & R1 & Hb). rewrite Ev, Ew.
  apply DocumentReference_call_agree; [assumption | | assumption].
  now repeat split.
Qed.

Lemma awaited_agree (m m' : M (list unit)) :
  agree (fun _ _ => True) m m' -> agree eq (awaited m) (awaited m').
Proof.
  intros H. unfold awaited. apply agree_catch.
  - eapply agree_bind; [exact H|]. intros; now apply agree_ret.
  - intros e. now apply agree_ret.
Qed.

Definition same_step (p q : Reply * list WriteBatch) : Prop :=
  fst p = fst q /\ Forall2 paired (snd p) (snd q).

Lemma batch_call_agree (m : Method) (xs xs' : list WriteBatch) (n : nat) (a : Args) :
  Forall2 paired xs xs' ->
  agree same_step (batch_call m xs n a) (batch_call m xs' n a).
Proof.
  intros Hxs w v R. unfold batch_call.
  pose proof (proj1 (Forall2_lookup _ _ _) Hxs n) as Hn.
  destruct (xs !! n) as [x|], (xs' !! n) as [x'|]; inversion Hn as [? ? Hx|]; subst;
    [|now split].
  unfold bind, get. rewrite (re_off _ _ R).
  assert (H : exists y b, (if proxied w then mitm_batch m (statsMap w) x a else (x, a))
                          = (y, b) /\ paired y x' /\ same_data b a).
  { destruct (proxied w);
      [|exists x, a; split; [reflexivity|]; split; [assumption | apply same_data_refl]].
    unfold mitm_batch. destruct (owner (statsMap w) (wb_fireway_stats x)) as [[k cfg]|];
      [|exists x, a; split; [reflexivity|]; split; [assumption | apply same_data_refl]].
    destruct (marked (a_doc a)).
    - eexists _, _. split; [reflexivity|]. split; [assumption|].
      apply same_data_mark, same_data_refl.
    - eexists _, _. split; [reflexivity|].
      split; [now apply paired_push | apply same_data_refl]. }
  destruct H as (y & b & -> & Hy & Hb).
  pose proof (original_paired m y x' b a Hy Hb) as Ho.
  destruct (original m y b), (original m x' a); try contradiction; cbn;
    (split; [|assumption]); (split; [reflexivity|]); cbn [snd];
    now apply Forall2_insert.
Qed.

Lemma perform_agree (act : Action) (xs xs' : list WriteBatch) :
  Forall2 paired xs xs' ->
  agree same_step (perform env sid act xs) (perform env sid act xs').
Proof.
  intros Hxs.
  assert (Hdoc : forall m m' : M (list unit),
            agree (fun _ _ => True) m m' ->
            agree same_step (let* r := awaited m in ret (r, xs))
              (let* r := awaited m' in ret (r, xs'))).
  { intros m m' H. eapply agree_bind; [apply awaited_agree, H|].
    intros r r' <-. now apply agree_ret. }
  destruct act as [i ref d|i ref d merge|i ref d|i ref|i collection autoId d|i
                  |n ref d|n ref d merge|n ref d|n ref|n|ref]; cbn [perform].
  - apply Hdoc, DocumentReference_call_agree; [apply tag_of_tame | apply same_data_refl].
  - apply Hdoc, DocumentReference_call_agree; [apply tag_of_tame | apply same_data_refl].
  - apply Hdoc, DocumentReference_call_agree; [apply tag_of_tame | apply same_data_refl].
  - apply Hdoc, DocumentReference_call_agree; [apply tag_of_tame | apply same_data_refl].
  - apply Hdoc, CollectionReference_add_agree, tag_of_tame.
  - apply agree_ret. split; cbn [fst snd].
    + now rewrite (Forall2_length _ _ _ Hxs).
    + apply Forall2_app; [assumption|]. constructor; [|constructor].
      apply new_WriteBatch_paired, tag_of_tame.
  - now apply batch_call_agree.
  - now apply batch_call_agree.
  - now apply batch_call_agree.
  - now apply batch_call_agree.
  - pose proof (proj1 (Forall2_lookup _ _ _) Hxs n) as Hn.
    destruct (xs !! n) as [x|], (xs' !! n) as [x'|]; inversion Hn as [? ? Hx|]; subst;
      [|now apply agree_ret].
    eapply agree_bind; [apply awaited_agree, commit_agree, Hx|]. intros r r' <-.
    intros w v R. unfold bind, get, ret. cbn [fst snd]. split; [|assumption].
    split; [reflexivity|]. cbn [snd]. apply Forall2_insert; [assumption|].
    rewrite (re_off _ _ R). destruct (proxied w); [|assumption].
    destruct Hx as [Ht Ho]. now split.
  - intros w v R. unfold bind, get, ret. cbn [fst snd]. split; [|assumption].
    split; [|assumption]. cbn [fst]. now rewrite (re_docs _ _ R).
Qed.

Lemma run_script_agree (s : Script) :
  forall xs xs',
    Forall2 paired xs xs' ->
    agree eq (run_script env sid s xs) (run_script env sid s xs').
Proof.
  induction s as [e|act k IH]; intros xs xs' Hxs; cbn [run_script].
  - now apply agree_ret.
  - eapply agree_bind; [now apply perform_agree|].
    intros [r ys] [r' ys'] [Hr Hys]. cbn [fst snd] in *. subst r'. now apply IH.
Qed.

End Transparent.

(** X13. Outside a dry run the interception changes nothing of what a script
    does to the database: the entry point ends the same way and leaves the
    same history and the same documents as it does on a client that is not
    patched. *)
Theorem real_run_transparent (env : Env) (sid : nat) (s : Script) (w v : World) :
  (forall cfg, statsMap w !! sid = Some cfg -> dryrun cfg = false) ->
  proxied v = false -> history w = history v -> docs w = docs v ->
  fst (run_script env sid s [] w) = fst (run_script env sid s [] v)
  /\ history (snd (run_script env sid s [] w)) = history (snd (run_script env sid s [] v))
  /\ docs (snd (run_script env sid s [] w)) = docs (snd (run_script env sid s [] v)).
Proof.
  intros H1 H2 H3 H4.
  destruct (run_script_agree env sid s [] [] (List.Forall2_nil _) w v) as [Ho R].
  { now constructor. }
  split; [|split; [apply R | apply R]].
  destruct (fst (run_script env sid s [] w)), (fst (run_script env sid s [] v));
    cbn in Ho; try contradiction; congruence.
Qed.

(** A world where a run that is no dry run is registered. *)
Definition in_real_run : World :=
  {| proxied := true;
     statsMap := {[ 0%nat := {| dryrun := false; log_debug := true |} ]};
     heap := [new_stats]; history := []; docs := ∅; console := []; clock := 0;
     events := [] |}.

Lemma real_run_transparent_witness :
  fst (run_script (Sample.one_file Sample.six_writes) 0 Sample.six_writes [] in_real_run)
  = fst (run_script (Sample.one_file Sample.six_writes) 0 Sample.six_writes []
           Sample.fresh)
  /\ history (snd (run_script (Sample.one_file Sample.six_writes) 0 Sample.six_writes []
                     in_real_run))
     = history (snd (run_script (Sample.one_file Sample.six_writes) 0 Sample.six_writes
                       [] Sample.fresh))
  /\ docs (snd (run_script (Sample.one_file Sample.six_writes) 0 Sample.six_writes []
                  in_real_run))
     = docs (snd (run_script (Sample.one_file Sample.six_writes) 0 Sample.six_writes []
                    Sample.fresh)).
Proof.
  apply real_run_transparent; try reflexivity.
  intros cfg H. unfold in_real_run in H. cbn [statsMap] in H.
  rewrite lookup_singleton_eq in H. now injection H as <-.
Defined.

(** ** Without [debug] *)

(** The lines printed from [w] to [w'] are none of [console.log]. *)
Definition no_logs (w w' : World) : Prop :=
  exists l,
    console w' = (console w ++ l)%list /\ Forall (fun x => fst x <> ConsoleLog) l.

Lemma no_logs_eq (w w' : World) : console w' = console w -> no_logs w w'.
Proof. intros H. exists []. now rewrite app_nil_r. Qed.

Lemma no_logs_trans (w1 w2 w3 : World) : no_logs w1 w2 -> no_logs w2 w3 -> no_logs w1 w3.
Proof.
  intros (l1 & E1 & F1) (l2 & E2 & F2). exists (l1 ++ l2)%list.
  split; [now rewrite E2, E1, app_assoc | now apply Forall_app].
Qed.

Lemma no_logs_print (w : World) (ch : Channel) (line : list string) :
  ch <> ConsoleLog -> no_logs w (set_console (console w ++ [(ch, line)]) w).
Proof. intros H. exists [(ch, line)]. split; [reflexivity | now repeat constructor]. Qed.

(** The run of [sid] is in [statsMap] with a [log] that prints nothing. *)
Definition hushed (sid : nat) (w : World) : Prop :=
  forall cfg, statsMap w !! sid = Some cfg -> log_debug cfg = false.

Definition hush (w w' : World) : Prop := statsMap w' = statsMap w /\ no_logs w w'.

Lemma hush_eq (w w' : World) :
  statsMap w' = statsMap w -> console w' = console w -> hush w w'.
Proof. intros H1 H2. split; [assumption | now apply no_logs_eq]. Qed.

Lemma hush_trans (w1 w2 w3 : World) : hush w1 w2 -> hush w2 w3 -> hush w1 w3.
Proof.
  intros [S1 N1] [S2 N2]. split; [congruence | eapply no_logs_trans; eassumption].
Qed.

Lemma hushed_hush (sid : nat) (w w' : World) : hushed sid w -> hush w w' -> hushed sid w'.
Proof. intros H [S _] cfg. rewrite S. apply H. Qed.

Lemma parse_filename_silent (env : Env) (directory : string)
    (versionToFile : gmap string string) (filename : string) (w : World) :
  snd (parse_filename env false directory versionToFile filename w) = w.
Proof.
  unfold parse_filename. destruct (first_is_dot filename); [reflexivity|].
  destruct (Semver.coerce _) as [c|].
  - destruct (negb (present _)); [reflexivity|].
    destruct (versionToFile !! _) as [existing|]; [destruct (negb _)|]; reflexivity.
  - unfold bind. now destruct (present _).
Qed.

Lemma parse_filenames_silent (env : Env) (directory : string) (filenames : list string) :
  forall (versionToFile : gmap string string) (w : World),
    snd (parse_filenames env false directory versionToFile filenames w) = w.
Proof.
  induction filenames as [|f rest IH]; intros vtf w; [reflexivity|].
  cbn [parse_filenames]. unfold bind at 1.
  pose proof (parse_filename_silent env directory vtf f w) as H.
  destruct (parse_filename env false directory vtf f w) as [[[file vtf']| |] w1];
    cbn [snd] in H; subst w1; try reflexivity.
  unfold bind. specialize (IH vtf' w).
  destruct (parse_filenames env false directory vtf' rest w) as [[files| |] w1];
    cbn [snd] in *; now subst.
Qed.

Lemma finish_console (opts : Options) (sid : nat) (w : World) :
  debug opts = false -> console (snd (finish opts sid w)) = console w.
Proof.
  intros H. unfold finish, bind, get. rewrite !log_eq. unfold modify, ret, logged.
  now rewrite H.
Qed.

Section Quiet.

Variable env : Env.
Variable opts : Options.
Hypothesis no_debug : debug opts = false.

Lemma still_bind {A B} (P : A -> Prop) (Q : B -> Prop) (m : M A) (k : A -> M B) :
  keeps (fun _ => True) no_logs P m ->
  (forall x, P x -> keeps (fun _ => True) no_logs Q (k x)) ->
  keeps (fun _ => True) no_logs Q (bind m k).
Proof. apply keeps_bind; [apply no_logs_trans | easy]. Qed.

Lemma still_then {A B} (Q : B -> Prop) (m : M A) (k : M B) :
  keeps (fun _ => True) no_logs (fun _ => True) m ->
  keeps (fun _ => True) no_logs Q k ->
  keeps (fun _ => True) no_logs Q (m >> k).
Proof. intros Hm Hk. eapply still_bind; [exact Hm | intros; exact Hk]. Qed.

Lemma still_same {A} (m : M A) :
  (forall w, console (snd (m w)) = console w) ->
  keeps (fun _ => True) no_logs (fun _ => True) m.
Proof. intros H w _. split; [apply no_logs_eq, H | easy]. Qed.

Lemma still_log (line : list string) :
  keeps (fun _ => True) no_logs (fun _ => True) (log (debug opts) line).
Proof. rewrite no_debug. now apply still_same. Qed.

(** Up to the loop, a run without [debug] prints the error of
    [require(req)] at most. *)
Lemma still_prepare : keeps (fun _ => True) no_logs (fun _ => True) (prepare env opts).
Proof.
  unfold prepare. apply still_then.
  { destruct (req opts) as [r|]; [|now apply still_same].
    destruct (require env r); [now apply still_same|].
    apply still_then; [|now apply still_same].
    intros w _. split; [|easy]. now apply no_logs_print. }
  eapply (still_bind (fun _ => True)); [now apply still_same|]. intros w0 _.
  apply still_then; [now apply still_same|].
  apply still_then; [destruct (negb _); now apply still_same|].
  eapply (still_bind (fun _ => True)).
  { rewrite no_debug. apply still_same. intros w.
    now rewrite parse_filenames_silent. }
  intros files _.
  apply still_then.
  { apply still_same. intros w. unfold update_stats, modify. cbn [snd].
    now destruct (heap w !! _). }
  apply still_then; [apply still_log|].
  apply still_then; [now apply still_same|].
  apply still_then; [destruct (opt_dryrun opts); [apply still_log | now apply still_same]|].
  apply still_then.
  { apply still_same. intros w. unfold proxyWritableMethods, bind, get.
    now destruct (proxied w). }
  apply still_then; [apply still_same; intros w; now destruct (collaborators env)|].
  eapply (still_bind (fun _ => True)); [now apply still_same|]. intros w1 _.
  apply still_then.
  { apply still_same. intros w. destruct (get_latest (history w1)) as [l|]; [|reflexivity].
    now destruct (negb (success l)). }
  eapply (still_bind (fun _ => True)).
  { apply still_same. intros w. now destruct (pending_files _ _). }
  intros [files' rank] _. apply still_then; [apply still_log | now apply still_same].
Qed.

(** The loop of a run without [debug] prints the warnings of open handles at
    most. *)
Lemma hush_run_files (sid : nat) (files : list MigrationFile) (rank : Z) (w : World) :
  hushed sid w -> hush w (snd (run_files env opts sid files rank w)).
Proof.
  intros Hw.
  apply (keeps_run_files env (hushed sid) hush) with (good := fun _ => True)
                                                      (loud := false);
    try first [ assumption | exact (hushed_hush sid) | apply hush_trans | easy
              | intros; now apply hush_eq
              | rewrite no_debug; discriminate ].
  - intros w0 ch line _ Hch. split; [reflexivity|]. apply no_logs_print.
    intros ->. now specialize (Hch eq_refl).
  - intros w0 cfg H0 E Hl. rewrite (H0 cfg E) in Hl. discriminate Hl.
Qed.

End Quiet.

(** X14. Without [debug] the engine prints no line with [console.log]: not its
    progress, not the calls it intercepts, and not the error of a migration
    that fails. What it prints goes to [console.error] and [console.warn]
    (the error of [require(req)], the warnings of open handles). *)
Theorem quiet_without_debug (env : Env) (opts : Options) (w : World) :
  debug opts = false ->
  exists l,
    console (snd (migrate env opts w)) = (console w ++ l)%list
    /\ Forall (fun x => fst x <> ConsoleLog) l.
Proof.
  intros Hd.
  destruct (still_prepare env opts Hd w I) as [N1 _].
  destruct (prepare_eq env opts w) as (w1 & Hprep & _ & Hrun).
  unfold migrate. unfold bind at 1. rewrite Hprep in *. cbn [snd] in N1.
  destruct (prepare_pure env opts (history w)) as [[[files rank] scanned]|e];
    cbn [rbind outcome_of fst snd]; [|exact N1].
  destruct (Hrun _ _ _ eq_refl) as (Hr1 & _).
  assert (H1 : hushed (List.length (heap w)) w1).
  { intros cfg E. rewrite (r_entry _ _ _ Hr1) in E. injection E as <-. exact Hd. }
  pose proof (hush_run_files env opts Hd (List.length (heap w)) files rank w1 H1)
    as [_ N2].
  unfold bind.
  destruct (run_files env opts (List.length (heap w)) files rank w1) as [[[]| |] w2];
    cbn [snd] in *; try (eapply no_logs_trans; eassumption).
  eapply no_logs_trans; [eassumption|]. eapply no_logs_trans; [eassumption|].
  apply no_logs_eq. now apply finish_console.
Qed.

Lemma quiet_without_debug_witness :
  exists l,
    console (snd (migrate Sample.first_fails (Sample.options false false) Sample.fresh))
    = (console Sample.fresh ++ l)%list
    /\ Forall (fun x => fst x <> ConsoleLog) l.
Proof. apply quiet_without_debug. reflexivity. Defined.

(** ** The hook of [trackAsync] *)

(** A frame of the migration file that the loop does not pass over. *)
Definition of_file (self path : string) (call : CallSite) : bool :=
  (negb (passed_over self (cs_fileName call))
   && String.eqb (default "" (cs_fileName call)) path)%bool.

Definition location (call : CallSite) : string :=
  default "" (cs_fileName call) +:+ ":" +:+ show_number (cs_lineNumber call) +:+ ":"
  +:+ show_number (cs_columnNumber call).

Lemma init_scan_app (self path : string) (pre rest : list CallSite) :
  Forall (fun c => cs_dontTrack c = false /\ of_file self path c = false) pre ->
  init_scan self path (pre ++ rest) = init_scan self path rest.
Proof.
  induction 1 as [|c pre [Hd Hf] _ IH]; [reflexivity|].
  cbn [app init_scan]. rewrite Hd. unfold of_file in Hf.
  destruct (passed_over self (cs_fileName c)); [exact IH|].
  cbn [negb andb] in Hf. now rewrite Hf.
Qed.

Lemma init_scan_found (self path : string) (calls : list CallSite) (where_ : string) :
  init_scan self path calls = Some where_ ->
  exists pre call rest,
    calls = (pre ++ call :: rest)%list
    /\ Forall (fun c => cs_dontTrack c = false /\ of_file self path c = false) pre
    /\ cs_dontTrack call = false
    /\ of_file self path call = true
    /\ where_ = location call.
Proof.
  induction calls as [|c rest IH]; [discriminate|].
  cbn [init_scan]. destruct (cs_dontTrack c) eqn:Hd; [discriminate|].
  destruct (of_file self path c) eqn:Hf.
  - unfold of_file in Hf. apply andb_true_iff in Hf as [Hp He].
    apply negb_true_iff in Hp. rewrite Hp, He. intros [= <-].
    exists [], c, rest. split; [reflexivity|]. split; [constructor|].
    split; [assumption|]. split; [|reflexivity].
    unfold of_file. now rewrite Hp, He.
  - assert (Hnext : init_scan self path rest = Some where_ ->
                     exists pre call rest0,
                       (c :: rest) = (pre ++ call :: rest0)%list
                       /\ Forall (fun c => cs_dontTrack c = false
                                           /\ of_file self path c = false) pre
                       /\ cs_dontTrack call = false
                       /\ of_file self path call = true
                       /\ where_ = location call).
    { intros H. destruct (IH H) as (pre & call & rest0 & -> & Hpre & Hc).
      exists (c :: pre), call, rest0. split; [reflexivity|].
      split; [now constructor | assumption]. }
    unfold of_file in Hf.
    destruct (passed_over self (cs_fileName c)); [exact Hnext|].
    cbn [negb andb] in Hf. rewrite Hf. exact Hnext.
Qed.

(** X15. [init] records an asynchronous resource exactly when, reading the
    stack from the top, it meets a frame of the migration file before any
    frame of a function that carries [dontTrack]; frames without a file
    name, of fireway itself, of [internal/] and of [timers.js] are passed
    over, as are frames of other files. The value recorded is the location
    of that first frame. *)
Theorem init_records_first_frame (self path : string) (calls : list CallSite)
    (where_ : string) :
  init_scan self path calls = Some where_
  <-> exists pre call rest,
        calls = (pre ++ call :: rest)%list
        /\ Forall (fun c => cs_dontTrack c = false /\ of_file self path c = false) pre
        /\ cs_dontTrack call = false
        /\ of_file self path call = true
        /\ where_ = location call.
Proof.
  split; [apply init_scan_found|].
  intros (pre & call & rest & -> & Hpre & Hd & Hf & ->).
  rewrite init_scan_app by assumption. cbn [init_scan]. rewrite Hd.
  unfold of_file in Hf. apply andb_true_iff in Hf as [Hp He].
  apply negb_true_iff in Hp. now rewrite Hp, He.
Qed.

(** A callback that leaves the entry of [id] as it is. *)
Definition leaves (self path : string) (id : nat) (ev : HookEvent) : Prop :=
  match ev with
  | HookInit id' calls => id' <> id \/ init_scan self path calls = None
  | HookBefore id' | HookAfter id' | HookPromiseResolve id' => id' <> id
  end.

Lemma deleteHandle_lookup (id id' : nat) (t : Tracker) :
  activeHandles (deleteHandle id' t) !! id
  = if decide (id' = id) then None else activeHandles t !! id.
Proof.
  unfold deleteHandle. destruct (activeHandles t !! id') as [l|] eqn:E.
  - cbn [activeHandles]. destruct (decide (id' = id)) as [->|Hne].
    + apply lookup_delete_eq.
    + now apply lookup_delete_ne.
  - destruct (decide (id' = id)) as [->|Hne]; [assumption | reflexivity].
Qed.

Lemma leaves_lookup (self path : string) (id : nat) (ev : HookEvent) (t : Tracker) :
  leaves self path id ev ->
  activeHandles (hook_call self path t ev) !! id = activeHandles t !! id.
Proof.
  destruct ev as [id' calls|id'|id'|id']; cbn [leaves hook_call]; intros H;
    try (rewrite deleteHandle_lookup; now destruct (decide (id' = id))).
  destruct (init_scan self path calls) as [l|] eqn:E; [|reflexivity].
  destruct H as [H|H]; [|discriminate H]. cbn [activeHandles].
  now apply lookup_insert_ne.
Qed.

Lemma leaves_all (self path : string) (id : nat) (post : list HookEvent) :
  Forall (leaves self path id) post ->
  forall t,
    activeHandles (fold_left (hook_call self path) post t) !! id
    = activeHandles t !! id.
Proof.
  induction 1 as [|ev post Hev _ IH]; intros t; [reflexivity|].
  cbn [fold_left]. rewrite IH. now apply leaves_lookup.
Qed.

Lemma tracked_snoc (self path : string) (evs : list HookEvent) (ev : HookEvent) :
  tracked self path (evs ++ [ev]) = hook_call self path (tracked self path evs) ev.
Proof. unfold tracked. now rewrite fold_left_app. Qed.

Lemma tracked_found (self path : string) (id : nat) (where_ : string) :
  forall evs,
    activeHandles (tracked self path evs) !! id = Some where_ ->
    exists pre calls post,
      evs = (pre ++ HookInit id calls :: post)%list
      /\ init_scan self path calls = Some where_
      /\ Forall (leaves self path id) post.
Proof.
  induction evs as [|ev evs IH] using rev_ind.
  - unfold tracked. cbn. now rewrite lookup_empty.
  - rewrite tracked_snoc.
    assert (Hkeep : leaves self path id ev ->
                    activeHandles (tracked self path evs) !! id = Some where_ ->
                    exists pre calls post,
                      (evs ++ [ev])%list = (pre ++ HookInit id calls :: post)%list
                      /\ init_scan self path calls = Some where_
                      /\ Forall (leaves self path id) post).
    { intros Hev H. destruct (IH H) as (pre & calls & post & -> & Hs & Hpost).
      exists pre, calls, (post ++ [ev])%list.
      split; [now rewrite <- app_assoc|]. split; [assumption|].
      apply Forall_app. split; [assumption | now repeat constructor]. }
    destruct ev as [id' calls|id'|id'|id']; cbn [hook_call];
      try (rewrite deleteHandle_lookup; destruct (decide (id' = id));
           [discriminate | now apply Hkeep]).
    destruct (init_scan self path calls) as [l|] eqn:E.
    + cbn [activeHandles]. destruct (decide (id' = id)) as [->|Hne].
      * rewrite lookup_insert_eq. intros [= <-].
        exists evs, calls, []. now repeat split.
      * rewrite lookup_insert_ne by assumption. apply Hkeep. now left.
    + apply Hkeep. now right.
Qed.

(** X16. After any callbacks of the hook, [activeHandles] has [where_] for
    an asynchronous resource exactly when the last [init] that recorded the
    resource recorded [where_] and no [before], [after] or [promiseResolve]
    of the resource came after it. *)
Theorem open_handles_are_pending (self path : string) (evs : list HookEvent)
    (id : nat) (where_ : string) :
  activeHandles (tracked self path evs) !! id = Some where_
  <-> exists pre calls post,
        evs = (pre ++ HookInit id calls :: post)%list
        /\ init_scan self path calls = Some where_
        /\ Forall (leaves self path id) post.
Proof.
  split; [apply tracked_found|].
  intros (pre & calls & post & -> & Hs & Hpost).
  unfold tracked. rewrite fold_left_app. cbn [fold_left].
  rewrite (leaves_all self path id post Hpost). cbn [hook_call]. rewrite Hs.
  cbn [activeHandles]. apply lookup_insert_eq.
Qed.

(** ** A latest record that [semver] cannot read *)

Lemma filter_gt_unreadable (lv e : string) (f : MigrationFile)
    (rest : list MigrationFile) :
  canonical_file f -> Semver.SemVer_new lv = Throw e ->
  filter_gt lv (f :: rest) = Throw e.
Proof.
  intros (c & _ & _ & Hc) Hl. cbn [filter_gt]. unfold Semver.gt, Semver.compare.
  now rewrite Hc, Hl.
Qed.

(** X17. When the version of the latest record is no version for [semver]
    and the directory holds a migration file, [migrate] throws the error of
    [semver.gt] on the first file that it filters: no migration is run and
    nothing is written. *)
Theorem unreadable_latest_aborts (env : Env) (opts : Options) (w : World)
    (l : HistoryRecord) (f : MigrationFile) (rest : list MigrationFile) (e : string) :
  preloaded env opts = true ->
  exists_ env (directory_of env opts) = true ->
  scan_pure env (directory_of env opts) ∅ (filenames_in env (directory_of env opts))
  = Ok (f :: rest) ->
  collaborators env = Ok tt ->
  get_latest (history w) = Some l ->
  success l = true ->
  Semver.SemVer_new (hr_version l) = Throw e ->
  exists w', migrate env opts w = (Thrown e, w') /\ untouched w w'.
Proof.
  intros Hpre Hdir Hs Hcol Hl Hsl He.
  destruct (scanned_files env _ _ _ Hs) as (Hall & _).
  apply Forall_cons in Hall as [(_ & _ & Hf) _].
  apply migrate_throws. unfold prepare_pure. unfold preloaded in Hpre.
  assert (Hstart : match req opts with
                   | Some r =>
                       match require env r with
                       | Ok _ => Ok tt
                       | Throw _ => Throw ("Trouble executing require('" +:+ r +:+ "');")
                       end
                   | None => Ok tt
                   end = Ok tt).
  { destruct (req opts) as [r|]; [destruct (require env r); [|discriminate Hpre]|];
      reflexivity. }
  rewrite Hstart. cbn [rbind]. rewrite Hdir, Hs. cbn [negb rbind].
  rewrite Hcol. cbn [rbind]. rewrite Hl, Hsl. cbn [negb rbind].
  unfold pending_files. now rewrite (filter_gt_unreadable _ e f rest Hf He).
Qed.

(** A history whose latest record is of version [one]. *)
Definition odd_history : World :=
  {| proxied := false; statsMap := ∅; heap := [];
     history := [("fireway/0-one-a",
                  {| installed_rank := 0; hr_description := "a"; hr_version := "one";
                     script := "one__a.js"; type := "js"; checksum := "content";
                     installed_by := "me"; installed_on := 0; execution_time := 5;
                     success := true |})];
     docs := ∅; console := []; clock := 0; events := [] |}.

Lemma unreadable_latest_aborts_witness :
  exists w',
    migrate (Sample.one_file Sample.six_writes) (Sample.options false false) odd_history
    = (Thrown "Invalid Version: one", w')
    /\ untouched odd_history w'.
Proof.
  exact (unreadable_latest_aborts (Sample.one_file Sample.six_writes)
           (Sample.options false false) odd_history _
           {| filename := "1__a.js"; path := "/m/1__a.js"; version := "1.0.0";
              description := "a" |} [] "Invalid Version: one"
           eq_refl eq_refl eq_refl eq_refl eq_refl eq_refl eq_refl).
Defined.
